(** * A circular genome for simulating transposable elements

    Shallow embedding of [src/genome.py]: the abstract class [Genome] and its
    two implementations, [ListGenome] (two Python lists kept side by side)
    and [LinkedListGenome] (three Python lists, one of them holding the
    index of the next slot), followed by the properties of the
    specification, each settled against the embedded code.

    Python objects are mutable and a method may raise after it has changed
    the object, so every method is a function from the state of the object
    to an [outcome] that carries the state in both cases. *)

From Stdlib Require Import Ascii.
From stdpp Require Import base option numbers list strings.

Local Open Scope Z_scope.

(** ** Python values and control flow *)

(** The built-in exceptions the module can raise. *)
Inductive exn : Set :=
| IndexError          (* list index out of range *)
| ValueError          (* list.remove(x): x not in list *)
| ZeroDivisionError   (* integer modulo by zero *)
| UnboundLocalError.  (* local variable read before assignment *)

(** What a call does to an object in state [S]: it returns a value, it raises
    (leaving the object as it was at the [raise]), or it runs for ever. *)
Inductive outcome (S A : Type) : Type :=
| Return (v : A) (s : S)
| Raise (e : exn) (s : S)
| Diverge.
Arguments Return {S A} v s.
Arguments Raise {S A} e s.
Arguments Diverge {S A}.

Definition M (S A : Type) : Type := S -> outcome S A.

#[global] Instance M_ret {S} : MRet (M S) := fun A v s => Return v s.
#[global] Instance M_bind {S} : MBind (M S) := fun A B k m s =>
  match m s with
  | Return v s' => k v s'
  | Raise e s' => Raise e s'
  | Diverge => Diverge
  end.

#[global] Instance M_fmap {S} : FMap (M S) := fun A B f m s =>
  match m s with
  | Return v s' => Return (f v) s'
  | Raise e s' => Raise e s'
  | Diverge => Diverge
  end.

Definition raise {S A} (e : exn) : M S A := fun s => Raise e s.
Definition get {S} : M S S := fun s => Return s s.
Definition modify {S} (f : S -> S) : M S unit := fun s => Return tt (f s).

(** [x = o] for a Python expression [o] that raises [e] when it has no
    value. *)
Definition try_ {S A} (e : exn) (o : option A) : M S A :=
  match o with Some v => mret v | None => raise e end.

(** The state a call leaves behind, when it terminates. *)
Definition state_after {S A} (o : outcome S A) : option S :=
  match o with
  | Return _ s => Some s
  | Raise _ s => Some s
  | Diverge => None
  end.

Definition result {S A} (o : outcome S A) : option A :=
  match o with Return v _ => Some v | _ => None end.

(** [len(l)] *)
Definition len {A} (l : list A) : Z := Z.of_nat (length l).

(** The position a Python index denotes in a list of [n] items: [0..n-1]
    as they are, [-n..-1] counted from the end, anything else is an
    [IndexError]. *)
Definition norm_index (n : nat) (i : Z) : option nat :=
  if bool_decide (0 <= i < Z.of_nat n) then Some (Z.to_nat i)
  else if bool_decide (- Z.of_nat n <= i < 0) then Some (Z.to_nat (Z.of_nat n + i))
  else None.

(** [l[i]] *)
Definition py_get {A} (l : list A) (i : Z) : option A :=
  k ← norm_index (length l) i; l !! k.

(** [l[i] = v] *)
Definition py_set {A} (l : list A) (i : Z) (v : A) : option (list A) :=
  k ← norm_index (length l) i; Some (<[k := v]> l).

(** The bound of a slice: it is clamped, never an error. *)
Definition slice_bound (n : nat) (i : Z) : nat :=
  if bool_decide (i < 0) then Z.to_nat (Z.max 0 (Z.of_nat n + i))
  else Z.to_nat (Z.min i (Z.of_nat n)).

(** [l[0:i]] and [l[i:]] *)
Definition slice_to {A} (l : list A) (i : Z) : list A :=
  take (slice_bound (length l) i) l.
Definition slice_from {A} (l : list A) (i : Z) : list A :=
  drop (slice_bound (length l) i) l.

(** [range(n)] *)
Definition range (n : Z) : list nat := seq 0 (Z.to_nat n).

(** [for i in r: body(i)] *)
Fixpoint for_ {S} (r : list nat) (body : nat -> M S unit) : M S unit :=
  match r with
  | [] => mret tt
  | i :: r' => body i ;; for_ r' body
  end.

(** [l.remove(x)]: drops the first item equal to [x]; [None] stands for the
    [ValueError] of a list without one. *)
Fixpoint list_remove (x : Z) (l : list Z) : option (list Z) :=
  match l with
  | [] => None
  | y :: l' => if bool_decide (y = x) then Some l' else cons y <$> list_remove x l'
  end.

(** The three one-character strings a position holds. *)
Definition empty_sym : ascii := "-"%char.
Definition active_sym : ascii := "A"%char.
Definition disabled_sym : ascii := "x"%char.

(** The loop both [disable_te] methods start with,
<<
    for i in range(len(self.ID)):
        if self.ID[i] == te:
            self.lst[i] = "x"
>>
    as a computation on [self.lst]. *)
Definition mark_slot (te : Z) (ids : list Z) (i : nat) : M (list ascii) unit :=
  o ← try_ IndexError (ids !! i);
  if bool_decide (o = te) then
    l ← get;
    l' ← try_ IndexError (py_set l (Z.of_nat i) disabled_sym);
    modify (fun _ => l')
  else mret tt.

Definition mark_owned (te : Z) (ids : list Z) : M (list ascii) unit :=
  for_ (range (len ids)) (mark_slot te ids).

(** Runs a computation on one field of an object. *)
Definition zoom {S T A} (proj : S -> T) (upd : T -> S -> S) (m : M T A) : M S A :=
  fun s =>
    match m (proj s) with
    | Return v t => Return v (upd t s)
    | Raise e t => Raise e (upd t s)
    | Diverge => Diverge
    end.

(** ** The abstract class *)

(** The methods of [class Genome(ABC)]. [__str__] is a computation as well:
    the linked implementation indexes lists while it renders. *)
Class Genome (G : Type) : Type := {
  new : Z -> G;
  insert_te : Z -> Z -> M G Z;
  copy_te : Z -> Z -> M G (option Z);
  disable_te : Z -> M G unit;
  active_tes : G -> list Z;
  __len__ : G -> Z;
  __str__ : M G string;
}.

(** ** ListGenome *)

Module ListGenome.

Record t : Type := mk {
  lst : list ascii;
  ID : list Z;
  active_lst : list Z;
  count : Z;
}.

Definition set_lst (l : list ascii) (g : t) : t :=
  mk l g.(ID) g.(active_lst) g.(count).
Definition set_active_lst (a : list Z) (g : t) : t :=
  mk g.(lst) g.(ID) a g.(count).

(** [__init__]: [n] times [append("-")] and [append(0)]. *)
Definition init (n : Z) : t :=
  mk (replicate (Z.to_nat n) empty_sym) (replicate (Z.to_nat n) 0) [] 0.

Definition disable_te (te : Z) : M t unit :=
  g ← get;
  zoom lst set_lst (mark_owned te g.(ID)) ;;
  g ← get;
  a ← try_ ValueError (list_remove te g.(active_lst));
  modify (set_active_lst a).

Definition insert_te (pos length : Z) : M t Z :=
  g ← get;
  pos ← (if bool_decide (pos > len g.(lst)) then
           if bool_decide (len g.(lst) = 0) then raise ZeroDivisionError
           else mret (pos mod len g.(lst))
         else mret pos);
  modify (fun g => mk g.(lst) g.(ID) g.(active_lst) (g.(count) + 1)) ;;
  c ← try_ IndexError (py_get g.(lst) pos);
  (if bool_decide (c = active_sym) then
     o ← try_ IndexError (py_get g.(ID) pos);
     disable_te o
   else mret tt) ;;
  g ← get;
  let lst1 := slice_to g.(lst) pos ++ replicate (Z.to_nat length) active_sym in
  let ID1 := slice_to g.(ID) pos ++ replicate (Z.to_nat length) g.(count) in
  let lst2 := slice_from g.(lst) pos in
  let ID2 := slice_from g.(ID) pos in
  modify (fun g => mk (lst1 ++ lst2) (ID1 ++ ID2)
                      (g.(active_lst) ++ [g.(count)]) g.(count)) ;;
  mret g.(count).

Definition copy_te (te offset : Z) : M t (option Z) :=
  g ← get;
  index_ID ← try_ UnboundLocalError (fst <$> list_find (fun o => o = te) g.(ID));
  c ← try_ IndexError (py_get g.(lst) (Z.of_nat index_ID));
  if bool_decide (c = disabled_sym) then mret None
  else
    let len_ID := len (filter (fun o => o = te) g.(ID)) in
    Some <$> insert_te (Z.of_nat index_ID + offset) len_ID.

Definition active_tes (g : t) : list Z := g.(active_lst).
Definition __len__ (g : t) : Z := len g.(lst).
Definition __str__ : M t string :=
  g ← get; mret (String.string_of_list_ascii g.(lst)).

End ListGenome.

(** ** LinkedListGenome *)

Module LinkedListGenome.

Record t : Type := mk {
  lst : list ascii;
  index_next : list Z;
  ID : list Z;
  active_lst : list Z;
  count : Z;
}.

Definition set_lst (l : list ascii) (g : t) : t :=
  mk l g.(index_next) g.(ID) g.(active_lst) g.(count).
Definition set_index_next (nx : list Z) (g : t) : t :=
  mk g.(lst) nx g.(ID) g.(active_lst) g.(count).
Definition set_active_lst (a : list Z) (g : t) : t :=
  mk g.(lst) g.(index_next) g.(ID) a g.(count).

(** [__init__]: slot [i] is linked to slot [(i+1) % n]. *)
Definition init (n : Z) : t :=
  mk (replicate (Z.to_nat n) empty_sym)
     (map (fun i : nat => (Z.of_nat i + 1) mod n) (range n))
     (replicate (Z.to_nat n) 0) [] 0.

Definition disable_te (te : Z) : M t unit :=
  g ← get;
  zoom lst set_lst (mark_owned te g.(ID)) ;;
  g ← get;
  a ← try_ ValueError (list_remove te g.(active_lst));
  modify (set_active_lst a).

(** [for _ in range(k): i = self.index_next[i]], from slot [i]. *)
Fixpoint walk (nx : list Z) (k : nat) (i : Z) : option Z :=
  match k with
  | O => Some i
  | S k' => j ← py_get nx i; walk nx k' j
  end.

(** [for _ in range(k): self.index_next.append(len(self.index_next)+1)] *)
Fixpoint append_links (k : nat) (nx : list Z) : list Z :=
  match k with
  | O => nx
  | S k' => append_links k' (nx ++ [len nx + 1])
  end.

Definition insert_te (pos length : Z) : M t Z :=
  modify (fun g => mk g.(lst) g.(index_next) g.(ID) g.(active_lst) (g.(count) + 1)) ;;
  g ← get;
  i ← try_ IndexError (walk g.(index_next) (Z.to_nat (pos - 1)) 0);
  c ← try_ IndexError (py_get g.(lst) i);
  (if bool_decide (c = active_sym) then
     o ← try_ IndexError (py_get g.(ID) i);
     disable_te o
   else mret tt) ;;
  g ← get;
  old_next ← try_ IndexError (py_get g.(index_next) i);
  nx ← try_ IndexError (py_set g.(index_next) i (len g.(lst)));
  modify (set_index_next (append_links (Z.to_nat (length - 1)) nx ++ [old_next])) ;;
  modify (fun g => mk (g.(lst) ++ replicate (Z.to_nat length) active_sym)
                      g.(index_next)
                      (g.(ID) ++ replicate (Z.to_nat length) g.(count))
                      (g.(active_lst) ++ [g.(count)]) g.(count)) ;;
  mret g.(count).

(** [while self.ID[i] != te: i = self.index_next[i]; count += 1], from slot
    [i] with [count] steps done; [fuel] bounds the number of tests of the
    condition, and [Diverge] is the loop that has not left by then. *)
Fixpoint seek (fuel : nat) (te : Z) (i count : Z) : M t (Z * Z) :=
  match fuel with
  | O => fun _ => Diverge
  | S fuel' =>
      g ← get;
      o ← try_ IndexError (py_get g.(ID) i);
      if bool_decide (o <> te) then
        j ← try_ IndexError (py_get g.(index_next) i);
        seek fuel' te j (count + 1)
      else mret (i, count)
  end.

(** [while self.ID[i] == te: i = self.index_next[i]; count += 1] *)
Fixpoint span (fuel : nat) (te : Z) (i count : Z) : M t (Z * Z) :=
  match fuel with
  | O => fun _ => Diverge
  | S fuel' =>
      g ← get;
      o ← try_ IndexError (py_get g.(ID) i);
      if bool_decide (o = te) then
        j ← try_ IndexError (py_get g.(index_next) i);
        span fuel' te j (count + 1)
      else mret (i, count)
  end.

(** The two [print] calls write to the standard output only and are left
    out. *)
Definition copy_te (fuel : nat) (te offset : Z) : M t (option Z) :=
  g ← get;
  if bool_decide (te ∉ g.(active_lst)) then mret None
  else
    '(i, te_pos) ← seek fuel te 0 0;
    '(_, count) ← span fuel te i 0;
    Some <$> insert_te (len g.(index_next) + (te_pos + offset)) count.

Definition active_tes (g : t) : list Z := g.(active_lst).
Definition __len__ (g : t) : Z := len g.(lst).

(** [__str__] keeps the list it builds in the attribute [self.new]; no other
    method reads or assigns this attribute. The object with it: *)
Record rendered : Type := with_new { self : t; new : list ascii }.

(** The loop of [__str__] runs until [self.new] is as long as [self.lst]
    and appends one item per turn: [len(self.lst)] turns, from the empty
    list. *)
Fixpoint collect (k : nat) (i : Z) : M rendered unit :=
  match k with
  | O => mret tt
  | S k' =>
      r ← get;
      c ← try_ IndexError (py_get r.(self).(lst) i);
      modify (fun r => with_new r.(self) (r.(new) ++ [c])) ;;
      j ← try_ IndexError (py_get r.(self).(index_next) i);
      collect k' j
  end.

(** [__str__] on the object with [self.new]. *)
Definition __str__new : M rendered string :=
  modify (fun r => with_new r.(self) []) ;;
  r ← get;
  collect (List.length r.(self).(lst)) 0 ;;
  r ← get;
  mret (String.string_of_list_ascii r.(new)).

(** [__str__] on the attributes that the other methods use: what it leaves
    in [self.new] is set aside when the call is over. *)
Definition __str__ : M t string := fun g =>
  match __str__new (with_new g []) with
  | Return s r => Return s r.(self)
  | Raise e r => Raise e r.(self)
  | Diverge => Diverge
  end.

End LinkedListGenome.

#[global] Instance ListGenome_Genome : Genome ListGenome.t := {|
  new := ListGenome.init;
  insert_te := ListGenome.insert_te;
  copy_te := ListGenome.copy_te;
  disable_te := ListGenome.disable_te;
  active_tes := ListGenome.active_tes;
  __len__ := ListGenome.__len__;
  __str__ := ListGenome.__str__;
|}.

(** The linked implementation with [fuel] turns allowed to each [while] loop
    of [copy_te]. *)
Definition LinkedListGenome_Genome (fuel : nat) : Genome LinkedListGenome.t := {|
  new := LinkedListGenome.init;
  insert_te := LinkedListGenome.insert_te;
  copy_te := LinkedListGenome.copy_te fuel;
  disable_te := LinkedListGenome.disable_te;
  active_tes := LinkedListGenome.active_tes;
  __len__ := LinkedListGenome.__len__;
  __str__ := LinkedListGenome.__str__;
|}.

(** ** Sequences of calls *)

Inductive op : Set :=
| InsertTe (pos length : Z)
| CopyTe (te offset : Z)
| DisableTe (te : Z).

(** One call, its value forgotten. *)
Definition step {G} `{Genome G} (o : op) : M G unit :=
  match o with
  | InsertTe pos length => insert_te pos length ;; mret tt
  | CopyTe te offset => copy_te te offset ;; mret tt
  | DisableTe te => disable_te te
  end.

(** The states an object goes through under a sequence of calls, the first
    one included. A caller may catch an exception and go on, so the run
    continues from the state at the [raise]; it ends at a call that does not
    terminate. *)
Fixpoint run {G} `{Genome G} (g : G) (ops : list op) : list G :=
  match ops with
  | [] => [g]
  | o :: ops' =>
      g :: match state_after (step o g) with
           | Some g' => run g' ops'
           | None => []
           end
  end.

(** What an observer sees of a state: [str(g)], when it has a value, and
    [g.active_tes()]. *)
Definition observe {G} `{Genome G} (g : G) : option string * list Z :=
  (result (__str__ g), active_tes g).

(** * The vocabulary of the properties *)

(** [self.lst] after the loop of [disable_te(te)]: the slots owned by [te]
    read ["x"]. *)
Definition relabel (te : Z) (ids : list Z) (l : list ascii) : list ascii :=
  imap (fun i c => if bool_decide (ids !! i = Some te) then disabled_sym else c) l.

(** How a call may change [self.active_lst] and [self.count], from [(a, c)]
    to [(a', c')]: the counter rises by one at most, and an id that is active
    afterwards was active before or is the one just handed out. *)
Definition ledger_step (a : list Z) (c : Z) (a' : list Z) (c' : Z) : Prop :=
  (c' = c \/ c' = c + 1) /\
  forall te, te ∈ a' -> te ∈ a \/ (te = c + 1 /\ c' = c + 1).

(** The same over any number of calls. *)
Definition ledger_later (a : list Z) (c : Z) (a' : list Z) (c' : Z) : Prop :=
  c <= c' /\ forall te, te ∈ a' -> te ∈ a \/ c < te <= c'.

(** ** The states a call goes through *)

Module ListSteps.
Import ListGenome.

(** After [self.count += 1]. *)
Definition bump (g : t) : t := mk g.(lst) g.(ID) g.(active_lst) (g.(count) + 1).

(** After the loop of [disable_te(te)]. *)
Definition marked (te : Z) (g : t) : t :=
  mk (relabel te g.(ID) g.(lst)) g.(ID) g.(active_lst) g.(count).

(** After the last part of [insert_te], from the two slices on. *)
Definition splice (pos length : Z) (g : t) : t :=
  mk ((slice_to g.(lst) pos ++ replicate (Z.to_nat length) active_sym)
        ++ slice_from g.(lst) pos)
     ((slice_to g.(ID) pos ++ replicate (Z.to_nat length) g.(count))
        ++ slice_from g.(ID) pos)
     (g.(active_lst) ++ [g.(count)]) g.(count).

(** The position [insert_te] works with. *)
Definition wrapped (g : t) (pos : Z) : Z :=
  if bool_decide (pos > len g.(lst)) then pos mod len g.(lst) else pos.

(** [g'] may follow [g] as far as the ids go. *)
Definition step_ok (g g' : t) : Prop :=
  ledger_step g.(active_lst) g.(count) g'.(active_lst) g'.(count).

End ListSteps.

Module LinkedSteps.
Import LinkedListGenome.

(** After [self.count += 1]. *)
Definition bump (g : t) : t :=
  mk g.(lst) g.(index_next) g.(ID) g.(active_lst) (g.(count) + 1).

(** After the loop of [disable_te(te)]. *)
Definition marked (te : Z) (g : t) : t :=
  mk (relabel te g.(ID) g.(lst)) g.(index_next) g.(ID) g.(active_lst) g.(count).

(** The last part of [insert_te], from [old_next = self.index_next[i]] on:
    [length] new slots are linked in after slot [i]. *)
Definition splice (i length : Z) (g : t) : option t :=
  old_next ← py_get g.(index_next) i;
  nx ← py_set g.(index_next) i (len g.(lst));
  Some (mk (g.(lst) ++ replicate (Z.to_nat length) active_sym)
           (append_links (Z.to_nat (length - 1)) nx ++ [old_next])
           (g.(ID) ++ replicate (Z.to_nat length) g.(count))
           (g.(active_lst) ++ [g.(count)]) g.(count)).

(** ... as the end of the call: it returns the new id, or one of the two
    accesses of [self.index_next[i]] raises. *)
Definition finish (i length : Z) (g : t) : outcome t Z :=
  match splice i length g with
  | Some g' => Return g.(count) g'
  | None => Raise IndexError g
  end.

(** [g'] may follow [g] as far as the ids go. *)
Definition step_ok (g g' : t) : Prop :=
  ledger_step g.(active_lst) g.(count) g'.(active_lst) g'.(count).

End LinkedSteps.

(** ** Both classes at once *)

(** The two classes; the linked one comes with the number of turns its
    [while] loops are followed for. *)
Inductive impl : Set :=
| array_backed
| linked_slots (fuel : nat).

Definition state (I : impl) : Type :=
  match I with
  | array_backed => ListGenome.t
  | linked_slots _ => LinkedListGenome.t
  end.

#[global] Instance impl_Genome (I : impl) : Genome (state I) :=
  match I with
  | array_backed => ListGenome_Genome
  | linked_slots fuel => LinkedListGenome_Genome fuel
  end.

(** [self.count], the last id handed out. *)
Definition counter {I : impl} : state I -> Z :=
  match I with
  | array_backed => ListGenome.count
  | linked_slots _ => LinkedListGenome.count
  end.

(** No active id is above the counter. *)
Definition issued {I : impl} (g : state I) : Prop :=
  forall te, te ∈ active_tes g -> te <= counter g.

(** [g'] may come after [g] in a run, as far as the ids go. *)
Definition later {I : impl} (g g' : state I) : Prop :=
  ledger_later (active_tes g) (counter g) (active_tes g') (counter g').

(** ** The ring of slots *)

(** The slots met in [k] steps along [index_next], from slot [i] on. *)
Fixpoint orbit (nx : list Z) (k : nat) (i : Z) : option (list Z) :=
  match k with
  | O => Some []
  | S k' => j ← py_get nx i; cons i <$> orbit nx k' j
  end.

(** [path nx a l b]: following [index_next] from slot [a] one meets the slots
    [l] in this order and then stands at [b]. *)
Fixpoint path (nx : list Z) (a : Z) (l : list Z) (b : Z) : Prop :=
  match l with
  | [] => a = b
  | x :: l' => x = a /\ exists y, py_get nx a = Some y /\ path nx y l' b
  end.

(** [index_next] is one ring through all slots: the slots met from slot 0 are
    all the indices of the list, each once, and the walk is back at 0 then. *)
Definition ring (nx : list Z) : Prop :=
  exists slots, path nx 0 slots 0 /\ NoDup slots /\ length slots = length nx /\
                forall x, x ∈ slots <-> 0 <= x < len nx.

(** ** Lists in step, well-formed objects *)

(** Calls whose inserted length is at least one. *)
Definition positive_length (o : op) : Prop :=
  match o with
  | InsertTe _ length => 1 <= length
  | _ => True
  end.

(** [self.lst] and [self.ID] are equally long. *)
Definition list_lockstep (g : ListGenome.t) : Prop :=
  length g.(ListGenome.lst) = length g.(ListGenome.ID).

(** The three lists are equally long and [self.index_next] is a ring. *)
Definition linked_lockstep (g : LinkedListGenome.t) : Prop :=
  length g.(LinkedListGenome.lst) = length g.(LinkedListGenome.ID) /\
  length g.(LinkedListGenome.index_next) = length g.(LinkedListGenome.lst) /\
  ring g.(LinkedListGenome.index_next).

(** The invariant as one can test it: the lists are equally long and, for the
    linked class, [len(self.lst)] steps from slot 0 meet that many slots,
    all different and all indices of the lists, and end at slot 0. *)
Definition lockstep {I : impl} : state I -> Prop :=
  match I with
  | array_backed => list_lockstep
  | linked_slots _ => fun g =>
      let n := length g.(LinkedListGenome.lst) in
      n = length g.(LinkedListGenome.ID) /\
      length g.(LinkedListGenome.index_next) = n /\
      exists slots,
        orbit g.(LinkedListGenome.index_next) n 0 = Some slots /\
        NoDup slots /\
        Forall (fun x => 0 <= x < Z.of_nat n) slots /\
        LinkedListGenome.walk g.(LinkedListGenome.index_next) n 0 = Some 0
  end.

(** A LinkedListGenome in step whose active ids each own a slot, slot 0
    being an empty position of the genome as created. *)
Definition linked_owned (g : LinkedListGenome.t) : Prop :=
  linked_lockstep g /\
  0 <= g.(LinkedListGenome.count) /\
  (forall te, te ∈ g.(LinkedListGenome.active_lst) ->
              1 <= te /\ te ∈ g.(LinkedListGenome.ID)) /\
  (forall o, g.(LinkedListGenome.ID) !! 0%nat = Some o -> o = 0).

(** What holds of a slot with symbol [c] and owner [o] when the active ids
    are [a] and no id above [b] has been handed out. *)
Definition slot_ok (a : list Z) (b : Z) (c : ascii) (o : Z) : Prop :=
  0 <= o <= b /\ (c = active_sym -> o ∈ a).

(** A ListGenome all of whose ids are at most [b]: every slot is in order and
    no id is active twice. *)
Definition list_wf_at (b : Z) (g : ListGenome.t) : Prop :=
  0 <= b /\
  Forall2 (slot_ok g.(ListGenome.active_lst) b) g.(ListGenome.lst) g.(ListGenome.ID) /\
  NoDup g.(ListGenome.active_lst) /\
  Forall (fun te => 1 <= te <= b) g.(ListGenome.active_lst).

Definition list_wf (g : ListGenome.t) : Prop := list_wf_at g.(ListGenome.count) g.

(** ** Positions and their owners *)

(** [self.lst] and [self.ID] of either class. *)
Definition symbols {I : impl} : state I -> list ascii :=
  match I with
  | array_backed => ListGenome.lst
  | linked_slots _ => LinkedListGenome.lst
  end.

Definition owners {I : impl} : state I -> list Z :=
  match I with
  | array_backed => ListGenome.ID
  | linked_slots _ => LinkedListGenome.ID
  end.

(** A slot with symbol [c] and owner [o] is tidy for the active ids [a] and
    the counter [b]: the owner has been handed out, the symbol is one of the
    three, the slot reads ["A"] exactly when its owner is active, and it
    reads ["x"] when its owner is an id that is active no more. *)
Definition slot_tidy (a : list Z) (b : Z) (c : ascii) (o : Z) : Prop :=
  0 <= o <= b /\
  (c = empty_sym \/ c = active_sym \/ c = disabled_sym) /\
  (c = active_sym <-> o ∈ a) /\
  (o <> 0 -> o ∉ a -> c = disabled_sym).

Definition tidy (b : Z) (a : list Z) (l : list ascii) (ids : list Z) : Prop :=
  0 <= b /\ Forall2 (slot_tidy a b) l ids /\ NoDup a /\
  Forall (fun te => 1 <= te <= b) a.

Definition tidy_state {I : impl} (g : state I) : Prop :=
  tidy (counter g) (active_tes g) (symbols g) (owners g).

(** ** The genome as a sequence of positions *)

(** The symbol and the owner held in slot [s] of the two lists. *)
Definition cell (l : list ascii) (ids : list Z) (s : Z) : option (ascii * Z) :=
  c ← py_get l s; o ← py_get ids s; Some (c, o).

(** The positions of a genome from position 0 on, each with its symbol and
    its owner: for the ListGenome the two lists side by side, for the
    LinkedListGenome the slots in the order [index_next] links them, from
    slot 0, as [__str__] visits them. *)
Definition positions {I : impl} : state I -> option (list (ascii * Z)) :=
  match I with
  | array_backed => fun g => Some (zip g.(ListGenome.lst) g.(ListGenome.ID))
  | linked_slots _ => fun g =>
      slots ← orbit g.(LinkedListGenome.index_next)
                    (length g.(LinkedListGenome.lst)) 0;
      mapM (cell g.(LinkedListGenome.lst) g.(LinkedListGenome.ID)) slots
  end.

(** [v] holds the cells of the slots [slots], in this order. *)
Definition along (l : list ascii) (ids : list Z) (slots : list Z)
    (v : list (ascii * Z)) : Prop :=
  Forall2 (fun s p => l !! Z.to_nat s = Some p.1 /\ ids !! Z.to_nat s = Some p.2)
          slots v.

(** A position after [disable_te(te)]. *)
Definition mark (te : Z) (p : ascii * Z) : ascii * Z :=
  (if bool_decide (p.2 = te) then disabled_sym else p.1, p.2).

(** The owner [insert_te] disables when the position it tests is [q]: the
    owner of that position, if it reads ["A"]. *)
Definition struck (v : list (ascii * Z)) (q : nat) : option Z :=
  match v !! q with
  | Some (c, o) => if bool_decide (c = active_sym) then Some o else None
  | None => None
  end.

(** The positions and the active ids once that owner is disabled. *)
Definition after_collision (v : list (ascii * Z)) (a : list Z) (q : nat)
  : list (ascii * Z) * list Z :=
  match struck v q with
  | Some o => (mark o <$> v, filter (fun x => x <> o) a)
  | None => (v, a)
  end.

(** [length] new positions of the element [id], put in before position
    [p]. *)
Definition put_in (v : list (ascii * Z)) (p : nat) (length id : Z)
  : list (ascii * Z) :=
  take p v ++ replicate (Z.to_nat length) (active_sym, id) ++ drop p v.

(** A LinkedListGenome whose three lists are in step, whose [index_next] is
    a ring, which is tidy, and whose positions are [v]. *)
Definition linked_ready (g : LinkedListGenome.t) (v : list (ascii * Z)) : Prop :=
  exists slots,
    path g.(LinkedListGenome.index_next) 0 slots 0 /\ NoDup slots /\
    List.length slots = List.length g.(LinkedListGenome.lst) /\
    (forall x, x ∈ slots <-> 0 <= x < len g.(LinkedListGenome.lst)) /\
    List.length g.(LinkedListGenome.ID) = List.length g.(LinkedListGenome.lst) /\
    List.length g.(LinkedListGenome.index_next) = List.length g.(LinkedListGenome.lst) /\
    along g.(LinkedListGenome.lst) g.(LinkedListGenome.ID) slots v /\
    tidy g.(LinkedListGenome.count) g.(LinkedListGenome.active_lst)
         g.(LinkedListGenome.lst) g.(LinkedListGenome.ID).

(** A ListGenome that is well formed and tidy. *)
Definition list_ready (g : ListGenome.t) : Prop :=
  list_wf g /\
  tidy g.(ListGenome.count) g.(ListGenome.active_lst) g.(ListGenome.lst) g.(ListGenome.ID).

(** ** The element that [copy_te] copies *)

(** The first position that [te] owns. *)
Definition first_of (te : Z) (v : list (ascii * Z)) : option nat :=
  fst <$> list_find (fun p : ascii * Z => p.2 = te) v.

(** The number of positions at the head of [v] that [te] owns. *)
Fixpoint stretch (te : Z) (v : list (ascii * Z)) : nat :=
  match v with
  | p :: v' => if bool_decide (p.2 = te) then S (stretch te v') else O
  | [] => O
  end.

(** ** A genome without positions *)

(** All the lists of the object are empty. *)
Definition barren {I : impl} : state I -> Prop :=
  match I with
  | array_backed => fun g =>
      g.(ListGenome.lst) = [] /\ g.(ListGenome.ID) = [] /\
      g.(ListGenome.active_lst) = []
  | linked_slots _ => fun g =>
      g.(LinkedListGenome.lst) = [] /\ g.(LinkedListGenome.index_next) = [] /\
      g.(LinkedListGenome.ID) = [] /\ g.(LinkedListGenome.active_lst) = []
  end.

(** ** Elements in one piece *)

(** The positions an active id owns lie next to each other: a position
    between two positions of the id is one of the id as well. *)
Definition block (a : list Z) (v : list (ascii * Z)) : Prop :=
  forall te i j k pi pj pk, te ∈ a -> (i <= j <= k)%nat ->
    v !! i = Some pi -> v !! j = Some pj -> v !! k = Some pk ->
    pi.2 = te -> pk.2 = te -> pj.2 = te.

(** * Properties *)

(** ** Python lists *)

Lemma norm_index_lt n i k : norm_index n i = Some k -> (k < n)%nat.
Proof.
  unfold norm_index; intros; repeat case_bool_decide; simplify_eq; lia.
Qed.

Lemma norm_index_nat n (k : nat) :
  (k < n)%nat -> norm_index n (Z.of_nat k) = Some k.
Proof.
  intros; unfold norm_index.
  rewrite bool_decide_eq_true_2 by lia. f_equal; lia.
Qed.

Lemma norm_index_out n (k : nat) :
  (n <= k)%nat -> norm_index n (Z.of_nat k) = None.
Proof.
  intros; unfold norm_index.
  rewrite !bool_decide_eq_false_2 by lia. done.
Qed.

Lemma py_get_nat {A} (l : list A) (k : nat) : py_get l (Z.of_nat k) = l !! k.
Proof.
  unfold py_get. destruct (decide (k < length l)%nat).
  - by rewrite norm_index_nat.
  - rewrite norm_index_out by lia. symmetry. apply lookup_ge_None. simpl. lia.
Qed.

Lemma py_get_Some {A} (l : list A) i x :
  py_get l i = Some x -> exists k, norm_index (length l) i = Some k /\ l !! k = Some x.
Proof.
  unfold py_get. destruct (norm_index (length l) i); naive_solver.
Qed.

Lemma py_set_length {A} (l l' : list A) i v :
  py_set l i v = Some l' -> length l' = length l.
Proof.
  unfold py_set. destruct (norm_index (length l) i); intros; simplify_eq/=.
  by rewrite length_insert.
Qed.

Lemma slice_take_drop {A} (l : list A) i : slice_to l i ++ slice_from l i = l.
Proof. apply take_drop. Qed.

Lemma slice_bound_index n i k : norm_index n i = Some k -> slice_bound n i = k.
Proof.
  unfold norm_index, slice_bound; intros.
  repeat case_bool_decide; simplify_eq; lia.
Qed.

Lemma list_remove_Some x l : x ∈ l -> is_Some (list_remove x l).
Proof.
  induction l as [|y l IH]; [by intros ?%elem_of_nil|].
  intros [->|?]%elem_of_cons; simpl; case_bool_decide; try done.
  destruct IH as [? ->]; done.
Qed.

Lemma list_remove_Some_inv x l l' : list_remove x l = Some l' -> x ∈ l.
Proof.
  revert l'; induction l as [|y l IH]; intros l'; simpl; [done|].
  case_bool_decide.
  - intros _. subst. apply elem_of_cons; auto.
  - destruct (list_remove x l); intros; simplify_eq/=.
    apply elem_of_cons; eauto.
Qed.

Lemma list_remove_None x l : list_remove x l = None -> x ∉ l.
Proof.
  intros E Hin. apply list_remove_Some in Hin as [? ?]. congruence.
Qed.

Lemma list_remove_elem x l l' y : list_remove x l = Some l' -> y ∈ l' -> y ∈ l.
Proof.
  revert l'; induction l as [|z l IH]; intros l'; simpl; [done|].
  case_bool_decide.
  - intros [= ->] ?. apply elem_of_cons; auto.
  - destruct (list_remove x l) eqn:E; intros Hl' Hy; simplify_eq/=.
    apply elem_of_cons in Hy as [->|Hy]; apply elem_of_cons; eauto.
Qed.

Lemma list_remove_other x l l' y :
  list_remove x l = Some l' -> y ∈ l -> y <> x -> y ∈ l'.
Proof.
  revert l'; induction l as [|z l IH]; intros l'; simpl; [done|].
  case_bool_decide.
  - intros [= ->] [->|?]%elem_of_cons ?; done.
  - destruct (list_remove x l) eqn:E; intros Hl' Hy ?; simplify_eq/=.
    apply elem_of_cons in Hy as [->|Hy]; apply elem_of_cons; eauto.
Qed.

Lemma list_remove_NoDup x l l' : list_remove x l = Some l' -> NoDup l -> NoDup l' /\ x ∉ l'.
Proof.
  revert l'; induction l as [|z l IH]; intros l'; simpl; [done|].
  rewrite NoDup_cons. case_bool_decide.
  - intros [= ->] [? ?]. by subst.
  - destruct (list_remove x l) eqn:E; intros ? [? ?]; simplify_eq/=.
    destruct (IH _ eq_refl) as [? ?]; [done|].
    rewrite NoDup_cons, not_elem_of_cons. split_and!; try done.
    intros ?. eauto using list_remove_elem.
Qed.

(** ** The marking loop of [disable_te] *)

Lemma relabel_length te ids l : length (relabel te ids l) = length l.
Proof. apply length_imap. Qed.

Lemma relabel_lookup te ids l i :
  relabel te ids l !! i =
  (fun c => if bool_decide (ids !! i = Some te) then disabled_sym else c) <$> l !! i.
Proof. apply list_lookup_imap. Qed.

Lemma for_cons {S} i r (body : nat -> M S unit) s :
  for_ (i :: r) body s =
  match body i s with
  | Return _ s' => for_ r body s'
  | Raise e s' => Raise e s'
  | Diverge => Diverge
  end.
Proof. reflexivity. Qed.

Lemma mark_slot_eval te ids k l o :
  ids !! k = Some o ->
  mark_slot te ids k l =
  if bool_decide (o = te) then
    if bool_decide (k < length l)%nat then Return tt (<[k := disabled_sym]> l)
    else Raise IndexError l
  else Return tt l.
Proof.
  intros Ho. unfold mark_slot, mbind, M_bind. rewrite Ho; simpl.
  case_bool_decide; [|done]. simpl. unfold py_set.
  case_bool_decide.
  - by rewrite norm_index_nat.
  - by rewrite norm_index_out by lia.
Qed.

(** The loop over the slots [k .. k+m-1]: whether it ends or raises, the
    slots of [te] among them that exist in [self.lst] have been marked. *)
Lemma for_mark_slot te ids m : forall k l,
  (k + m <= length ids)%nat ->
  exists l',
    (for_ (seq k m) (mark_slot te ids) l = Return tt l' \/
     for_ (seq k m) (mark_slot te ids) l = Raise IndexError l') /\
    ((length ids <= length l)%nat ->
     for_ (seq k m) (mark_slot te ids) l = Return tt l') /\
    length l' = length l /\
    forall i, l' !! i =
      (fun c => if bool_decide ((k <= i < k + m)%nat /\ ids !! i = Some te)
                then disabled_sym else c) <$> l !! i.
Proof.
  induction m as [|m IH]; intros k l Hk.
  - exists l; simpl. split_and!; auto.
    intros i. destruct (l !! i); simpl; [|done].
    rewrite bool_decide_eq_false_2; [done|lia].
  - destruct (lookup_lt_is_Some_2 ids k) as [o Ho]; [lia|].
    cbn [seq]. rewrite for_cons, (mark_slot_eval _ _ _ _ _ Ho).
    case_bool_decide as Hte; [case_bool_decide as Hlt|].
    + destruct (IH (S k) (<[k := disabled_sym]> l))
        as (l' & Hrun & Hok & Hlen & Hl'); [lia|].
      exists l'. rewrite length_insert in *. split_and!; auto.
      intros i. rewrite Hl'. destruct (decide (k = i)) as [<-|Hne].
      * rewrite list_lookup_insert_eq by done.
        destruct (lookup_lt_is_Some_2 l k) as [c ->]; [done|]. simpl.
        rewrite bool_decide_eq_false_2 by lia.
        rewrite bool_decide_eq_true_2; [done|]. split; [lia|]. by subst.
      * rewrite list_lookup_insert_ne by done.
        destruct (l !! i); simpl; [|done].
        erewrite bool_decide_ext; [done|]. intuition lia.
    + exists l. split_and!; auto; [lia|].
      intros i. destruct (l !! i) eqn:E; simpl; [|done].
      apply lookup_lt_Some in E.
      rewrite bool_decide_eq_false_2; [done|lia].
    + destruct (IH (S k) l) as (l' & Hrun & Hok & Hlen & Hl'); [lia|].
      exists l'. split_and!; auto.
      intros i. rewrite Hl'. destruct (l !! i); simpl; [|done].
      erewrite bool_decide_ext; [done|]. split; [intuition lia|].
      intros [? ?]. split; [|done].
      destruct (decide (i = k)); [|lia]. subst. congruence.
Qed.

(** [mark_owned] leaves [relabel te ids l] in [self.lst], and ends without
    an exception when [self.lst] is at least as long as [self.ID]. *)
Lemma mark_owned_cases te ids l :
  mark_owned te ids l = Return tt (relabel te ids l) \/
  mark_owned te ids l = Raise IndexError (relabel te ids l).
Proof.
  unfold mark_owned, range, len. rewrite Nat2Z.id.
  destruct (for_mark_slot te ids (length ids) 0%nat l) as (l' & Hrun & _ & Hlen & Hl'); [lia|].
  assert (l' = relabel te ids l) as <-; [|done].
  apply list_eq; intros i. rewrite Hl', relabel_lookup.
  destruct (l !! i); simpl; [|done]. erewrite bool_decide_ext; [done|].
  split; [tauto|]. intros E; split; [|done].
  apply lookup_lt_Some in E. lia.
Qed.

Lemma mark_owned_lockstep te ids l :
  (length ids <= length l)%nat ->
  mark_owned te ids l = Return tt (relabel te ids l).
Proof.
  intros Hle. destruct (mark_owned_cases te ids l) as [E|E]; [done|].
  unfold mark_owned, range, len in *. rewrite Nat2Z.id in *.
  destruct (for_mark_slot te ids (length ids) 0%nat l) as (l' & _ & Hok & _); [lia|].
  rewrite Hok in E by done. discriminate.
Qed.

(** ** ListGenome: what each method does to the object *)

Module ListFacts.
Import ListGenome ListSteps.

Lemma list_disable_te_eq te g :
  disable_te te g =
  match mark_owned te g.(ID) g.(lst) with
  | Return _ l =>
      match list_remove te g.(active_lst) with
      | Some a => Return tt (set_active_lst a (set_lst l g))
      | None => Raise ValueError (set_lst l g)
      end
  | Raise e l => Raise e (set_lst l g)
  | Diverge => Diverge
  end.
Proof.
  unfold disable_te, mbind, M_bind, get, zoom; simpl.
  destruct (mark_owned te (ID g) (lst g)); simpl; try done.
  destruct (list_remove te (active_lst g)); done.
Qed.

Lemma list_disable_te_cases te g :
  disable_te te g = Raise IndexError (marked te g) \/
  (list_remove te g.(active_lst) = None /\
   disable_te te g = Raise ValueError (marked te g)) \/
  (exists a, list_remove te g.(active_lst) = Some a /\
             disable_te te g = Return tt (set_active_lst a (marked te g))).
Proof.
  rewrite list_disable_te_eq.
  destruct (mark_owned_cases te g.(ID) g.(lst)) as [-> | ->]; [|by left].
  right. destruct (list_remove te (active_lst g)) eqn:E; eauto.
Qed.

Lemma list_disable_te_lockstep te g :
  length g.(ID) = length g.(lst) ->
  disable_te te g =
  match list_remove te g.(active_lst) with
  | Some a => Return tt (set_active_lst a (marked te g))
  | None => Raise ValueError (marked te g)
  end.
Proof.
  intros E. rewrite list_disable_te_eq, mark_owned_lockstep by lia. done.
Qed.

Lemma list_insert_te_eq pos length g :
  insert_te pos length g =
  if bool_decide (pos > len g.(lst) /\ len g.(lst) = 0)
  then Raise ZeroDivisionError g
  else
    match py_get g.(lst) (wrapped g pos) with
    | None => Raise IndexError (bump g)
    | Some c =>
        if bool_decide (c = active_sym) then
          match py_get g.(ID) (wrapped g pos) with
          | None => Raise IndexError (bump g)
          | Some o =>
              match disable_te o (bump g) with
              | Return _ g2 =>
                  Return g2.(count) (splice (wrapped g pos) length g2)
              | Raise e g2 => Raise e g2
              | Diverge => Diverge
              end
          end
        else Return (g.(count) + 1) (splice (wrapped g pos) length (bump g))
    end.
Proof.
  unfold insert_te, wrapped, mbind, M_bind, get; simpl.
  case_bool_decide as Hgt; simpl.
  - case_bool_decide as H0; simpl.
    + rewrite bool_decide_eq_true_2 by done. done.
    + rewrite bool_decide_eq_false_2 by tauto.
      destruct (py_get (lst g) _); simpl; [|done].
      case_bool_decide; simpl; [|done].
      destruct (py_get (ID g) _); simpl; [|done].
      fold (bump g). destruct (disable_te _ _); done.
  - rewrite bool_decide_eq_false_2 by tauto.
    destruct (py_get (lst g) _); simpl; [|done].
    case_bool_decide; simpl; [|done].
    destruct (py_get (ID g) _); simpl; [|done].
    fold (bump g). destruct (disable_te _ _); done.
Qed.

Lemma list_copy_te_eq te offset g :
  copy_te te offset g =
  match list_find (fun o => o = te) g.(ID) with
  | None => Raise UnboundLocalError g
  | Some (index_ID, _) =>
      match g.(lst) !! index_ID with
      | None => Raise IndexError g
      | Some c =>
          if bool_decide (c = disabled_sym) then Return None g
          else (Some <$> insert_te (Z.of_nat index_ID + offset)
                           (len (filter (fun o => o = te) g.(ID)))) g
      end
  end.
Proof.
  unfold copy_te, mbind, M_bind, get; simpl.
  destruct (list_find _ _) as [[i o]|]; simpl; [|done].
  rewrite py_get_nat. destruct (lst g !! i); simpl; [|done].
  case_bool_decide; done.
Qed.

End ListFacts.

(** ** LinkedListGenome: what each method does to the object *)

Module LinkedFacts.
Import LinkedListGenome LinkedSteps.

Lemma linked_disable_te_eq te g :
  disable_te te g =
  match mark_owned te g.(ID) g.(lst) with
  | Return _ l =>
      match list_remove te g.(active_lst) with
      | Some a => Return tt (set_active_lst a (set_lst l g))
      | None => Raise ValueError (set_lst l g)
      end
  | Raise e l => Raise e (set_lst l g)
  | Diverge => Diverge
  end.
Proof.
  unfold disable_te, mbind, M_bind, get, zoom; simpl.
  destruct (mark_owned te (ID g) (lst g)); simpl; try done.
  destruct (list_remove te (active_lst g)); done.
Qed.

Lemma linked_disable_te_cases te g :
  disable_te te g = Raise IndexError (marked te g) \/
  (list_remove te g.(active_lst) = None /\
   disable_te te g = Raise ValueError (marked te g)) \/
  (exists a, list_remove te g.(active_lst) = Some a /\
             disable_te te g = Return tt (set_active_lst a (marked te g))).
Proof.
  rewrite linked_disable_te_eq.
  destruct (mark_owned_cases te g.(ID) g.(lst)) as [-> | ->]; [|by left].
  right. destruct (list_remove te (active_lst g)) eqn:E; eauto.
Qed.

Lemma linked_disable_te_lockstep te g :
  length g.(ID) = length g.(lst) ->
  disable_te te g =
  match list_remove te g.(active_lst) with
  | Some a => Return tt (set_active_lst a (marked te g))
  | None => Raise ValueError (marked te g)
  end.
Proof.
  intros E. rewrite linked_disable_te_eq, mark_owned_lockstep by lia. done.
Qed.

Lemma linked_insert_te_eq pos length g :
  insert_te pos length g =
  match walk g.(index_next) (Z.to_nat (pos - 1)) 0 with
  | None => Raise IndexError (bump g)
  | Some i =>
      match py_get g.(lst) i with
      | None => Raise IndexError (bump g)
      | Some c =>
          if bool_decide (c = active_sym) then
            match py_get g.(ID) i with
            | None => Raise IndexError (bump g)
            | Some o =>
                match disable_te o (bump g) with
                | Return _ g2 => finish i length g2
                | Raise e g2 => Raise e g2
                | Diverge => Diverge
                end
            end
          else finish i length (bump g)
      end
  end.
Proof.
  unfold insert_te, finish, splice, mbind, M_bind, get, modify; simpl.
  fold (bump g).
  destruct (walk _ _ _) as [i|]; simpl; [|done].
  destruct (py_get (lst g) i); simpl; [|done].
  case_bool_decide; simpl.
  - destruct (py_get (ID g) i); simpl; [|done].
    destruct (disable_te _ _) as [[] g2| |]; try done.
    destruct (py_get (index_next g2) i); simpl; [|done].
    destruct (py_set (index_next g2) i _); done.
  - destruct (py_get (index_next g) i); simpl; [|done].
    destruct (py_set (index_next g) i _); done.
Qed.

(** The two [while] loops of [copy_te] read the object only. *)
Lemma linked_seek_cases fuel te : forall i n g,
  seek fuel te i n g = Diverge \/
  seek fuel te i n g = Raise IndexError g \/
  exists j m, seek fuel te i n g = Return (j, m) g /\ py_get g.(ID) j = Some te.
Proof.
  induction fuel as [|fuel IH]; intros i n g; simpl; [by left|].
  unfold mbind, M_bind, get; simpl.
  destruct (py_get (ID g) i) as [o|] eqn:Ho; simpl; [|by right; left].
  case_bool_decide as Hne; simpl.
  - destruct (py_get (index_next g) i) as [j|]; simpl; [|by right; left].
    apply IH.
  - right; right. exists i, n. split; [done|].
    destruct (decide (o = te)); [by subst|done].
Qed.

Lemma linked_span_cases fuel te : forall i n g,
  span fuel te i n g = Diverge \/
  span fuel te i n g = Raise IndexError g \/
  exists j m, span fuel te i n g = Return (j, m) g /\ n <= m /\
              (py_get g.(ID) i = Some te -> n < m).
Proof.
  induction fuel as [|fuel IH]; intros i n g; simpl; [by left|].
  unfold mbind, M_bind, get; simpl.
  destruct (py_get (ID g) i) as [o|] eqn:Ho; simpl; [|by right; left].
  case_bool_decide as He; simpl.
  - destruct (py_get (index_next g) i) as [j|]; simpl; [|by right; left].
    destruct (IH j (n + 1) g) as [E|[E|(j' & m & E & Hm & _)]]; rewrite E; auto.
    right; right. exists j', m. split_and!; [done|lia|lia].
  - right; right. exists i, n. split_and!; [done|lia|congruence].
Qed.

Lemma linked_copy_te_eq fuel te offset g :
  copy_te fuel te offset g =
  if bool_decide (te ∉ g.(active_lst)) then Return None g
  else
    match seek fuel te 0 0 g with
    | Return (i, te_pos) g1 =>
        match span fuel te i 0 g1 with
        | Return (_, n) g2 =>
            (Some <$> insert_te (len g.(index_next) + (te_pos + offset)) n) g2
        | Raise e g2 => Raise e g2
        | Diverge => Diverge
        end
    | Raise e g1 => Raise e g1
    | Diverge => Diverge
    end.
Proof.
  unfold copy_te, mbind, M_bind, get; simpl.
  case_bool_decide; [done|].
  destruct (seek _ _ _ _ _) as [[i p] g1| |]; try done.
  destruct (span _ _ _ _ _) as [[j n] g2| |]; done.
Qed.

(** [copy_te] of an id that is in [self.active_lst] ends in a call of
    [insert_te] with a length of at least one, unless a loop raises or
    does not end. *)
Lemma linked_copy_te_cases fuel te offset g :
  ((te ∉ g.(active_lst)) /\ copy_te fuel te offset g = Return None g) \/
  ((te ∈ g.(active_lst)) /\
   (copy_te fuel te offset g = Diverge \/
    copy_te fuel te offset g = Raise IndexError g \/
    exists te_pos n, 1 <= n /\
      copy_te fuel te offset g =
      (Some <$> insert_te (len g.(index_next) + (te_pos + offset)) n) g)).
Proof.
  rewrite linked_copy_te_eq.
  case_bool_decide as Hin; simpl; [by left|].
  right. split; [destruct (decide (te ∈ active_lst g)); tauto|].
  destruct (linked_seek_cases fuel te 0 0 g) as [E|[E|(i & p & E & Hi)]]; rewrite E; auto.
  destruct (linked_span_cases fuel te i 0 g) as [E'|[E'|(j & n & E' & _ & Hn)]];
    rewrite E'; auto.
  right; right. exists p, n. split; [|done]. specialize (Hn Hi). lia.
Qed.

(** The LinkedListGenome does what C4 asks for: [copy_te] of an id that is
    not in [self.active_lst] returns [None] and leaves the object alone. *)
Lemma linked_copy_te_inactive fuel te offset g :
  te ∉ g.(active_lst) -> copy_te fuel te offset g = Return None g.
Proof.
  intros Hout. destruct (linked_copy_te_cases fuel te offset g) as [[_ E]|[Hin _]];
    [done|by destruct Hout].
Qed.

(** A loop that has ended within [fuel] turns ends the same way with more. *)
Lemma linked_seek_more_fuel fuel te : forall fuel' i n g r g',
  (fuel <= fuel')%nat -> seek fuel te i n g = Return r g' ->
  seek fuel' te i n g = Return r g'.
Proof.
  induction fuel as [|fuel IH]; intros fuel' i n g r g' Hle; simpl; [done|].
  destruct fuel' as [|fuel']; [lia|]. simpl.
  unfold mbind, M_bind, get; simpl.
  destruct (py_get (ID g) i) as [o|]; simpl; [|done].
  case_bool_decide; [|done]. simpl.
  destruct (py_get (index_next g) i) as [j|]; simpl; [|done].
  apply IH. lia.
Qed.

Lemma linked_span_more_fuel fuel te : forall fuel' i n g r g',
  (fuel <= fuel')%nat -> span fuel te i n g = Return r g' ->
  span fuel' te i n g = Return r g'.
Proof.
  induction fuel as [|fuel IH]; intros fuel' i n g r g' Hle; simpl; [done|].
  destruct fuel' as [|fuel']; [lia|]. simpl.
  unfold mbind, M_bind, get; simpl.
  destruct (py_get (ID g) i) as [o|]; simpl; [|done].
  case_bool_decide; [|done]. simpl.
  destruct (py_get (index_next g) i) as [j|]; simpl; [|done].
  apply IH. lia.
Qed.

End LinkedFacts.

(** ** Runs *)

Lemma state_after_fmap {S A B} (f : A -> B) (m : M S A) s :
  state_after ((f <$> m) s) = state_after (m s).
Proof. unfold fmap, M_fmap. by destruct (m s). Qed.

Lemma state_after_seq {S A} (m : M S A) s :
  state_after ((m ;; mret tt) s) = state_after (m s).
Proof. unfold mbind, M_bind. by destruct (m s). Qed.

Section Runs.
Context {G : Type} `{Genome G}.

(** A property that every terminating call keeps holds all along a run. *)
Lemma run_invariant (Inv : G -> Prop) (ok : op -> Prop) :
  (forall o g g', ok o -> Inv g -> state_after (step o g) = Some g' -> Inv g') ->
  forall ops g, Forall ok ops -> Inv g -> Forall Inv (run g ops).
Proof.
  intros Hstep ops. induction ops as [|o ops IH]; intros g Hok Hg; simpl.
  - by apply Forall_singleton.
  - apply Forall_cons in Hok as [Ho Hok]. apply Forall_cons. split; [done|].
    destruct (state_after (step o g)) as [g'|] eqn:E; [|constructor].
    eauto.
Qed.

(** A preorder every terminating call respects relates each state of a
    run to the later ones. *)
Lemma run_later (R : G -> G -> Prop) `{!PreOrder R} :
  (forall o g g', state_after (step o g) = Some g' -> R g g') ->
  forall ops g i j gi gj,
    (i <= j)%nat -> run g ops !! i = Some gi -> run g ops !! j = Some gj ->
    R gi gj.
Proof.
  intros Hstep ops. induction ops as [|o ops IH]; intros g i j gi gj Hij Hi Hj.
  - destruct i as [|i], j as [|j]; simpl in *; try done. by simplify_eq.
  - simpl in *. destruct i as [|i], j as [|j]; simpl in *; try lia.
    + by simplify_eq.
    + injection Hi as ->.
      destruct (state_after (step o gi)) as [g'|] eqn:E; [|done].
      transitivity g'; [eauto|].
      eapply (IH g' 0%nat j); [lia| |done]. by destruct ops.
    + destruct (state_after (step o g)) as [g'|] eqn:E; [|done].
      eapply (IH g' i j); [lia|done..].
Qed.
End Runs.

(** ** The ids handed out *)

Lemma ledger_step_later a c a' c' : ledger_step a c a' c' -> ledger_later a c a' c'.
Proof.
  intros [Hc Ha]. split; [lia|].
  intros te Hte. destruct (Ha te Hte) as [?|[-> ?]]; [by left|right; lia].
Qed.

Lemma ledger_later_refl a c : ledger_later a c a c.
Proof. split; [lia|auto]. Qed.

Lemma ledger_later_trans a1 c1 a2 c2 a3 c3 :
  ledger_later a1 c1 a2 c2 -> ledger_later a2 c2 a3 c3 -> ledger_later a1 c1 a3 c3.
Proof.
  intros [Hc1 H1] [Hc2 H2]. split; [lia|].
  intros te Hte. destruct (H2 te Hte) as [Hin|?]; [|right; lia].
  destruct (H1 te Hin) as [?|?]; [by left|right; lia].
Qed.

Lemma ledger_removed te a a' c :
  list_remove te a = Some a' -> ledger_step a c a' c.
Proof.
  intros E. split; [by left|]. intros x Hx. left. eauto using list_remove_elem.
Qed.

Lemma ledger_appended a a0 c :
  (forall te, te ∈ a -> te ∈ a0) -> ledger_step a0 c (a ++ [c + 1]) (c + 1).
Proof.
  intros Hsub. split; [by right|].
  intros x [Hx|Hx%list_elem_of_singleton]%elem_of_app; [left; auto|right; done].
Qed.

Module ListLedger.
Import ListGenome ListSteps ListFacts.

Lemma list_same g g' :
  g'.(active_lst) = g.(active_lst) -> g'.(count) = g.(count) -> step_ok g g'.
Proof. unfold step_ok. intros -> ->. split; [by left|auto]. Qed.

Lemma list_disable_te_ok te g g' :
  state_after (disable_te te g) = Some g' -> step_ok g g'.
Proof.
  destruct (list_disable_te_cases te g) as [E|[[_ E]|(a & Ha & E)]];
    rewrite E; intros [= <-]; try (by apply list_same).
  by eapply ledger_removed.
Qed.

Lemma list_insert_te_ok pos length g g' :
  state_after (insert_te pos length g) = Some g' -> step_ok g g'.
Proof.
  assert (step_ok g (bump g)) as Hbump by (split; [by right|auto]).
  assert (step_ok g (splice (wrapped g pos) length (bump g))) as Hsplice
    by (by apply ledger_appended).
  rewrite list_insert_te_eq.
  case_bool_decide; [intros [= <-]; by apply list_same|].
  destruct (py_get (lst g) _) as [c|]; [|by intros [= <-]].
  case_bool_decide; [|by intros [= <-]].
  destruct (py_get (ID g) _) as [o|]; [|by intros [= <-]].
  destruct (list_disable_te_cases o (bump g)) as [E|[[_ E]|(a & Ha & E)]];
    rewrite E; intros [= <-]; try done.
  apply ledger_appended. intros te. simpl. eauto using list_remove_elem.
Qed.

Lemma list_copy_te_ok te offset g g' :
  state_after (copy_te te offset g) = Some g' -> step_ok g g'.
Proof.
  rewrite list_copy_te_eq.
  destruct (list_find _ _) as [[i o]|]; [|intros [= <-]; by apply list_same].
  destruct (lst g !! i) as [c|]; [|intros [= <-]; by apply list_same].
  case_bool_decide; [intros [= <-]; by apply list_same|].
  rewrite state_after_fmap. apply list_insert_te_ok.
Qed.
End ListLedger.

Module LinkedLedger.
Import LinkedListGenome LinkedSteps LinkedFacts.

Lemma linked_same g g' :
  g'.(active_lst) = g.(active_lst) -> g'.(count) = g.(count) -> step_ok g g'.
Proof. unfold step_ok. intros -> ->. split; [by left|auto]. Qed.

Lemma linked_disable_te_ok te g g' :
  state_after (disable_te te g) = Some g' -> step_ok g g'.
Proof.
  destruct (linked_disable_te_cases te g) as [E|[[_ E]|(a & Ha & E)]];
    rewrite E; intros [= <-]; try (by apply linked_same).
  by eapply ledger_removed.
Qed.

Lemma linked_finish_ok i length g0 g g' :
  g.(count) = g0.(count) + 1 ->
  (forall te, te ∈ g.(active_lst) -> te ∈ g0.(active_lst)) ->
  state_after (finish i length g) = Some g' -> step_ok g0 g'.
Proof.
  intros Hc Ha. unfold finish, splice.
  destruct (py_get _ _); simpl; [destruct (py_set _ _ _); simpl|];
    intros [= <-]; unfold step_ok; simpl; rewrite ?Hc.
  - by apply ledger_appended.
  - split; [by right|auto].
  - split; [by right|auto].
Qed.

Lemma linked_insert_te_ok pos length g g' :
  state_after (insert_te pos length g) = Some g' -> step_ok g g'.
Proof.
  assert (step_ok g (bump g)) as Hbump by (split; [by right|auto]).
  rewrite linked_insert_te_eq.
  destruct (walk _ _ _) as [i|]; [|by intros [= <-]].
  destruct (py_get (lst g) i) as [c|]; [|by intros [= <-]].
  case_bool_decide; [|by apply linked_finish_ok].
  destruct (py_get (ID g) i) as [o|]; [|by intros [= <-]].
  destruct (linked_disable_te_cases o (bump g)) as [E|[[_ E]|(a & Ha & E)]];
    rewrite E; try (by intros [= <-]).
  apply linked_finish_ok; [done|]. simpl. eauto using list_remove_elem.
Qed.

Lemma linked_copy_te_ok fuel te offset g g' :
  state_after (copy_te fuel te offset g) = Some g' -> step_ok g g'.
Proof.
  destruct (linked_copy_te_cases fuel te offset g)
    as [[_ E]|[_ [E|[E|(p & n & _ & E)]]]]; rewrite E;
    try (intros [= <-]; by apply linked_same); try done.
  rewrite state_after_fmap. apply linked_insert_te_ok.
Qed.
End LinkedLedger.

(** Every call of either class changes the ids as [ledger_step] says. *)
Lemma step_ledger (I : impl) (o : op) (g g' : state I) :
  state_after (step o g) = Some g' ->
  ledger_step (active_tes g) (counter g) (active_tes g') (counter g').
Proof.
  destruct I as [|fuel], o as [pos length|te offset|te]; simpl;
    rewrite ?state_after_seq.
  - apply ListLedger.list_insert_te_ok.
  - apply ListLedger.list_copy_te_ok.
  - apply ListLedger.list_disable_te_ok.
  - apply LinkedLedger.linked_insert_te_ok.
  - apply LinkedLedger.linked_copy_te_ok.
  - apply LinkedLedger.linked_disable_te_ok.
Qed.

#[global] Instance later_preorder (I : impl) : PreOrder (@later I).
Proof.
  split.
  - intros g. apply ledger_later_refl.
  - intros g1 g2 g3. apply ledger_later_trans.
Qed.

Lemma issued_new (I : impl) (n : Z) : issued (new (G := state I) n).
Proof. destruct I; intros te Hte; simpl in Hte; by apply elem_of_nil in Hte. Qed.

Lemma issued_step (I : impl) (o : op) (g g' : state I) :
  issued g -> state_after (step o g) = Some g' -> issued g'.
Proof.
  intros Hg [Hc Ha]%step_ledger te Hte.
  destruct (Ha te Hte) as [Hin|[-> ->]]; [|lia].
  specialize (Hg te Hin). lia.
Qed.

Lemma issued_run (I : impl) (n : Z) (ops : list op) (i : nat) (g : state I) :
  run (new n) ops !! i = Some g -> issued g.
Proof.
  intros Hi.
  pose proof (run_invariant issued (fun _ => True)
                (fun o g g' _ => issued_step I o g g') ops (new n)) as Hall.
  eapply Forall_lookup_1; [|done].
  apply Hall; [by apply Forall_true|apply issued_new].
Qed.

Lemma later_run (I : impl) (g : state I) (ops : list op) (i j : nat) gi gj :
  (i <= j)%nat -> run g ops !! i = Some gi -> run g ops !! j = Some gj ->
  later gi gj.
Proof.
  apply (run_later later).
  intros o g1 g2 Hs. by apply ledger_step_later, step_ledger with o.
Qed.

(** C8. Along any sequence of calls on a genome of either class, an id that
    was in [active_tes()] and has left it is in it at no later point. *)
Theorem no_reactivation (I : impl) (n : Z) (ops : list op) (i j k : nat)
    (gi gj gk : state I) (te : Z) :
  run (new n) ops !! i = Some gi ->
  run (new n) ops !! j = Some gj ->
  run (new n) ops !! k = Some gk ->
  (i < j)%nat -> (j < k)%nat ->
  te ∈ active_tes gi -> te ∉ active_tes gj -> te ∉ active_tes gk.
Proof.
  intros Hi Hj Hk Hij Hjk Hin Hout Hback.
  pose proof (issued_run I n ops i gi Hi te Hin) as Hle.
  destruct (later_run I (new n) ops i j gi gj) as [Hc _]; [lia|done..|].
  destruct (later_run I (new n) ops j k gj gk) as [_ Ha]; [lia|done..|].
  destruct (Ha te Hback) as [?|?]; [done|lia].
Qed.

Lemma no_reactivation_witness :
  1 ∉ active_tes (G := state array_backed)
        (ListGenome.mk ["A"; "x"; "-"; "-"]%char [2; 1; 0; 0] [2] 2).
Proof.
  apply (no_reactivation array_backed 2
           [InsertTe 0 1; DisableTe 1; InsertTe 0 1] 1 2 3
           (ListGenome.mk ["A"; "-"; "-"]%char [1; 0; 0] [1] 1)
           (ListGenome.mk ["x"; "-"; "-"]%char [1; 0; 0] [] 1)
           (ListGenome.mk ["A"; "x"; "-"; "-"]%char [2; 1; 0; 0] [2] 2) 1);
    try reflexivity; try lia.
  - simpl. apply list_elem_of_singleton. reflexivity.
  - simpl. apply not_elem_of_nil.
Defined.

(** ** The ring of slots *)

Lemma py_get_in_range {A} (l : list A) x :
  0 <= x < len l -> py_get l x = l !! Z.to_nat x.
Proof.
  intros Hx. rewrite <- (Z2Nat.id x) at 1 by lia. apply py_get_nat.
Qed.

Lemma path_app nx l1 : forall a l2 b,
  path nx a (l1 ++ l2) b <-> exists m, path nx a l1 m /\ path nx m l2 b.
Proof.
  induction l1 as [|x l1 IH]; intros a l2 b; simpl.
  - split; [eauto|]. by intros (m & -> & ?).
  - split.
    + intros (-> & y & Hy & Hp). apply IH in Hp as (m & ? & ?). eauto 8.
    + intros (m & (-> & y & Hy & Hp) & Hm). split; [done|].
      exists y. split; [done|]. apply IH. eauto.
Qed.

Lemma path_ext nx nx' l : forall a b,
  (forall x, x ∈ l -> py_get nx' x = py_get nx x) ->
  path nx a l b -> path nx' a l b.
Proof.
  induction l as [|x l IH]; intros a b Hext; simpl; [done|].
  intros (-> & y & Hy & Hp). split; [done|]. exists y. split.
  - rewrite Hext; [done|]. apply elem_of_cons; auto.
  - apply IH; [|done]. intros z Hz. apply Hext, elem_of_cons; auto.
Qed.

Lemma path_run nx l : forall a b,
  path nx a l b ->
  orbit nx (length l) a = Some l /\ LinkedListGenome.walk nx (length l) a = Some b.
Proof.
  induction l as [|x l IH]; intros a b; simpl.
  - by intros ->.
  - intros (-> & y & Hy & Hp). rewrite Hy; simpl.
    destruct (IH _ _ Hp) as [-> ->]. done.
Qed.

Lemma path_next nx l : forall a b x y,
  path nx a l b -> x ∈ l -> py_get nx x = Some y -> y ∈ l \/ y = b.
Proof.
  induction l as [|z l IH]; intros a b x y; simpl.
  - by intros _ ?%elem_of_nil.
  - intros (-> & y' & Hy' & Hp) [->|Hx]%elem_of_cons Hy.
    + simplify_eq. destruct l as [|z l]; simpl in Hp.
      * by right.
      * destruct Hp as [-> _]. left. apply elem_of_cons; right.
        apply elem_of_cons; auto.
    + destruct (IH _ _ _ _ Hp Hx Hy) as [?|?]; [left|by right].
      apply elem_of_cons; auto.
Qed.

Lemma walk_stays nx slots :
  path nx 0 slots 0 -> 0 ∈ slots ->
  forall k a i, a ∈ slots -> LinkedListGenome.walk nx k a = Some i -> i ∈ slots.
Proof.
  intros Hp H0 k. induction k as [|k IH]; intros a i Ha; simpl.
  - by intros [= <-].
  - destruct (py_get nx a) as [j|] eqn:Hj; simpl; [|done].
    apply IH. destruct (path_next _ _ _ _ _ _ Hp Ha Hj) as [?| ->]; done.
Qed.

(** A run of consecutive slots, each linked to the one after it and the last
    one to [b]. *)
Lemma path_consecutive nx (m : nat) : forall a b,
  (forall j, 0 <= j < Z.of_nat m - 1 -> py_get nx (a + j) = Some (a + j + 1)) ->
  py_get nx (a + Z.of_nat m - 1) = Some b ->
  (1 <= m)%nat ->
  path nx a (seqZ a (Z.of_nat m)) b.
Proof.
  induction m as [|m IH]; intros a b Hlink Hlast Hm; [lia|].
  rewrite seqZ_cons by lia. simpl. split; [done|].
  destruct m as [|m].
  - exists b. split; [|by rewrite seqZ_nil by lia].
    rewrite <- Hlast. f_equal. lia.
  - exists (a + 1). split.
    + assert (py_get nx (a + 0) = Some (a + 0 + 1)) as E by (apply Hlink; lia).
      by rewrite Z.add_0_r in E.
    + replace (Z.pred (Z.of_nat (S (S m)))) with (Z.of_nat (S m)) by lia.
      replace (Z.succ a) with (a + 1) by lia.
      apply IH; [| |lia].
      * intros j Hj. replace (a + 1 + j) with (a + (j + 1)) by lia.
        rewrite Hlink by lia. f_equal.
      * rewrite <- Hlast. f_equal. lia.
Qed.

Lemma append_links_seqZ k : forall nx,
  LinkedListGenome.append_links k nx = nx ++ seqZ (len nx + 1) (Z.of_nat k).
Proof.
  induction k as [|k IH]; intros nx; simpl.
  - by rewrite seqZ_nil, app_nil_r by lia.
  - rewrite IH. unfold len. rewrite length_app; simpl.
    rewrite <- app_assoc. f_equal. simpl.
    rewrite (seqZ_cons _ (Z.of_nat (S k))) by lia. f_equal. f_equal; lia.
Qed.

(** [__init__] builds a ring. *)
Lemma ring_init n :
  ring (map (fun i : nat => (Z.of_nat i + 1) mod n) (range n)).
Proof.
  unfold range. destruct (Z.to_nat n) as [|m] eqn:Hm.
  - exists []. simpl. split_and!; [done|constructor|done|].
    intros x. unfold len; simpl. split; [by intros ?%elem_of_nil|lia].
  - assert (n = Z.of_nat (S m)) as Hn by lia.
    set (nx := map _ _).
    assert (length nx = S m) as Hlen by (unfold nx; by rewrite length_map, length_seq).
    assert (forall j, 0 <= j < n -> py_get nx j = Some ((j + 1) mod n)) as Hget.
    { intros j Hj. rewrite py_get_in_range by (unfold len; lia).
      unfold nx. rewrite list_lookup_fmap, lookup_seq_lt by lia. simpl.
      do 2 f_equal. lia. }
    exists (seqZ 0 n). split_and!.
    + rewrite Hn. apply path_consecutive; [| |lia].
      * intros j Hj. rewrite Hget by lia. f_equal.
        rewrite Z.mod_small; lia.
      * rewrite Hget by lia. f_equal.
        replace (0 + Z.of_nat (S m) - 1 + 1) with n by lia.
        apply Z.mod_same. lia.
    + apply NoDup_seqZ.
    + rewrite length_seqZ. lia.
    + intros x. rewrite elem_of_seqZ. unfold len. lia.
Qed.

(** Linking [m] new slots in after slot [i] of a ring leaves a ring. *)
Lemma ring_splice nx (i old : Z) (m : nat) :
  ring nx -> 0 <= i < len nx -> py_get nx i = Some old -> (1 <= m)%nat ->
  ring (LinkedListGenome.append_links (m - 1) (<[Z.to_nat i := len nx]> nx) ++ [old]).
Proof.
  intros (slots & Hp & Hnd & Hlen & Hin) Hi Hold Hm.
  set (N := len nx) in *.
  rewrite append_links_seqZ. unfold len at 1. rewrite length_insert. fold (len nx) N.
  set (nx' := (_ ++ _) ++ _).
  assert (length nx' = (length nx + m)%nat) as Hlen'.
  { unfold nx'. rewrite !length_app, length_insert, length_seqZ. simpl. lia. }
  assert (forall x, 0 <= x < N + Z.of_nat m -> 0 <= x < len nx') as Hrange.
  { intros x Hx. unfold len. rewrite Hlen'. unfold N, len in Hx. lia. }
  assert (forall x, 0 <= x < N -> 0 <= x < len nx) as HrangeN by done.
  assert (forall x, 0 <= x < N -> (Z.to_nat x < length nx)%nat) as Hnat.
  { intros x Hx. unfold N, len in Hx. lia. }
  assert (forall x, 0 <= x < N -> x <> i -> py_get nx' x = py_get nx x) as Hsame.
  { intros x Hx Hne.
    rewrite (py_get_in_range nx') by (apply Hrange; lia).
    rewrite (py_get_in_range nx) by auto.
    unfold nx'. rewrite <- app_assoc.
    rewrite lookup_app_l by (rewrite length_insert; auto).
    apply list_lookup_insert_ne. lia. }
  assert (py_get nx' i = Some N) as Hi'.
  { rewrite (py_get_in_range nx') by (apply Hrange; lia).
    unfold nx'. rewrite <- app_assoc.
    rewrite lookup_app_l by (rewrite length_insert; auto).
    apply list_lookup_insert_eq. auto. }
  assert (forall j, 0 <= j < Z.of_nat m - 1 -> py_get nx' (N + j) = Some (N + j + 1)) as Hnew.
  { intros j Hj. rewrite (py_get_in_range nx') by (apply Hrange; lia).
    unfold nx'. rewrite <- app_assoc.
    rewrite lookup_app_r by (rewrite length_insert; unfold N, len; lia).
    rewrite length_insert.
    rewrite lookup_app_l by (rewrite length_seqZ; unfold N, len; lia).
    rewrite lookup_seqZ_lt by (unfold N, len; lia).
    f_equal. unfold N, len. lia. }
  assert (py_get nx' (N + Z.of_nat m - 1) = Some old) as Hlast.
  { rewrite (py_get_in_range nx') by (apply Hrange; lia).
    unfold nx'. rewrite lookup_app_r
      by (rewrite length_app, length_insert, length_seqZ; unfold N, len; lia).
    rewrite length_app, length_insert, length_seqZ.
    replace (_ - _)%nat with 0%nat by (unfold N, len; lia). done. }
  assert (i ∈ slots) as Hsl by (by apply Hin).
  apply list_elem_of_split in Hsl as (l1 & l2 & ->).
  apply path_app in Hp as (a & Hp1 & Hp2). simpl in Hp2.
  destruct Hp2 as (-> & y & Hy & Hp2). rewrite Hold in Hy. injection Hy as <-.
  apply NoDup_app in Hnd as (Hnd1 & Hdisj & Hnd2).
  apply NoDup_cons in Hnd2 as [Hi2 Hnd2].
  exists (l1 ++ [a] ++ seqZ N (Z.of_nat m) ++ l2). split_and!.
  - apply path_app. exists a. split.
    { apply (path_ext nx); [|done]. intros x Hx. apply Hsame.
      - apply Hin, elem_of_app; auto.
      - intros ->. apply (Hdisj a Hx), elem_of_cons; auto. }
    apply path_app. exists N. split; [simpl; eauto|].
    apply path_app. exists old. split; [by apply path_consecutive|].
    apply (path_ext nx); [|done]. intros x Hx. apply Hsame.
    + apply Hin, elem_of_app. right. apply elem_of_cons; auto.
    + by intros ->.
  - apply NoDup_app. split_and!; [done| |].
    + intros x Hx [->|[Hx'|Hx']%elem_of_app]%elem_of_cons.
      * apply (Hdisj a Hx), elem_of_cons; auto.
      * apply elem_of_seqZ in Hx'.
        assert (0 <= x < N) by (apply Hin, elem_of_app; auto). lia.
      * apply (Hdisj x Hx), elem_of_cons; auto.
    + apply NoDup_cons. split.
      * intros [Hx'|Hx']%elem_of_app; [|done].
        apply elem_of_seqZ in Hx'. lia.
      * apply NoDup_app. split_and!; [apply NoDup_seqZ| |done].
        intros x Hx' Hx. apply elem_of_seqZ in Hx'.
        assert (0 <= x < N)
          by (apply Hin, elem_of_app; right; apply elem_of_cons; auto).
        lia.
  - rewrite Hlen'. rewrite length_app in Hlen. simpl in Hlen.
    rewrite !length_app, length_seqZ. simpl. lia.
  - intros x. unfold len. rewrite Hlen'.
    specialize (Hin x). rewrite !elem_of_app, !elem_of_cons in Hin.
    rewrite !elem_of_app, elem_of_cons, elem_of_seqZ, elem_of_nil.
    unfold N, len in *. split.
    + intros [?|[[->|[]]|[?|?]]]; try lia; intuition lia.
    + intros Hx. destruct (decide (x < Z.of_nat (length nx))); [|right; right; left; lia].
      destruct Hin as [_ [?|[?|?]]]; auto; lia.
Qed.

(** ** The lists stay in step *)

Lemma linked_lockstep_observed fuel (g : state (linked_slots fuel)) :
  linked_lockstep g -> lockstep g.
Proof.
  intros (Hid & Hnx & slots & Hp & Hnd & Hlen & Hin). simpl.
  split_and!; [done..|]. exists slots.
  apply path_run in Hp as [Ho Hw]. rewrite Hlen, Hnx in Ho, Hw.
  split_and!; [done..| |done].
  apply Forall_forall. intros x Hx%Hin. unfold len in Hx. lia.
Qed.

Lemma list_lockstep_step (o : op) (g g' : ListGenome.t) :
  list_lockstep g -> state_after (step o g) = Some g' -> list_lockstep g'.
Proof.
  unfold list_lockstep. intros Hg.
  assert (forall te g0 g1, list_lockstep g0 ->
            state_after (ListGenome.disable_te te g0) = Some g1 ->
            list_lockstep g1) as Hdis.
  { unfold list_lockstep. intros te g0 g1 H0.
    destruct (ListFacts.list_disable_te_cases te g0) as [E|[[_ E]|(a & _ & E)]];
      rewrite E; intros [= <-]; simpl; by rewrite relabel_length. }
  assert (forall pos length g0 g1, list_lockstep g0 ->
            state_after (ListGenome.insert_te pos length g0) = Some g1 ->
            list_lockstep g1) as Hins.
  { unfold list_lockstep. intros pos length g0 g1 H0.
    assert (forall p g2, List.length (ListGenome.lst g2) = List.length (ListGenome.ID g2) ->
              list_lockstep (ListSteps.splice p length g2)) as Hsp.
    { intros p g2 H2. unfold list_lockstep, ListSteps.splice; simpl.
      unfold slice_to, slice_from. rewrite H2.
      rewrite !length_app, !length_replicate, !length_take, !length_drop. lia. }
    rewrite ListFacts.list_insert_te_eq.
    case_bool_decide; [by intros [= <-]|].
    destruct (py_get _ _) as [c|]; [|by intros [= <-]].
    case_bool_decide; [|intros [= <-]; by apply Hsp].
    destruct (py_get _ _) as [o'|]; [|by intros [= <-]].
    destruct (ListGenome.disable_te o' _) as [[] g2|e g2|] eqn:E; [| |done].
    - intros [= <-]. apply Hsp. apply (Hdis o' (ListSteps.bump g0)); [done|].
      by rewrite E.
    - intros [= <-]. apply (Hdis o' (ListSteps.bump g0)); [done|]. by rewrite E. }
  destruct o as [pos length|te offset|te]; simpl; rewrite ?state_after_seq.
  - by apply Hins.
  - rewrite ListFacts.list_copy_te_eq.
    destruct (list_find _ _) as [[i o]|]; [|by intros [= <-]].
    destruct (_ !! i) as [c|]; [|by intros [= <-]].
    case_bool_decide; [by intros [= <-]|].
    rewrite state_after_fmap. by apply Hins.
  - by apply Hdis.
Qed.

Lemma linked_finish_lockstep (i length : Z) (g g' : LinkedListGenome.t) :
  linked_lockstep g -> 0 <= i < len g.(LinkedListGenome.index_next) -> 1 <= length ->
  state_after (LinkedSteps.finish i length g) = Some g' -> linked_lockstep g'.
Proof.
  intros (Hid & Hnx & Hring) Hi HL. unfold LinkedSteps.finish, LinkedSteps.splice.
  destruct (py_get _ i) as [old|] eqn:Hold; simpl; [|by intros [= <-]].
  unfold py_set. unfold norm_index.
  rewrite bool_decide_eq_true_2 by (unfold len in Hi; lia). simpl.
  intros [= <-]. unfold linked_lockstep; simpl.
  replace (len (LinkedListGenome.lst g)) with (len (LinkedListGenome.index_next g))
    by (unfold len; by rewrite Hnx).
  replace (Z.to_nat (length - 1)) with (Z.to_nat length - 1)%nat by lia.
  split_and!.
  - rewrite !length_app, !length_replicate. lia.
  - rewrite append_links_seqZ, !length_app, length_insert, length_seqZ, length_replicate.
    simpl. lia.
  - apply ring_splice; [done..|lia].
Qed.

Lemma linked_disable_lockstep te (g g' : LinkedListGenome.t) :
  linked_lockstep g ->
  state_after (LinkedListGenome.disable_te te g) = Some g' ->
  linked_lockstep g' /\
  g'.(LinkedListGenome.index_next) = g.(LinkedListGenome.index_next).
Proof.
  intros (Hid & Hnx & Hring).
  destruct (LinkedFacts.linked_disable_te_cases te g) as [E|[[_ E]|(a & _ & E)]];
    rewrite E; intros [= <-]; unfold linked_lockstep; simpl;
    by rewrite relabel_length.
Qed.

Lemma linked_insert_lockstep pos length (g g' : LinkedListGenome.t) :
  linked_lockstep g -> 1 <= length ->
  state_after (LinkedListGenome.insert_te pos length g) = Some g' ->
  linked_lockstep g'.
Proof.
  intros Hg HL. rewrite LinkedFacts.linked_insert_te_eq.
  assert (linked_lockstep (LinkedSteps.bump g)) as Hb by done.
  destruct (LinkedListGenome.walk _ _ _) as [i|] eqn:Hw; [|by intros [= <-]].
  destruct (py_get (LinkedListGenome.lst g) i) as [c|] eqn:Hc; [|by intros [= <-]].
  assert (0 <= i < len g.(LinkedListGenome.index_next)) as Hi.
  { destruct Hg as (Hid & Hnx & slots & Hp & Hnd & Hlen & Hin).
    apply py_get_Some in Hc as (k & Hk%norm_index_lt & _).
    assert (0 ∈ slots) as H0 by (apply Hin; unfold len; lia).
    apply Hin. by eapply (walk_stays _ _ Hp H0). }
  case_bool_decide; [|by apply linked_finish_lockstep].
  destruct (py_get (LinkedListGenome.ID g) i) as [o|]; [|by intros [= <-]].
  destruct (LinkedListGenome.disable_te o _) as [[] g2|e g2|] eqn:E; [| |done].
  - destruct (linked_disable_lockstep o (LinkedSteps.bump g) g2) as [H2 Hnx2];
      [done|by rewrite E|].
    apply linked_finish_lockstep; [done| |done]. by rewrite Hnx2.
  - intros [= <-].
    by destruct (linked_disable_lockstep o (LinkedSteps.bump g) g2) as [H2 _];
      [|rewrite E|].
Qed.

Lemma linked_lockstep_step fuel (o : op) (g g' : state (linked_slots fuel)) :
  positive_length o -> linked_lockstep g ->
  state_after (step o g) = Some g' -> linked_lockstep g'.
Proof.
  intros Ho Hg.
  destruct o as [pos length|te offset|te]; simpl in *; rewrite ?state_after_seq.
  - by apply linked_insert_lockstep.
  - destruct (LinkedFacts.linked_copy_te_cases fuel te offset g)
      as [[_ E]|[_ [E|[E|(p & n & Hn & E)]]]]; rewrite E; try (by intros [= <-]).
    rewrite state_after_fmap. by apply linked_insert_lockstep.
  - intros Hs. by destruct (linked_disable_lockstep te g g').
Qed.

Lemma lockstep_new (I : impl) (n : Z) :
  match I return state I -> Prop with
  | array_backed => list_lockstep
  | linked_slots _ => linked_lockstep
  end (new n).
Proof.
  destruct I; simpl.
  - unfold list_lockstep; simpl. by rewrite !length_replicate.
  - unfold linked_lockstep; simpl.
    rewrite !length_replicate, length_map. unfold range. rewrite length_seq.
    split_and!; [done..|]. apply ring_init.
Qed.

(** C9. After [__init__] and after every call of a sequence whose inserted
    lengths are at least one, [self.lst] and [self.ID] of a ListGenome are
    equally long; those of a LinkedListGenome and [self.index_next] are
    equally long, and following [index_next] from slot 0 meets that many
    different slots before it is back at slot 0. *)
Theorem lockstep_storage (I : impl) (n : Z) (ops : list op) (g : state I) :
  Forall positive_length ops -> g ∈ run (new n) ops -> lockstep g.
Proof.
  intros Hok Hg. destruct I as [|fuel].
  - pose proof (run_invariant list_lockstep positive_length
                  (fun o g g' _ => list_lockstep_step o g g') ops (new n) Hok
                  (lockstep_new array_backed n)) as Hall.
    rewrite Forall_forall in Hall. by apply Hall.
  - apply linked_lockstep_observed.
    pose proof (run_invariant (G := state (linked_slots fuel)) linked_lockstep
                  positive_length (linked_lockstep_step fuel) ops (new n) Hok
                  (lockstep_new (linked_slots fuel) n)) as Hall.
    rewrite Forall_forall in Hall. by apply Hall.
Qed.

Lemma lockstep_storage_witness :
  lockstep (I := linked_slots 8)
    (LinkedListGenome.mk ["-"; "-"; "-"; "A"; "A"]%char [1; 3; 0; 4; 2]
                         [0; 0; 0; 1; 1] [1] 1).
Proof.
  apply (lockstep_storage (linked_slots 8) 3 [InsertTe 2 2]).
  - apply Forall_cons. split; [simpl; lia|apply Forall_nil_2].
  - apply list_elem_of_lookup. exists 1%nat. reflexivity.
Defined.

(** ** LinkedListGenome: the loops of [copy_te] end *)

(** How a call of [insert_te] that ends leaves [self.ID], [self.active_lst]
    and [self.count]. *)
Lemma linked_insert_te_owners pos length (g g' : LinkedListGenome.t) :
  state_after (LinkedListGenome.insert_te pos length g) = Some g' ->
  g'.(LinkedListGenome.count) = g.(LinkedListGenome.count) + 1 /\
  ((g'.(LinkedListGenome.ID) = g.(LinkedListGenome.ID) /\
    forall te, te ∈ g'.(LinkedListGenome.active_lst) ->
               te ∈ g.(LinkedListGenome.active_lst)) \/
   (g'.(LinkedListGenome.ID) =
      g.(LinkedListGenome.ID)
        ++ replicate (Z.to_nat length) (g.(LinkedListGenome.count) + 1) /\
    forall te, te ∈ g'.(LinkedListGenome.active_lst) ->
               te ∈ g.(LinkedListGenome.active_lst) \/
               te = g.(LinkedListGenome.count) + 1)).
Proof.
  assert (forall i g2,
            LinkedListGenome.ID g2 = LinkedListGenome.ID g ->
            LinkedListGenome.count g2 = LinkedListGenome.count g + 1 ->
            (forall te, te ∈ LinkedListGenome.active_lst g2 ->
                        te ∈ LinkedListGenome.active_lst g) ->
            state_after (LinkedSteps.finish i length g2) = Some g' ->
            LinkedListGenome.count g' = LinkedListGenome.count g + 1 /\
            ((LinkedListGenome.ID g' = LinkedListGenome.ID g /\
              forall te, te ∈ LinkedListGenome.active_lst g' ->
                         te ∈ LinkedListGenome.active_lst g) \/
             (LinkedListGenome.ID g' =
                LinkedListGenome.ID g
                  ++ replicate (Z.to_nat length) (LinkedListGenome.count g + 1) /\
              forall te, te ∈ LinkedListGenome.active_lst g' ->
                         te ∈ LinkedListGenome.active_lst g \/
                         te = LinkedListGenome.count g + 1))) as Hfin.
  { intros i g2 Hid Hc Ha. unfold LinkedSteps.finish, LinkedSteps.splice.
    destruct (py_get _ _); simpl; [destruct (py_set _ _ _); simpl|];
      intros [= <-]; simpl; (split; [done|]); [right|left..]; rewrite ?Hid, ?Hc;
      try done.
    split; [done|].
    intros te [Hte| ->%list_elem_of_singleton]%elem_of_app; auto. }
  rewrite LinkedFacts.linked_insert_te_eq.
  destruct (LinkedListGenome.walk _ _ _) as [i|]; [|intros [= <-]; simpl; auto].
  destruct (py_get (LinkedListGenome.lst g) i) as [c|]; [|intros [= <-]; simpl; auto].
  case_bool_decide; [|by apply Hfin].
  destruct (py_get (LinkedListGenome.ID g) i) as [o|]; [|intros [= <-]; simpl; auto].
  destruct (LinkedFacts.linked_disable_te_cases o (LinkedSteps.bump g))
    as [E|[[_ E]|(a & Ha & E)]]; rewrite E; try (intros [= <-]; simpl; auto).
  apply Hfin; [done..|]. simpl. eauto using list_remove_elem.
Qed.

Lemma linked_owned_step fuel (o : op) (g g' : state (linked_slots fuel)) :
  positive_length o -> linked_owned g ->
  state_after (step o g) = Some g' -> linked_owned g'.
Proof.
  intros Ho (Hl & Hc & Ha & H0) Hs.
  split; [by apply (linked_lockstep_step fuel o g g')|].
  assert (forall pos length, 1 <= length ->
            state_after (LinkedListGenome.insert_te pos length g) = Some g' ->
            0 <= LinkedListGenome.count g' /\
            (forall te, te ∈ LinkedListGenome.active_lst g' ->
                        1 <= te /\ te ∈ LinkedListGenome.ID g') /\
            (forall o, LinkedListGenome.ID g' !! 0%nat = Some o -> o = 0)) as Hins.
  { intros pos length HL Hs'.
    destruct (linked_insert_te_owners _ _ _ _ Hs') as [Hc' [[Hid Hact]|[Hid Hact]]];
      rewrite Hc', Hid.
    - split_and!; [lia|auto..].
    - split_and!; [lia| |].
      + intros te [Hte| ->]%Hact.
        * destruct (Ha te Hte). split; [done|]. apply elem_of_app; auto.
        * split; [lia|]. apply elem_of_app; right.
          apply elem_of_replicate. split; [done|lia].
      + intros o'. destruct (LinkedListGenome.ID g) as [|o0 ids] eqn:E.
        * simpl. destruct (Z.to_nat length) eqn:EL; [lia|]. simpl.
          (* the genome was empty: no call of [insert_te] gets this far *)
          exfalso. apply (f_equal List.length) in Hid.
          destruct Hl as (Hlen & Hnx & _). rewrite E in Hlen. simpl in Hlen.
          revert Hs'. rewrite LinkedFacts.linked_insert_te_eq.
          destruct (LinkedListGenome.walk _ _ _) as [i|];
            [|intros [= <-]; simpl in Hid; rewrite E in Hid; simpl in Hid; lia].
          unfold py_get at 1. rewrite Hlen. unfold norm_index.
          rewrite !bool_decide_eq_false_2 by (simpl; lia). simpl.
          intros [= <-]. simpl in Hid. rewrite E in Hid. simpl in Hid. lia.
        * simpl. intros [= <-]. by apply H0. }
  destruct o as [pos length|te offset|te]; simpl in *; rewrite ?state_after_seq in Hs.
  - by apply (Hins pos length).
  - destruct (LinkedFacts.linked_copy_te_cases fuel te offset g)
      as [[_ E]|[_ [E|[E|(p & n & Hn & E)]]]]; rewrite E in Hs;
      try (injection Hs as <-; done); try done.
    rewrite state_after_fmap in Hs. by eapply Hins.
  - destruct (LinkedFacts.linked_disable_te_cases te g) as [E|[[_ E]|(a & Hrm & E)]];
      rewrite E in Hs; injection Hs as <-; simpl; try done.
    split_and!; [done| |done]. intros x Hx. apply Ha. eauto using list_remove_elem.
Qed.

Lemma linked_owned_new n : linked_owned (LinkedListGenome.init n).
Proof.
  split; [apply (lockstep_new (linked_slots 0) n)|]. simpl. split_and!; [done| |].
  - by intros te ?%elem_of_nil.
  - intros o Ho. apply list_elem_of_lookup_2, elem_of_replicate in Ho. tauto.
Qed.

(** Every LinkedListGenome a program can hold after calls that insert at
    least one position each is of this kind. *)
Lemma linked_owned_run fuel (n : Z) (ops : list op) (g : state (linked_slots fuel)) :
  Forall positive_length ops -> g ∈ run (new n) ops -> linked_owned g.
Proof.
  intros Hok Hg.
  assert (Forall linked_owned (run (G := state (linked_slots fuel)) (new n) ops)) as Hall.
  { apply (run_invariant (G := state (linked_slots fuel)) linked_owned
             positive_length (linked_owned_step fuel)); [done|].
    apply linked_owned_new. }
  rewrite Forall_forall in Hall. by apply Hall.
Qed.

(** Along a path that holds a slot of [te], the first loop finds one. *)
Lemma linked_seek_on_path te (g : LinkedListGenome.t) l : forall fuel a b n,
  path g.(LinkedListGenome.index_next) a l b ->
  (forall x, x ∈ l -> is_Some (py_get g.(LinkedListGenome.ID) x)) ->
  (exists x, x ∈ l /\ py_get g.(LinkedListGenome.ID) x = Some te) ->
  (length l <= fuel)%nat ->
  exists j m, LinkedListGenome.seek fuel te a n g = Return (j, m) g /\ j ∈ l.
Proof.
  induction l as [|x l IH]; intros fuel a b n Hp Hdef (w & Hw & Hte) Hfuel.
  - by apply elem_of_nil in Hw.
  - destruct Hp as (-> & y & Hy & Hp). destruct fuel as [|fuel]; [simpl in Hfuel; lia|].
    simpl. unfold mbind, M_bind, get; simpl.
    destruct (Hdef a) as [o Ho]; [apply elem_of_cons; auto|]. rewrite Ho; simpl.
    case_bool_decide as Hne; simpl.
    + rewrite Hy; simpl.
      destruct (IH fuel y b (n + 1)) as (j & m & E & Hj); [done| | |simpl in Hfuel; lia|].
      * intros z Hz. apply Hdef, elem_of_cons; auto.
      * apply elem_of_cons in Hw as [->|Hw]; [congruence|eauto].
      * exists j, m. split; [done|]. apply elem_of_cons; auto.
    + exists a, n. split; [done|]. apply elem_of_cons; auto.
Qed.

(** Along a path that holds a slot of another owner, the second loop ends. *)
Lemma linked_span_on_path te (g : LinkedListGenome.t) l : forall fuel a b n,
  path g.(LinkedListGenome.index_next) a l b ->
  (forall x, x ∈ l -> is_Some (py_get g.(LinkedListGenome.ID) x)) ->
  (exists x o, x ∈ l /\ py_get g.(LinkedListGenome.ID) x = Some o /\ o <> te) ->
  (length l <= fuel)%nat ->
  exists j m, LinkedListGenome.span fuel te a n g = Return (j, m) g.
Proof.
  induction l as [|x l IH]; intros fuel a b n Hp Hdef (w & o' & Hw & Ho' & Hne) Hfuel.
  - by apply elem_of_nil in Hw.
  - destruct Hp as (-> & y & Hy & Hp). destruct fuel as [|fuel]; [simpl in Hfuel; lia|].
    simpl. unfold mbind, M_bind, get; simpl.
    destruct (Hdef a) as [o Ho]; [apply elem_of_cons; auto|]. rewrite Ho; simpl.
    case_bool_decide as He; simpl; [|eauto].
    rewrite Hy; simpl.
    apply (IH fuel y b (n + 1)); [done| | |simpl in Hfuel; lia].
    + intros z Hz. apply Hdef, elem_of_cons; auto.
    + apply elem_of_cons in Hw as [->|Hw]; [congruence|eauto].
Qed.

(** With more turns than slots, [copy_te] of an active id reaches its call
    of [insert_te]: the loops neither raise nor run out of turns. *)
Lemma linked_copy_te_enough_fuel fuel te offset (g : LinkedListGenome.t) :
  linked_owned g -> te ∈ g.(LinkedListGenome.active_lst) ->
  (length g.(LinkedListGenome.lst) <= fuel)%nat ->
  exists te_pos n, 1 <= n /\
    LinkedListGenome.copy_te fuel te offset g =
    (Some <$> LinkedListGenome.insert_te
                (len g.(LinkedListGenome.index_next) + (te_pos + offset)) n) g.
Proof.
  intros ((Hid & Hnx & slots & Hp & Hnd & Hlen & Hin) & Hc & Ha & H0) Hte Hfuel.
  destruct (Ha te Hte) as [Hpos (k & Hk)%list_elem_of_lookup].
  pose proof (lookup_lt_Some _ _ _ Hk) as Hklt.
  assert (forall x, x ∈ slots -> is_Some (py_get (LinkedListGenome.ID g) x)) as Hdef.
  { intros x Hx%Hin. rewrite py_get_in_range by (unfold len in *; lia).
    apply lookup_lt_is_Some_2. unfold len in *. lia. }
  assert (0 ∈ slots) as Hz by (apply Hin; unfold len; lia).
  assert (py_get (LinkedListGenome.ID g) 0 = Some 0) as Hzero.
  { rewrite (py_get_nat _ 0).
    destruct (lookup_lt_is_Some_2 (LinkedListGenome.ID g) 0) as [o Ho]; [lia|].
    rewrite Ho. f_equal. by apply H0. }
  assert (exists x, x ∈ slots /\ py_get (LinkedListGenome.ID g) x = Some te) as Hown.
  { exists (Z.of_nat k). split; [apply Hin; unfold len; lia|]. by rewrite py_get_nat. }
  rewrite LinkedFacts.linked_copy_te_eq.
  rewrite bool_decide_eq_false_2 by (intros Hn; by apply Hn).
  destruct (linked_seek_on_path te g slots fuel 0 0 0 Hp Hdef Hown) as (i & p & E & Hi);
    [lia|].
  rewrite E.
  destruct (LinkedFacts.linked_seek_cases fuel te 0 0 g)
    as [E'|[E'|(i' & p' & E' & Hite)]]; [congruence..|].
  assert (i' = i) as -> by congruence. clear E' p'.
  (* the ring, read from slot [i] on *)
  apply list_elem_of_split in Hi as (l1 & l2 & ->).
  apply path_app in Hp as (a & Hp1 & Hp2).
  pose proof Hp2 as (-> & _).
  assert (path (LinkedListGenome.index_next g) a ((a :: l2) ++ l1) a) as Hrot.
  { apply path_app. eauto. }
  destruct (linked_span_on_path te g ((a :: l2) ++ l1) fuel a a 0 Hrot)
    as (j & n & E2).
  - intros x Hx. apply Hdef. rewrite elem_of_app, elem_of_cons in *. tauto.
  - exists 0, 0. split_and!; [|done|lia].
    rewrite elem_of_app, elem_of_cons in *. tauto.
  - rewrite length_app in *. simpl in *. lia.
  - rewrite E2.
    destruct (LinkedFacts.linked_span_cases fuel te a 0 g)
      as [E'|[E'|(j' & n' & E' & _ & Hn)]]; [congruence..|].
    assert (n' = n) as -> by congruence.
    exists p, n. split; [|done]. specialize (Hn Hite). lia.
Qed.

(** ** ListGenome: well-formed objects *)

Lemma slot_ok_mono a b a' b' c o :
  (forall te, te ∈ a -> te ∈ a') -> b <= b' -> slot_ok a b c o -> slot_ok a' b' c o.
Proof. intros Ha Hb [Ho Hc]. split; [lia|auto]. Qed.

Lemma list_wf_at_mono b b' g : b <= b' -> list_wf_at b g -> list_wf_at b' g.
Proof.
  intros Hb (H0 & Hs & Hnd & Ha). split_and!; [lia| |done|].
  - eapply Forall2_impl; [done|]. intros c o. by apply slot_ok_mono.
  - eapply Forall_impl; [done|]. simpl. lia.
Qed.

Lemma list_wf_lockstep b g : list_wf_at b g -> list_lockstep g.
Proof. intros (_ & Hs & _). by apply Forall2_length in Hs. Qed.

Lemma relabel_slots te a b ids l :
  Forall2 (slot_ok a b) l ids ->
  Forall2 (fun c o => slot_ok a b c o /\ (c = active_sym -> o <> te) /\
                      (o = te -> c = disabled_sym))
          (relabel te ids l) ids.
Proof.
  intros Hs. apply Forall2_same_length_lookup. split.
  - rewrite relabel_length. by apply Forall2_length in Hs.
  - intros i c o. rewrite relabel_lookup.
    destruct (l !! i) as [c0|] eqn:Hc0; simpl; [|done].
    intros [= <-] Ho. pose proof (Forall2_lookup_lr _ _ _ _ _ _ Hs Hc0 Ho) as [Hr Hc].
    rewrite Ho. case_bool_decide as Hte.
    + injection Hte as ->. split_and!; [split; [done|]|..]; done.
    + split_and!; [done| |]; intros; congruence.
Qed.

Lemma list_marked_wf b te g : list_wf_at b g -> list_wf_at b (ListSteps.marked te g).
Proof.
  intros (H0 & Hs & Hnd & Ha). split_and!; [done| |done..]. simpl.
  eapply Forall2_impl; [by apply relabel_slots|]. by intros c o [? _].
Qed.

Lemma list_killed_wf b te a g :
  list_wf_at b g -> list_remove te g.(ListGenome.active_lst) = Some a ->
  list_wf_at b (ListGenome.set_active_lst a (ListSteps.marked te g)).
Proof.
  intros (H0 & Hs & Hnd & Ha) Hrm. split_and!; simpl.
  - done.
  - eapply Forall2_impl; [by apply (relabel_slots te)|].
    intros c o ([Ho Hc] & Hne & _). split; [done|].
    intros Hact. eapply list_remove_other; eauto.
  - by apply (list_remove_NoDup te _ _ Hrm).
  - apply Forall_forall. intros x Hx. rewrite Forall_forall in Ha.
    eauto using list_remove_elem.
Qed.

Lemma list_disable_wf b te g g' :
  list_wf_at b g -> state_after (ListGenome.disable_te te g) = Some g' ->
  list_wf_at b g' /\ g'.(ListGenome.count) = g.(ListGenome.count).
Proof.
  intros Hg.
  destruct (ListFacts.list_disable_te_cases te g) as [E|[[_ E]|(a & Ha & E)]];
    rewrite E; intros [= <-]; (split; [|done]).
  - by apply list_marked_wf.
  - by apply list_marked_wf.
  - by apply list_killed_wf.
Qed.

Lemma list_splice_wf pos length g :
  list_wf_at (g.(ListGenome.count) - 1) g -> list_wf (ListSteps.splice pos length g).
Proof.
  intros (H0 & Hs & Hnd & Ha). unfold list_wf, list_wf_at, ListSteps.splice; simpl.
  pose proof (Forall2_length _ _ _ Hs) as Hlen.
  assert (forall te, te ∈ ListGenome.active_lst g ->
                     te ∈ ListGenome.active_lst g ++ [ListGenome.count g]) as Hsub
    by (intros; apply elem_of_app; auto).
  assert (Forall2 (slot_ok (ListGenome.active_lst g ++ [ListGenome.count g])
                           (ListGenome.count g))
                  (ListGenome.lst g) (ListGenome.ID g)) as Hs'.
  { eapply Forall2_impl; [done|]. intros c o. apply slot_ok_mono; [done|lia]. }
  rewrite Forall_forall in Ha.
  split_and!.
  - lia.
  - unfold slice_to, slice_from. rewrite Hlen.
    apply Forall2_app; [apply Forall2_app|].
    + by apply Forall2_take.
    + apply Forall2_replicate. split; [lia|].
      intros _. apply elem_of_app; right. by apply list_elem_of_singleton.
    + by apply Forall2_drop.
  - apply NoDup_app. split_and!; [done| |apply NoDup_singleton].
    intros x Hx ->%list_elem_of_singleton. specialize (Ha _ Hx). simpl in Ha. lia.
  - apply Forall_app. split.
    + apply Forall_forall. intros x Hx. specialize (Ha _ Hx). simpl in Ha. lia.
    + apply Forall_singleton. lia.
Qed.

Lemma list_insert_wf pos length g g' :
  list_wf g -> state_after (ListGenome.insert_te pos length g) = Some g' -> list_wf g'.
Proof.
  intros Hg.
  assert (list_wf_at (ListGenome.count (ListSteps.bump g) - 1) (ListSteps.bump g)) as Hb.
  { simpl. replace (ListGenome.count g + 1 - 1) with (ListGenome.count g) by lia.
    exact Hg. }
  assert (list_wf (ListSteps.bump g)) as Hb'.
  { eapply list_wf_at_mono; [|exact Hb]. lia. }
  rewrite ListFacts.list_insert_te_eq.
  case_bool_decide; [by intros [= <-]|].
  destruct (py_get _ _) as [c|]; [|by intros [= <-]].
  case_bool_decide; [|intros [= <-]; by apply list_splice_wf].
  destruct (py_get _ _) as [o|]; [|by intros [= <-]].
  destruct (ListGenome.disable_te o _) as [[] g2|e g2|] eqn:E; [| |done].
  - destruct (list_disable_wf _ o (ListSteps.bump g) g2 Hb) as [H2 Hc];
      [by rewrite E|].
    intros [= <-]. apply list_splice_wf. by rewrite Hc.
  - destruct (list_disable_wf _ o (ListSteps.bump g) g2 Hb) as [H2 Hc];
      [by rewrite E|].
    intros [= <-]. unfold list_wf. rewrite Hc.
    eapply list_wf_at_mono; [|exact H2]. lia.
Qed.

Lemma list_wf_step (o : op) (g g' : ListGenome.t) :
  list_wf g -> state_after (step o g) = Some g' -> list_wf g'.
Proof.
  intros Hg. destruct o as [pos length|te offset|te]; simpl; rewrite ?state_after_seq.
  - by apply list_insert_wf.
  - rewrite ListFacts.list_copy_te_eq.
    destruct (list_find _ _) as [[i o]|]; [|by intros [= <-]].
    destruct (_ !! i) as [c|]; [|by intros [= <-]].
    case_bool_decide; [by intros [= <-]|].
    rewrite state_after_fmap. by apply list_insert_wf.
  - intros Hs. destruct (list_disable_wf _ te g g' Hg Hs) as [H' Hc].
    unfold list_wf. by rewrite Hc.
Qed.

Lemma list_wf_new n : list_wf (ListGenome.init n).
Proof.
  unfold list_wf, list_wf_at; simpl. split_and!; [done| |constructor|constructor].
  apply Forall2_replicate. split; [lia|done].
Qed.

(** Every object a program can hold is well formed. *)
Lemma list_wf_run (n : Z) (ops : list op) (g : ListGenome.t) :
  g ∈ run (new n) ops -> list_wf g.
Proof.
  intros Hg.
  assert (Forall list_wf (run (new n) ops)) as Hall.
  { apply (run_invariant list_wf (fun _ => True)
             (fun o g g' _ => list_wf_step o g g')).
    - by apply Forall_true.
    - apply list_wf_new. }
  rewrite Forall_forall in Hall. by apply Hall.
Qed.

(** ** ListGenome: [insert_te] at a position of the list *)

Lemma wrapped_in_range g pos :
  0 <= pos < len g.(ListGenome.lst) -> ListSteps.wrapped g pos = pos.
Proof. intros Hp. unfold ListSteps.wrapped. by rewrite bool_decide_eq_false_2 by lia. Qed.

(** On a slot that is not active, the new element is spliced in and nothing
    else happens. *)
Lemma list_insert_te_plain g pos length :
  0 <= pos < len g.(ListGenome.lst) ->
  py_get g.(ListGenome.lst) pos <> Some active_sym ->
  ListGenome.insert_te pos length g =
  Return (g.(ListGenome.count) + 1) (ListSteps.splice pos length (ListSteps.bump g)).
Proof.
  intros Hp Hc. rewrite ListFacts.list_insert_te_eq, wrapped_in_range by done.
  rewrite bool_decide_eq_false_2 by lia.
  rewrite py_get_in_range in * by done.
  destruct (lookup_lt_is_Some_2 g.(ListGenome.lst) (Z.to_nat pos)) as [c Hl];
    [unfold len in Hp; lia|].
  rewrite Hl in *. rewrite bool_decide_eq_false_2; [done|congruence].
Qed.

(** On an active slot of a well-formed object, the owner is disabled first:
    its slots are marked and it leaves [self.active_lst]. *)
Lemma list_insert_te_collide g pos length :
  list_wf g -> 0 <= pos < len g.(ListGenome.lst) ->
  py_get g.(ListGenome.lst) pos = Some active_sym ->
  exists o a,
    py_get g.(ListGenome.ID) pos = Some o /\
    list_remove o g.(ListGenome.active_lst) = Some a /\
    ListGenome.insert_te pos length g =
    Return (g.(ListGenome.count) + 1)
           (ListSteps.splice pos length
              (ListGenome.set_active_lst a (ListSteps.marked o (ListSteps.bump g)))).
Proof.
  intros Hg Hp Hc. pose proof Hg as (H0 & Hs & Hnd & Ha).
  pose proof (Forall2_length _ _ _ Hs) as Hlen.
  rewrite ListFacts.list_insert_te_eq, wrapped_in_range by done.
  rewrite bool_decide_eq_false_2 by lia.
  rewrite Hc, bool_decide_eq_true_2 by done.
  rewrite py_get_in_range in Hc by done.
  destruct (Forall2_lookup_l _ _ _ _ _ Hs Hc) as (o & Ho & _ & Hact).
  rewrite (py_get_in_range (ListGenome.ID g)) by (unfold len in *; lia).
  rewrite Ho. destruct (list_remove_Some o g.(ListGenome.active_lst)) as [a Hrm];
    [by apply Hact|].
  exists o, a. split_and!; [done..|].
  rewrite ListFacts.list_disable_te_lockstep by (simpl; lia). simpl.
  by rewrite Hrm.
Qed.

Lemma slice_bound_in_range (n : nat) pos :
  0 <= pos < Z.of_nat n -> slice_bound n pos = Z.to_nat pos.
Proof.
  intros Hp. unfold slice_bound. rewrite bool_decide_eq_false_2 by lia. lia.
Qed.

(** What a splice at a position of the list leaves in [self.lst]: [length]
    more items, and ["A"] at the positions [pos .. pos+length-1]. *)
Lemma list_splice_shows pos length g :
  0 <= pos < len g.(ListGenome.lst) ->
  let g' := ListSteps.splice pos length g in
  ListGenome.__len__ g' = ListGenome.__len__ g + Z.max 0 length /\
  forall j, 0 <= j < length ->
            py_get g'.(ListGenome.lst) (pos + j) = Some active_sym.
Proof.
  intros Hp g'. unfold g', ListGenome.__len__, ListSteps.splice, len; simpl.
  unfold slice_to, slice_from. rewrite slice_bound_in_range by done.
  unfold len in Hp. split.
  - rewrite !length_app, length_replicate, length_take, length_drop. lia.
  - intros j Hj. rewrite py_get_in_range.
    2:{ unfold len. rewrite !length_app, length_replicate, length_take, length_drop.
        lia. }
    rewrite lookup_app_l
      by (rewrite length_app, length_replicate, length_take; lia).
    rewrite lookup_app_r by (rewrite length_take; lia).
    apply lookup_replicate_2. rewrite length_take. lia.
Qed.

(** The ListGenome does at a position of its list what C6 asks for: the
    call returns, the length grows by [length], and the rendering shows
    ["A"] at [pos .. pos+length-1]. *)
Lemma list_insert_te_shows pos length g :
  list_wf g -> 0 <= pos < ListGenome.__len__ g -> 0 <= length ->
  exists g',
    ListGenome.insert_te pos length g = Return (g.(ListGenome.count) + 1) g' /\
    ListGenome.__len__ g' = ListGenome.__len__ g + length /\
    forall j, 0 <= j < length ->
              py_get g'.(ListGenome.lst) (pos + j) = Some active_sym.
Proof.
  intros Hg Hp HL. unfold ListGenome.__len__ in Hp.
  destruct (decide (py_get g.(ListGenome.lst) pos = Some active_sym)) as [Hc|Hc].
  - destruct (list_insert_te_collide g pos length Hg Hp Hc) as (o & a & _ & _ & ->).
    eexists. split; [done|].
    match goal with |- context [ListSteps.splice pos length ?g2] =>
      destruct (list_splice_shows pos length g2) as [Hlen Hshow] end.
    { simpl. unfold len in *. by rewrite relabel_length. }
    split; [|done]. rewrite Hlen. unfold ListGenome.__len__, len; simpl.
    rewrite relabel_length. lia.
  - rewrite list_insert_te_plain by done. eexists. split; [done|].
    destruct (list_splice_shows pos length (ListSteps.bump g)) as [Hlen Hshow];
      [done|].
    split; [|done]. rewrite Hlen. unfold ListGenome.__len__; simpl. lia.
Qed.

(** The ListGenome does at a position of its list what C2 asks for: when the
    position reads ["A"], its owner is not active after the call and every
    slot it still owns reads ["x"]. *)
Lemma list_collision_disables_owner pos length g o :
  list_wf g -> 0 <= pos < ListGenome.__len__ g ->
  py_get g.(ListGenome.lst) pos = Some active_sym ->
  py_get g.(ListGenome.ID) pos = Some o ->
  exists g',
    ListGenome.insert_te pos length g = Return (g.(ListGenome.count) + 1) g' /\
    (o ∉ ListGenome.active_tes g') /\
    forall i, g'.(ListGenome.ID) !! i = Some o ->
              g'.(ListGenome.lst) !! i = Some disabled_sym.
Proof.
  intros Hg Hp Hc Ho. unfold ListGenome.__len__ in Hp.
  destruct (list_insert_te_collide g pos length Hg Hp Hc) as (o' & a & Ho' & Hrm & ->).
  rewrite Ho in Ho'. injection Ho' as <-.
  destruct Hg as (H0 & Hs & Hnd & Ha).
  pose proof (Forall2_length _ _ _ Hs) as Hlen.
  assert (1 <= o <= ListGenome.count g) as Hrange.
  { rewrite Forall_forall in Ha. apply Ha. eauto using list_remove_Some_inv. }
  eexists. split; [done|]. unfold ListGenome.active_tes, ListSteps.splice; simpl.
  split.
  - intros [Hin| ->%list_elem_of_singleton]%elem_of_app; [|lia].
    by destruct (list_remove_NoDup o _ _ Hrm Hnd).
  - assert (Forall2 (fun c o' => o' = o -> c = disabled_sym)
                    (relabel o (ListGenome.ID g) (ListGenome.lst g))
                    (ListGenome.ID g)) as Hx.
    { eapply Forall2_impl; [by apply (relabel_slots o), Hs|]. by intros c o' (_ & _ & ?). }
    intros i Hi.
    match goal with |- ?l !! i = _ =>
      assert (Forall2 (fun c o' => o' = o -> c = disabled_sym) l
                ((slice_to (ListGenome.ID g) pos
                    ++ replicate (Z.to_nat length) (ListGenome.count g + 1))
                   ++ slice_from (ListGenome.ID g) pos))
        as Hall end.
    { unfold slice_to, slice_from. rewrite relabel_length, Hlen.
      apply Forall2_app; [apply Forall2_app|].
      - by apply Forall2_take.
      - apply Forall2_replicate. lia.
      - by apply Forall2_drop. }
    destruct (Forall2_lookup_r _ _ _ _ _ Hall Hi) as (c & -> & Hcx). by rewrite Hcx.
Qed.

(** ** Inserting an element of length zero *)

(** C10, as the code has it. On any ListGenome a program can hold and any
    position [0 <= pos < len], [insert_te(pos, 0)] returns the id
    [count + 1], which was neither active nor the owner of a slot before;
    afterwards this id is the last of [active_tes()], the length and the
    owners are the same as before, and the id owns no slot. Where the
    position does not read ["A"] nothing else happens: the other active ids
    and the rendering are as before. Where it reads ["A"] its owner is
    disabled first: the owner leaves [active_tes()] and its slots read
    ["x"], which changes the rendering. *)
Theorem insert_zero_length (n : Z) (ops : list op) (g : ListGenome.t) (pos : Z) :
  g ∈ run (new n) ops ->
  0 <= pos < ListGenome.__len__ g ->
  exists g',
    ListGenome.insert_te pos 0 g = Return (g.(ListGenome.count) + 1) g' /\
    (g.(ListGenome.count) + 1 ∉ ListGenome.active_tes g) /\
    (g.(ListGenome.count) + 1 ∉ g.(ListGenome.ID)) /\
    last (ListGenome.active_tes g') = Some (g.(ListGenome.count) + 1) /\
    ListGenome.__len__ g' = ListGenome.__len__ g /\
    g'.(ListGenome.ID) = g.(ListGenome.ID) /\
    (g.(ListGenome.count) + 1 ∉ g'.(ListGenome.ID)) /\
    (py_get g.(ListGenome.lst) pos <> Some active_sym ->
       ListGenome.active_tes g' = ListGenome.active_tes g ++ [g.(ListGenome.count) + 1] /\
       result (ListGenome.__str__ g') = result (ListGenome.__str__ g)) /\
    (py_get g.(ListGenome.lst) pos = Some active_sym ->
       exists o a,
         py_get g.(ListGenome.ID) pos = Some o /\
         list_remove o (ListGenome.active_tes g) = Some a /\
         (o ∉ a) /\
         ListGenome.active_tes g' = a ++ [g.(ListGenome.count) + 1] /\
         g'.(ListGenome.lst) = relabel o g.(ListGenome.ID) g.(ListGenome.lst)).
Proof.
  intros Hg Hp. apply list_wf_run in Hg. pose proof Hg as (H0 & Hs & Hnd & Ha).
  unfold ListGenome.__len__ in *.
  assert (g.(ListGenome.count) + 1 ∉ g.(ListGenome.ID)) as Hfresh.
  { intros (i & Hi)%list_elem_of_lookup.
    destruct (Forall2_lookup_r _ _ _ _ _ Hs Hi) as (c & _ & [Ho _]). lia. }
  assert (g.(ListGenome.count) + 1 ∉ ListGenome.active_tes g) as Hnew.
  { intros Hin. rewrite Forall_forall in Ha. specialize (Ha _ Hin). simpl in Ha. lia. }
  assert (forall (A : Type) (l : list A),
            (slice_to l pos ++ []) ++ slice_from l pos = l) as Hl.
  { intros A l. rewrite app_nil_r. apply slice_take_drop. }
  destruct (decide (py_get g.(ListGenome.lst) pos = Some active_sym)) as [Hc|Hc].
  - destruct (list_insert_te_collide g pos 0 Hg Hp Hc) as (o & a & Ho & Hrm & ->).
    eexists. split; [reflexivity|].
    unfold ListSteps.splice, ListGenome.active_tes in *; simpl.
    rewrite !Hl. split_and!; try done.
    + apply last_snoc.
    + unfold len. by rewrite relabel_length.
    + exists o, a. split_and!; try done.
      by destruct (list_remove_NoDup o _ _ Hrm Hnd).
  - rewrite (list_insert_te_plain g pos 0) by done.
    eexists. split; [reflexivity|].
    unfold ListSteps.splice, ListGenome.active_tes, ListGenome.__str__ in *; simpl.
    unfold mbind, M_bind, get, mret, M_ret; simpl.
    rewrite !Hl. split_and!; try done.
    apply last_snoc.
Qed.

Lemma insert_zero_length_witness :
  exists g',
    ListGenome.insert_te 1 0 (ListGenome.mk ["-"; "A"; "-"]%char [0; 1; 0] [1] 1)
    = Return 2 g' /\
    (2 ∉ [1]) /\ (2 ∉ [0; 1; 0]) /\
    last (ListGenome.active_tes g') = Some 2 /\
    ListGenome.__len__ g' = 3 /\
    g'.(ListGenome.ID) = [0; 1; 0] /\
    (2 ∉ g'.(ListGenome.ID)) /\
    (py_get ["-"; "A"; "-"]%char 1 <> Some active_sym ->
       ListGenome.active_tes g' = [1] ++ [2] /\
       result (ListGenome.__str__ g') =
       result (ListGenome.__str__ (ListGenome.mk ["-"; "A"; "-"]%char [0; 1; 0] [1] 1))) /\
    (py_get ["-"; "A"; "-"]%char 1 = Some active_sym ->
       exists o a,
         py_get [0; 1; 0] 1 = Some o /\
         list_remove o [1] = Some a /\
         (o ∉ a) /\
         ListGenome.active_tes g' = a ++ [2] /\
         g'.(ListGenome.lst) = relabel o [0; 1; 0] ["-"; "A"; "-"]%char).
Proof.
  apply (insert_zero_length 2 [InsertTe 1 1]
           (ListGenome.mk ["-"; "A"; "-"]%char [0; 1; 0] [1] 1) 1).
  - apply list_elem_of_lookup. exists 1%nat. reflexivity.
  - vm_compute. split; [discriminate|reflexivity].
Defined.

(** The claim as worded fails where the position reads ["A"]: after
    [ListGenome(4).insert_te(1, 2)] the rendering is ["-AA---"], and
    [insert_te(1, 0)] turns it into ["-xx---"] and takes id 1 out of the
    active ids. *)
Lemma insert_zero_length_changes_render :
  let g := ListGenome.mk ["-"; "A"; "A"; "-"; "-"; "-"]%char [0; 1; 1; 0; 0; 0] [1] 1 in
  let g' := ListGenome.mk ["-"; "x"; "x"; "-"; "-"; "-"]%char [0; 1; 1; 0; 0; 0] [2] 2 in
  run (new 4) [InsertTe 1 2] = [ListGenome.init 4; g] /\
  0 <= 1 < ListGenome.__len__ g /\
  ListGenome.insert_te 1 0 g = Return 2 g' /\
  result (ListGenome.__str__ g) = Some "-AA---"%string /\
  result (ListGenome.__str__ g') = Some "-xx---"%string /\
  result (ListGenome.__str__ g') <> result (ListGenome.__str__ g) /\
  ListGenome.active_tes g' <> ListGenome.active_tes g ++ [2].
Proof. vm_compute. split_and!; try reflexivity; discriminate. Qed.

(** * Where the code departs from the specification *)

Local Open Scope string_scope.

(** C1 does not hold of the code. The scenario of the specification, on
    genomes of size 20: after [insert_te(5, 3)] both classes render the same,
    but [insert_te(5, 2)] disables id 1 in the ListGenome, which tests
    [self.lst[5]], and not in the LinkedListGenome, which tests the slot
    before the insertion point. On genomes of size 4, [insert_te(0, 1)]
    alone renders ["A----"] in one class and ["-A---"] in the other. *)
Theorem implementations_disagree (fuel : nat) :
  observe <$> run (new (G := state array_backed) 20) [InsertTe 5 3; InsertTe 5 2] =
    [ (Some "--------------------", []);
      (Some "-----AAA---------------", [1]);
      (Some "-----AAxxx---------------", [2]) ] /\
  observe <$> run (new (G := state (linked_slots fuel)) 20) [InsertTe 5 3; InsertTe 5 2] =
    [ (Some "--------------------", []);
      (Some "-----AAA---------------", [1]);
      (Some "-----AAAAA---------------", [1; 2]) ] /\
  observe <$> run (new (G := state array_backed) 4) [InsertTe 0 1] =
    [ (Some "----", []); (Some "A----", [1]) ] /\
  observe <$> run (new (G := state (linked_slots fuel)) 4) [InsertTe 0 1] =
    [ (Some "----", []); (Some "-A---", [1]) ].
Proof. cbv zeta. split_and!; reflexivity. Qed.

(** C2 does not hold of the LinkedListGenome. After [insert_te(2, 2)] on a
    genome of size 3 position 2 reads ["A"] and belongs to id 1; the call
    [insert_te(2, 1)] inspects slot 1, which reads ["-"], so id 1 stays in
    [active_tes()] and none of its positions reads ["x"]. The ListGenome
    disables id 1 on the same calls. *)
Theorem linked_collision_spares_owner (fuel : nat) :
  observe <$> run (new (G := state (linked_slots fuel)) 3) [InsertTe 2 2; InsertTe 2 1] =
    [ (Some "---", []); (Some "--AA-", [1]); (Some "--AAA-", [1; 2]) ] /\
  observe <$> run (new (G := state array_backed) 3) [InsertTe 2 2; InsertTe 2 1] =
    [ (Some "---", []); (Some "--AA-", [1]); (Some "--Axx-", [2]) ].
Proof. cbv zeta. split_and!; reflexivity. Qed.

(** C3 does not hold of the code: [disable_te] ends with
    [self.active_lst.remove(te)], which raises [ValueError] for an id that is
    not in the list. So it raises for an id never handed out, for an id
    disabled before, and for the id 0 of the empty positions, which it has
    marked ["x"] by then; in both classes. *)
Theorem disable_inactive_raises :
  ListGenome.disable_te 7 (ListGenome.init 3) = Raise ValueError (ListGenome.init 3) /\
  LinkedListGenome.disable_te 7 (LinkedListGenome.init 3) =
    Raise ValueError (LinkedListGenome.init 3) /\
  (let g := ListGenome.mk ["x"; "-"; "-"; "-"]%char [1; 0; 0; 0] [] 1 in
   run (new 3) [InsertTe 0 1; DisableTe 1] !! 2%nat = Some g /\
   ListGenome.disable_te 1 g = Raise ValueError g) /\
  ListGenome.disable_te 0 (ListGenome.init 3) =
    Raise ValueError (ListGenome.mk ["x"; "x"; "x"]%char [0; 0; 0] [] 0) /\
  LinkedListGenome.disable_te 0 (LinkedListGenome.init 3) =
    Raise ValueError
      (LinkedListGenome.mk ["x"; "x"; "x"]%char [1; 2; 0] [0; 0; 0] [] 0).
Proof. cbv zeta. split_and!; reflexivity. Qed.

(** C4 does not hold of the ListGenome: [copy_te] looks [te] up in [self.ID]
    and not in [self.active_lst]. For an id that owns no slot, [index_ID] is
    never assigned and reading it raises [UnboundLocalError]; for the id 0 of
    the empty positions the method goes on and copies them as a new
    element. *)
Theorem list_copy_of_unknown_id :
  ListGenome.copy_te 5 0 (ListGenome.init 3) =
    Raise UnboundLocalError (ListGenome.init 3) /\
  ListGenome.copy_te 0 0 (ListGenome.init 3) =
    Return (Some 1)
      (ListGenome.mk ["A"; "A"; "A"; "-"; "-"; "-"]%char [1; 1; 1; 0; 0; 0] [1] 1).
Proof. cbv zeta. split_and!; reflexivity. Qed.

(** C5 does not hold of the code. The ListGenome wraps [pos] only when
    [pos > len(self.lst)]: at [pos = len(self.lst)] and below
    [-len(self.lst)] the test of [self.lst[pos]] raises [IndexError], after
    the counter has been raised. The LinkedListGenome does not fail, but at
    [pos = len] it does not do what it does at [pos mod len = 0]. *)
Theorem insert_at_length_not_wrapped (fuel : nat) :
  ListGenome.insert_te 4 1 (ListGenome.init 4) =
    Raise IndexError (ListSteps.bump (ListGenome.init 4)) /\
  ListGenome.insert_te (-5) 1 (ListGenome.init 4) =
    Raise IndexError (ListSteps.bump (ListGenome.init 4)) /\
  ListGenome.insert_te (4 mod 4) 1 (ListGenome.init 4) =
    Return 1 (ListGenome.mk ["A"; "-"; "-"; "-"; "-"]%char [1; 0; 0; 0; 0] [1] 1) /\
  observe <$> run (new (G := state (linked_slots fuel)) 4) [InsertTe 4 1] =
    [ (Some "----", []); (Some "----A", [1]) ] /\
  observe <$> run (new (G := state (linked_slots fuel)) 4) [InsertTe (4 mod 4) 1] =
    [ (Some "----", []); (Some "-A---", [1]) ].
Proof. cbv zeta. split_and!; reflexivity. Qed.

(** C6 does not hold of the LinkedListGenome: [insert_te(0, 1)] on a genome of
    size 4 walks [range(-1)], that is not at all, and links the new slot in
    after slot 0. The length grows by one, but the ["A"] is at position 1 and
    position [0 mod 4] still reads ["-"]; the call does what [insert_te(1, 1)]
    does. *)
Theorem linked_insert_at_zero_misplaced :
  let g0 := LinkedListGenome.init 4 in
  let g1 := LinkedListGenome.mk ["-"; "-"; "-"; "-"; "A"]%char [4; 2; 3; 0; 1]
                                [0; 0; 0; 0; 1] [1] 1 in
  LinkedListGenome.insert_te 0 1 g0 = Return 1 g1 /\
  LinkedListGenome.insert_te 1 1 g0 = Return 1 g1 /\
  LinkedListGenome.__len__ g1 = LinkedListGenome.__len__ g0 + 1 /\
  result (LinkedListGenome.__str__ g1) = Some "-A---" /\
  String.get 0 "-A---" = Some "-"%char.
Proof. cbv zeta. split_and!; reflexivity. Qed.

(** C7 does not hold of the code. ListGenome: with id 1 at position 1 of a
    genome of length 5, [copy_te(1, 4)] calls [insert_te(5, 1)], which is not
    wrapped to position 0 and raises [IndexError]. LinkedListGenome: with
    id 1 at position 2 of a genome of length 5, [copy_te(1, -10)] calls
    [insert_te(-3, 1)], whose walk is empty: the copy lands at position 1
    and not at [(2 - 10) mod 5 = 2]. *)
Theorem copy_target_not_wrapped :
  (let g := ListGenome.mk ["-"; "A"; "-"; "-"; "-"]%char [0; 1; 0; 0; 0] [1] 1 in
   run (new 4) [InsertTe 1 1] !! 1%nat = Some g /\
   ListGenome.copy_te 1 4 g = Raise IndexError (ListSteps.bump g)) /\
  observe <$> run (new (G := state (linked_slots 8)) 4) [InsertTe 2 1; CopyTe 1 (-10)] =
    [ (Some "----", []); (Some "--A--", [1]); (Some "-A-A--", [1; 2]) ].
Proof. cbv zeta. split_and!; reflexivity. Qed.

(** * Further properties of the two classes *)

Local Close Scope string_scope.
Local Open Scope Z_scope.

(** ** Tidy objects *)

Lemma tidy_mono b b' a l ids : b <= b' -> tidy b a l ids -> tidy b' a l ids.
Proof.
  intros Hb (H0 & Hs & Hnd & Ha). split_and!; [lia| |done|].
  - eapply Forall2_impl; [done|]. intros c o (? & ? & ? & ?). unfold slot_tidy.
    split_and!; try done; lia.
  - eapply Forall_impl; [done|]. simpl. lia.
Qed.

Lemma relabel_Forall2 (P Q : ascii -> Z -> Prop) te ids l :
  Forall2 P l ids ->
  (forall c o, P c o -> Q (if bool_decide (o = te) then disabled_sym else c) o) ->
  Forall2 Q (relabel te ids l) ids.
Proof.
  intros Hs HPQ. apply Forall2_same_length_lookup. split.
  - rewrite relabel_length. by apply Forall2_length in Hs.
  - intros i c o. rewrite relabel_lookup.
    destruct (l !! i) as [c0|] eqn:Hc0; simpl; [|done].
    intros [= <-] Ho. pose proof (Forall2_lookup_lr _ _ _ _ _ _ Hs Hc0 Ho) as HP.
    rewrite Ho. specialize (HPQ _ _ HP).
    destruct (decide (o = te)) as [->|Hne].
    + rewrite bool_decide_eq_true_2 in * by done. done.
    + rewrite bool_decide_eq_false_2 in HPQ by done.
      rewrite bool_decide_eq_false_2 by congruence. done.
Qed.

(** Marking the slots of an id that is not active. *)
Lemma tidy_marked b a l ids te :
  tidy b a l ids -> te ∉ a -> tidy b a (relabel te ids l) ids.
Proof.
  intros (H0 & Hs & Hnd & Ha) Hte. split_and!; [done| |done..].
  eapply relabel_Forall2; [done|]. intros c o (Ho & Hsym & Hact & Hdis).
  case_bool_decide as E; [subst o|done].
  unfold slot_tidy. split; [done|]. split; [auto|]. split; [|done].
  split; [done|by intros ?].
Qed.

(** Marking the slots of an active id and taking it out of the active ids. *)
Lemma tidy_killed b a a' l ids te :
  tidy b a l ids -> list_remove te a = Some a' -> tidy b a' (relabel te ids l) ids.
Proof.
  intros (H0 & Hs & Hnd & Ha) Hrm.
  destruct (list_remove_NoDup _ _ _ Hrm Hnd) as [Hnd' Hout].
  split_and!; [done| |done|].
  - eapply relabel_Forall2; [done|]. intros c o (Ho & Hsym & Hact & Hdis).
    case_bool_decide as E.
    + subst o. unfold slot_tidy. split; [done|]. split; [auto|]. split; [|done].
      split; [done|by intros ?].
    + unfold slot_tidy. split; [done|]. split; [done|]. split.
      * rewrite Hact. split; [intros; by eapply list_remove_other|].
        intros; by eapply list_remove_elem.
      * intros Hne Hn. apply Hdis; [done|]. intros Hin. apply Hn.
        by eapply list_remove_other.
  - apply Forall_forall. intros x Hx. rewrite Forall_forall in Ha.
    eauto using list_remove_elem.
Qed.

Lemma slot_tidy_old a b c o :
  slot_tidy a (b - 1) c o -> slot_tidy (a ++ [b]) b c o.
Proof.
  intros (Ho & Hsym & Hact & Hdis). unfold slot_tidy. split; [lia|].
  split; [done|]. split.
  - rewrite Hact, elem_of_app, list_elem_of_singleton. intuition lia.
  - intros Hne Hn. apply Hdis; [done|]. intros Hin. apply Hn, elem_of_app; auto.
Qed.

Lemma slot_tidy_new a b : 1 <= b -> slot_tidy (a ++ [b]) b active_sym b.
Proof.
  intros Hb. unfold slot_tidy. split; [lia|]. split; [auto|]. split.
  - split; [|done]. intros _. apply elem_of_app; right. by apply list_elem_of_singleton.
  - intros _ Hn. destruct Hn. apply elem_of_app; right. by apply list_elem_of_singleton.
Qed.

Lemma tidy_fresh_active b a l ids :
  tidy (b - 1) a l ids -> NoDup (a ++ [b]) /\ Forall (fun te => 1 <= te <= b) (a ++ [b]).
Proof.
  intros (H0 & Hs & Hnd & Ha). rewrite Forall_forall in Ha. split.
  - apply NoDup_app. split_and!; [done| |apply NoDup_singleton].
    intros x Hx ->%list_elem_of_singleton. specialize (Ha _ Hx). simpl in Ha. lia.
  - apply Forall_app. split.
    + apply Forall_forall. intros x Hx. specialize (Ha _ Hx). simpl in Ha. lia.
    + apply Forall_singleton. lia.
Qed.

(** The two lists of a ListGenome after the splice of [insert_te]. *)
Lemma tidy_spliced b a l ids pos n :
  tidy (b - 1) a l ids ->
  tidy b (a ++ [b])
       ((slice_to l pos ++ replicate n active_sym) ++ slice_from l pos)
       ((slice_to ids pos ++ replicate n b) ++ slice_from ids pos).
Proof.
  intros Ht. destruct (tidy_fresh_active _ _ _ _ Ht) as [Hnd' Ha'].
  destruct Ht as (H0 & Hs & Hnd & Ha).
  pose proof (Forall2_length _ _ _ Hs) as Hlen.
  assert (Forall2 (slot_tidy (a ++ [b]) b) l ids) as Hs'.
  { eapply Forall2_impl; [done|]. intros c o. apply slot_tidy_old. }
  split_and!; [lia| |done..].
  unfold slice_to, slice_from. rewrite Hlen.
  apply Forall2_app; [apply Forall2_app|].
  - by apply Forall2_take.
  - apply Forall2_replicate, slot_tidy_new. lia.
  - by apply Forall2_drop.
Qed.

(** The two lists of a LinkedListGenome after the appends of [insert_te]. *)
Lemma tidy_appended b a l ids n :
  tidy (b - 1) a l ids ->
  tidy b (a ++ [b]) (l ++ replicate n active_sym) (ids ++ replicate n b).
Proof.
  intros Ht. destruct (tidy_fresh_active _ _ _ _ Ht) as [Hnd' Ha'].
  destruct Ht as (H0 & Hs & Hnd & Ha).
  split_and!; [lia| |done..].
  apply Forall2_app.
  - eapply Forall2_impl; [done|]. intros c o. apply slot_tidy_old.
  - apply Forall2_replicate, slot_tidy_new. lia.
Qed.

Lemma list_disable_tidy b te (g g' : ListGenome.t) :
  tidy b g.(ListGenome.active_lst) g.(ListGenome.lst) g.(ListGenome.ID) ->
  state_after (ListGenome.disable_te te g) = Some g' ->
  tidy b g'.(ListGenome.active_lst) g'.(ListGenome.lst) g'.(ListGenome.ID) /\
  g'.(ListGenome.count) = g.(ListGenome.count).
Proof.
  intros Ht. pose proof Ht as (_ & Hs%Forall2_length & _).
  rewrite ListFacts.list_disable_te_lockstep by done.
  destruct (list_remove te _) as [a|] eqn:Hrm; intros [= <-]; simpl; (split; [|done]).
  - by eapply tidy_killed.
  - by apply tidy_marked, list_remove_None.
Qed.

Lemma list_insert_tidy pos length (g g' : ListGenome.t) :
  tidy_state (I := array_backed) g ->
  state_after (ListGenome.insert_te pos length g) = Some g' ->
  tidy_state (I := array_backed) g'.
Proof.
  unfold tidy_state; simpl. intros Ht.
  assert (tidy (ListGenome.count g + 1 - 1) (ListGenome.active_lst g)
               (ListGenome.lst g) (ListGenome.ID g)) as Hb
    by (by replace (ListGenome.count g + 1 - 1) with (ListGenome.count g) by lia).
  rewrite ListFacts.list_insert_te_eq.
  case_bool_decide; [by intros [= <-]|].
  destruct (py_get _ _) as [c|];
    [|intros [= <-]; simpl; eapply tidy_mono; [|done]; lia].
  case_bool_decide; [|intros [= <-]; by apply tidy_spliced].
  destruct (py_get _ _) as [o|];
    [|intros [= <-]; simpl; eapply tidy_mono; [|done]; lia].
  destruct (ListGenome.disable_te o _) as [[] g2|e g2|] eqn:E; [| |done].
  - destruct (list_disable_tidy _ o (ListSteps.bump g) g2 Hb) as [H2 Hc];
      [by rewrite E|].
    intros [= <-]. simpl in *. rewrite Hc. by apply tidy_spliced.
  - destruct (list_disable_tidy _ o (ListSteps.bump g) g2 Hb) as [H2 Hc];
      [by rewrite E|].
    intros [= <-]. simpl in *. rewrite Hc. eapply tidy_mono; [|done]. lia.
Qed.

Lemma linked_disable_tidy b te (g g' : LinkedListGenome.t) :
  tidy b g.(LinkedListGenome.active_lst) g.(LinkedListGenome.lst)
       g.(LinkedListGenome.ID) ->
  state_after (LinkedListGenome.disable_te te g) = Some g' ->
  tidy b g'.(LinkedListGenome.active_lst) g'.(LinkedListGenome.lst)
       g'.(LinkedListGenome.ID) /\
  g'.(LinkedListGenome.count) = g.(LinkedListGenome.count).
Proof.
  intros Ht. pose proof Ht as (_ & Hs%Forall2_length & _).
  rewrite LinkedFacts.linked_disable_te_lockstep by done.
  destruct (list_remove te _) as [a|] eqn:Hrm; intros [= <-]; simpl; (split; [|done]).
  - by eapply tidy_killed.
  - by apply tidy_marked, list_remove_None.
Qed.

Lemma linked_finish_tidy i length (g g' : LinkedListGenome.t) :
  tidy (g.(LinkedListGenome.count) - 1) g.(LinkedListGenome.active_lst)
       g.(LinkedListGenome.lst) g.(LinkedListGenome.ID) ->
  state_after (LinkedSteps.finish i length g) = Some g' ->
  tidy g'.(LinkedListGenome.count) g'.(LinkedListGenome.active_lst)
       g'.(LinkedListGenome.lst) g'.(LinkedListGenome.ID).
Proof.
  intros Ht. unfold LinkedSteps.finish, LinkedSteps.splice.
  destruct (py_get _ _); simpl; [destruct (py_set _ _ _); simpl|];
    intros [= <-]; simpl; try (eapply tidy_mono; [|done]; lia).
  by apply tidy_appended.
Qed.

Lemma linked_insert_tidy fuel pos length (g g' : LinkedListGenome.t) :
  tidy_state (I := linked_slots fuel) g ->
  state_after (LinkedListGenome.insert_te pos length g) = Some g' ->
  tidy_state (I := linked_slots fuel) g'.
Proof.
  unfold tidy_state; simpl. intros Ht.
  assert (tidy (LinkedListGenome.count g + 1 - 1) (LinkedListGenome.active_lst g)
               (LinkedListGenome.lst g) (LinkedListGenome.ID g)) as Hb
    by (by replace (LinkedListGenome.count g + 1 - 1)
             with (LinkedListGenome.count g) by lia).
  rewrite LinkedFacts.linked_insert_te_eq.
  destruct (LinkedListGenome.walk _ _ _) as [i|];
    [|intros [= <-]; simpl; eapply tidy_mono; [|done]; lia].
  destruct (py_get _ _) as [c|];
    [|intros [= <-]; simpl; eapply tidy_mono; [|done]; lia].
  case_bool_decide; [|by apply linked_finish_tidy].
  destruct (py_get _ _) as [o|];
    [|intros [= <-]; simpl; eapply tidy_mono; [|done]; lia].
  destruct (LinkedListGenome.disable_te o _) as [[] g2|e g2|] eqn:E; [| |done].
  - destruct (linked_disable_tidy _ o (LinkedSteps.bump g) g2 Hb) as [H2 Hc];
      [by rewrite E|].
    apply linked_finish_tidy. by rewrite Hc.
  - destruct (linked_disable_tidy _ o (LinkedSteps.bump g) g2 Hb) as [H2 Hc];
      [by rewrite E|].
    intros [= <-]. rewrite Hc. simpl. eapply tidy_mono; [|done]. lia.
Qed.

Lemma tidy_step (I : impl) (o : op) (g g' : state I) :
  tidy_state g -> state_after (step o g) = Some g' -> tidy_state g'.
Proof.
  intros Hg. destruct I as [|fuel], o as [pos length|te offset|te]; simpl;
    rewrite ?state_after_seq.
  - by apply list_insert_tidy.
  - rewrite ListFacts.list_copy_te_eq.
    destruct (list_find _ _) as [[i o]|]; [|by intros [= <-]].
    destruct (_ !! i) as [c|]; [|by intros [= <-]].
    case_bool_decide; [by intros [= <-]|].
    rewrite state_after_fmap. by apply list_insert_tidy.
  - intros Hs. destruct (list_disable_tidy _ te g g' Hg Hs) as [H' Hc].
    unfold tidy_state; simpl in *. by rewrite Hc.
  - by apply linked_insert_tidy.
  - destruct (LinkedFacts.linked_copy_te_cases fuel te offset g)
      as [[_ E]|[_ [E|[E|(p & n & Hn & E)]]]]; rewrite E; try (by intros [= <-]).
    rewrite state_after_fmap. by apply linked_insert_tidy.
  - intros Hs. destruct (linked_disable_tidy _ te g g' Hg Hs) as [H' Hc].
    unfold tidy_state; simpl in *. by rewrite Hc.
Qed.

Lemma tidy_new (I : impl) (n : Z) : tidy_state (new (G := state I) n).
Proof.
  destruct I; unfold tidy_state, tidy; simpl;
    (split_and!; [done| |constructor|constructor]);
    apply Forall2_replicate; unfold slot_tidy;
    (split; [lia|]); (split; [auto|]); (split; [|done]);
    (split; [done|by intros ?%elem_of_nil]).
Qed.

Lemma tidy_reachable (I : impl) (n : Z) (ops : list op) (g : state I) :
  g ∈ run (new n) ops -> tidy_state g.
Proof.
  intros Hg.
  assert (Forall tidy_state (run (new (G := state I) n) ops)) as Hall.
  { apply (run_invariant tidy_state (fun _ => True)
             (fun o g g' _ => tidy_step I o g g')).
    - by apply Forall_true.
    - apply tidy_new. }
  rewrite Forall_forall in Hall. by apply Hall.
Qed.

(** X1. Every genome of either class that a program can hold is tidy: no id
    is twice in [active_tes()], every active id lies between 1 and the
    counter, [self.lst] and [self.ID] are equally long, every symbol is
    ["-"], ["A"] or ["x"], a position reads ["A"] exactly when its owner is
    active, and a position owned by an id other than 0 that is not active
    reads ["x"]. *)
Theorem tidy_run (I : impl) (n : Z) (ops : list op) (g : state I) :
  g ∈ run (new n) ops ->
  NoDup (active_tes g) /\
  Forall (fun te => 1 <= te <= counter g) (active_tes g) /\
  Forall2 (fun c o =>
             0 <= o <= counter g /\
             (c = empty_sym \/ c = active_sym \/ c = disabled_sym) /\
             (c = active_sym <-> o ∈ active_tes g) /\
             (o <> 0 -> o ∉ active_tes g -> c = disabled_sym))
          (symbols g) (owners g).
Proof.
  intros Hg. destruct (tidy_reachable I n ops g Hg) as (_ & Hs & Hnd & Ha). done.
Qed.

Lemma tidy_run_witness :
  let g : state (linked_slots 4) :=
    LinkedListGenome.mk ["-"; "-"; "x"; "A"]%char [3; 2; 0; 1] [0; 0; 1; 2] [2] 2 in
  NoDup (active_tes g) /\
  Forall (fun te => 1 <= te <= counter g) (active_tes g) /\
  Forall2 (fun c o =>
             0 <= o <= counter g /\
             (c = empty_sym \/ c = active_sym \/ c = disabled_sym) /\
             (c = active_sym <-> o ∈ active_tes g) /\
             (o <> 0 -> o ∉ active_tes g -> c = disabled_sym))
          (symbols g) (owners g).
Proof.
  apply (tidy_run (linked_slots 4) 2 [InsertTe 2 1; DisableTe 1; InsertTe 1 1]).
  apply list_elem_of_lookup. exists 3%nat. reflexivity.
Defined.

(** ** The positions of a genome *)

Lemma list_remove_filter te a a' :
  NoDup a -> list_remove te a = Some a' -> a' = filter (fun x => x <> te) a.
Proof.
  revert a'. induction a as [|y a IH]; intros a' Hnd; simpl; [done|].
  apply NoDup_cons in Hnd as [Hy Hnd]. case_bool_decide as E.
  - intros [= <-]. subst y. rewrite filter_cons_False by (intros ?; done).
    clear IH. induction a as [|z a IH]; [done|].
    apply not_elem_of_cons in Hy as [? ?]. apply NoDup_cons in Hnd as [? ?].
    rewrite filter_cons_True by congruence. f_equal. auto.
  - destruct (list_remove te a) as [a0|]; intros; simplify_eq/=.
    rewrite filter_cons_True by done. f_equal. auto.
Qed.

Lemma filter_ne_absent te (a : list Z) : te ∉ a -> filter (fun x => x <> te) a = a.
Proof.
  induction a as [|z a IH]; [done|]. intros [? ?]%not_elem_of_cons.
  rewrite filter_cons_True by congruence. f_equal. auto.
Qed.

Lemma cell_in_range l ids s :
  0 <= s < len l -> length ids = length l ->
  cell l ids s = (c ← l !! Z.to_nat s; o ← ids !! Z.to_nat s; Some (c, o)).
Proof.
  intros Hs Hlen. unfold cell.
  rewrite !py_get_in_range by (unfold len in *; lia). done.
Qed.

Lemma linked_positions_ring (g : LinkedListGenome.t) slots :
  path g.(LinkedListGenome.index_next) 0 slots 0 ->
  length slots = length g.(LinkedListGenome.lst) ->
  (forall x, x ∈ slots -> 0 <= x < len g.(LinkedListGenome.lst)) ->
  length g.(LinkedListGenome.ID) = length g.(LinkedListGenome.lst) ->
  exists v, positions (I := linked_slots 0) g = Some v /\
            along g.(LinkedListGenome.lst) g.(LinkedListGenome.ID) slots v.
Proof.
  intros Hp Hlen Hin Hid. simpl.
  destruct (path_run _ _ _ _ Hp) as [Ho _]. rewrite Hlen in Ho. rewrite Ho. simpl.
  destruct (mapM_is_Some_2 (cell (LinkedListGenome.lst g) (LinkedListGenome.ID g)) slots)
    as [v Hv].
  { apply Forall_forall. intros s Hs. specialize (Hin s Hs). simpl.
    rewrite cell_in_range by done.
    destruct (lookup_lt_is_Some_2 (LinkedListGenome.lst g) (Z.to_nat s)) as [c ->];
      [unfold len in Hin; lia|].
    destruct (lookup_lt_is_Some_2 (LinkedListGenome.ID g) (Z.to_nat s)) as [o ->];
      [unfold len in Hin; lia|].
    done. }
  exists v. split; [done|]. apply mapM_Some_1 in Hv.
  apply Forall2_same_length_lookup. split; [by apply Forall2_length in Hv|].
  intros i s [c o] Hs Hp'. pose proof (Forall2_lookup_lr _ _ _ _ _ _ Hv Hs Hp') as Hc.
  simpl in Hc. rewrite cell_in_range in Hc by eauto using list_elem_of_lookup_2.
  destruct (LinkedListGenome.lst g !! Z.to_nat s); simpl in Hc; [|done].
  destruct (LinkedListGenome.ID g !! Z.to_nat s); simpl in Hc; [|done].
  by simplify_eq.
Qed.

Lemma collect_path (g : LinkedListGenome.t) l : forall a b acc cs,
  path g.(LinkedListGenome.index_next) a l b ->
  Forall2 (fun s c => py_get g.(LinkedListGenome.lst) s = Some c) l cs ->
  LinkedListGenome.collect (length l) a (LinkedListGenome.with_new g acc)
  = Return tt (LinkedListGenome.with_new g (acc ++ cs)).
Proof.
  induction l as [|x l IH]; intros a b acc cs Hp Hcs.
  - apply Forall2_nil_inv_l in Hcs as ->. simpl. by rewrite app_nil_r.
  - apply Forall2_cons_inv_l in Hcs as (c & cs' & Hc & Hcs & ->).
    destruct Hp as (-> & y & Hy & Hp). simpl.
    unfold mbind, M_bind, get, modify; simpl. rewrite Hc; simpl. rewrite Hy; simpl.
    rewrite (IH y b (acc ++ [c]) cs') by done. by rewrite <- app_assoc.
Qed.

(** What [__str__] does to a LinkedListGenome whose lists are in step,
    whatever [self.new] was: it returns the symbols of the positions, which
    it leaves in [self.new], and nothing else of the object changes. *)
Lemma linked_str_new_positions (g : LinkedListGenome.t) slots v old :
  path g.(LinkedListGenome.index_next) 0 slots 0 ->
  length slots = length g.(LinkedListGenome.lst) ->
  (forall x, x ∈ slots -> 0 <= x < len g.(LinkedListGenome.lst)) ->
  along g.(LinkedListGenome.lst) g.(LinkedListGenome.ID) slots v ->
  LinkedListGenome.__str__new (LinkedListGenome.with_new g old)
  = Return (String.string_of_list_ascii v.*1) (LinkedListGenome.with_new g v.*1).
Proof.
  intros Hp Hlen Hin Hv.
  unfold LinkedListGenome.__str__new, mbind, M_bind, get, modify; simpl.
  rewrite <- Hlen. rewrite (collect_path g slots 0 0 [] v.*1 Hp); [done|].
  apply Forall2_fmap_r. apply Forall2_same_length_lookup.
  split; [by apply Forall2_length in Hv|].
  intros i s p Hs Hp'. destruct (Forall2_lookup_lr _ _ _ _ _ _ Hv Hs Hp') as [Hc _].
  rewrite py_get_in_range by eauto using list_elem_of_lookup_2. done.
Qed.

(** What [__str__] returns for a LinkedListGenome whose lists are in step:
    the symbols of its positions. *)
Lemma linked_str_positions (g : LinkedListGenome.t) slots v :
  path g.(LinkedListGenome.index_next) 0 slots 0 ->
  length slots = length g.(LinkedListGenome.lst) ->
  (forall x, x ∈ slots -> 0 <= x < len g.(LinkedListGenome.lst)) ->
  along g.(LinkedListGenome.lst) g.(LinkedListGenome.ID) slots v ->
  LinkedListGenome.__str__ g = Return (String.string_of_list_ascii v.*1) g.
Proof.
  intros Hp Hlen Hin Hv. unfold LinkedListGenome.__str__.
  by rewrite (linked_str_new_positions g slots v [] Hp Hlen Hin Hv).
Qed.

(** The shape of every LinkedListGenome reached by calls that insert at
    least one position each. *)
Lemma linked_shape fuel (n : Z) (ops : list op) (g : state (linked_slots fuel)) :
  Forall positive_length ops -> g ∈ run (new n) ops ->
  exists slots v,
    path g.(LinkedListGenome.index_next) 0 slots 0 /\ NoDup slots /\
    length slots = length g.(LinkedListGenome.lst) /\
    (forall x, x ∈ slots <-> 0 <= x < len g.(LinkedListGenome.lst)) /\
    length g.(LinkedListGenome.ID) = length g.(LinkedListGenome.lst) /\
    length g.(LinkedListGenome.index_next) = length g.(LinkedListGenome.lst) /\
    positions g = Some v /\
    along g.(LinkedListGenome.lst) g.(LinkedListGenome.ID) slots v.
Proof.
  intros Hok Hg.
  destruct (linked_owned_run fuel n ops g Hok Hg)
    as ((Hid & Hnx & slots & Hp & Hnd & Hlen & Hin) & _).
  assert (forall x, x ∈ slots <-> 0 <= x < len (LinkedListGenome.lst g)) as Hin'.
  { intros x. rewrite Hin. unfold len. by rewrite Hnx. }
  destruct (linked_positions_ring g slots) as (v & Hv & Hal);
    [done|congruence|by intros x ?%Hin'|done|].
  exists slots, v. split_and!; try done; congruence.
Qed.

Lemma all_equal_replicate {A} (x : A) (v : list A) :
  (forall y, y ∈ v -> y = x) -> v = replicate (length v) x.
Proof.
  induction v as [|y v IH]; intros Hall; simpl; [done|].
  rewrite (Hall y) by (apply elem_of_cons; auto). f_equal.
  apply IH. intros z Hz. apply Hall, elem_of_cons; auto.
Qed.

(** X2. A genome of either class created with size [n] has [n] positions
    (none for a negative [n]), all empty and owned by id 0; it renders as
    that many ["-"], its length is that number, no id is active and the
    counter is 0. *)
Theorem new_genome (I : impl) (n : Z) :
  let g := new (G := state I) n in
  positions g = Some (replicate (Z.to_nat n) (empty_sym, 0)) /\
  __str__ g = Return (String.string_of_list_ascii (replicate (Z.to_nat n) empty_sym)) g /\
  __len__ g = Z.max 0 n /\
  active_tes g = [] /\
  counter g = 0.
Proof.
  destruct I as [|fuel]; cbv zeta.
  - simpl. unfold ListGenome.__str__, ListGenome.__len__, len; simpl.
    rewrite length_replicate, zip_with_replicate.
    split_and!; try done. lia.
  - destruct (lockstep_new (linked_slots fuel) n) as (Hid & Hnx & slots & Hp & Hnd & Hlen & Hin).
    set (g := new (G := state (linked_slots fuel)) n) in *.
    assert (length (LinkedListGenome.lst g) = Z.to_nat n) as HN
      by (simpl; apply length_replicate).
    destruct (linked_positions_ring g slots) as (v & Hv & Hal);
      [done|congruence| |congruence|].
    { intros x Hx%Hin. unfold len in *. by rewrite <- Hnx. }
    assert (v = replicate (Z.to_nat n) (empty_sym, 0)) as ->.
    { rewrite <- HN, <- Hnx, <- Hlen, (Forall2_length _ _ _ Hal).
      apply all_equal_replicate. intros [c o] (i & Hi)%list_elem_of_lookup.
      destruct (Forall2_lookup_r _ _ _ _ _ Hal Hi) as (s & _ & Hc & Ho).
      simpl in Hc, Ho.
      apply list_elem_of_lookup_2, elem_of_replicate in Hc as [-> _].
      apply list_elem_of_lookup_2, elem_of_replicate in Ho as [-> _]. done. }
    split_and!; try done.
    + pose proof (linked_str_positions g slots
                    (replicate (Z.to_nat n) (empty_sym, 0)) Hp) as Hstr.
      rewrite fmap_replicate in Hstr. apply Hstr; [congruence| |done].
      intros x Hx%Hin. unfold len in *. by rewrite <- Hnx.
    + simpl. unfold LinkedListGenome.__len__, len. simpl.
      rewrite length_replicate. lia.
Qed.

Lemma linked_positions_along (g : LinkedListGenome.t) slots v :
  path g.(LinkedListGenome.index_next) 0 slots 0 ->
  length slots = length g.(LinkedListGenome.lst) ->
  (forall x, x ∈ slots -> 0 <= x < len g.(LinkedListGenome.lst)) ->
  length g.(LinkedListGenome.ID) = length g.(LinkedListGenome.lst) ->
  along g.(LinkedListGenome.lst) g.(LinkedListGenome.ID) slots v ->
  positions (I := linked_slots 0) g = Some v.
Proof.
  intros Hp Hlen Hin Hid Hal. simpl.
  destruct (path_run _ _ _ _ Hp) as [Ho _]. rewrite Hlen in Ho. rewrite Ho. simpl.
  apply mapM_Some_2. apply Forall2_same_length_lookup.
  split; [by apply Forall2_length in Hal|].
  intros i s [c o] Hs Hp'.
  destruct (Forall2_lookup_lr _ _ _ _ _ _ Hal Hs Hp') as [Hc Ho']. simpl in *.
  rewrite cell_in_range by eauto using list_elem_of_lookup_2.
  by rewrite Hc, Ho'.
Qed.

Lemma along_relabel te l ids slots v :
  along l ids slots v -> along (relabel te ids l) ids slots (mark te <$> v).
Proof.
  intros Hal. apply Forall2_fmap_r. eapply Forall2_impl; [exact Hal|].
  intros s [c o] [Hc Ho]; simpl in *. split; [|done].
  rewrite relabel_lookup, Hc, Ho. simpl. f_equal.
  destruct (decide (o = te)) as [->|Hne].
  - by rewrite !bool_decide_eq_true_2.
  - rewrite !bool_decide_eq_false_2; [done..|congruence].
Qed.

Lemma zip_relabel te (l : list ascii) (ids : list Z) :
  zip (relabel te ids l) ids = mark te <$> zip l ids.
Proof.
  apply list_eq. intros i.
  rewrite list_lookup_fmap, !lookup_zip_with, relabel_lookup.
  destruct (l !! i) as [c|]; simpl; [|done].
  destruct (ids !! i) as [o|] eqn:Ho; simpl; [|done].
  unfold mark; simpl. do 2 f_equal.
  destruct (decide (o = te)) as [->|Hne].
  - by rewrite !bool_decide_eq_true_2.
  - rewrite !bool_decide_eq_false_2; [done..|congruence].
Qed.

(** X3. On every genome reached by calls that insert at least one position
    each, [__str__] returns without raising: the string has one character
    for each position, its symbol, from position 0 on, and [__len__] is the
    number of positions. The call leaves the attributes that the methods
    use as they were. The ListGenome assigns nothing; the LinkedListGenome
    assigns its attribute [self.new] and nothing else: whatever it held
    before, it holds the characters of the string afterwards. *)
Theorem render_positions (I : impl) (n : Z) (ops : list op) (g : state I) :
  Forall positive_length ops -> g ∈ run (new n) ops ->
  exists v,
    positions g = Some v /\
    __str__ g = Return (String.string_of_list_ascii v.*1) g /\
    __len__ g = len v /\
    match I return state I -> Prop with
    | array_backed => fun _ => True
    | linked_slots _ => fun g =>
        forall old,
          LinkedListGenome.__str__new (LinkedListGenome.with_new g old)
          = Return (String.string_of_list_ascii v.*1)
                   (LinkedListGenome.with_new g v.*1)
    end g.
Proof.
  intros Hok Hg. destruct I as [|fuel].
  - destruct (tidy_reachable array_backed n ops g Hg) as (_ & Hs%Forall2_length & _).
    simpl in Hs. eexists. split; [done|]. simpl.
    unfold ListGenome.__str__, ListGenome.__len__, len, mbind, M_bind, get; simpl.
    rewrite fst_zip by lia. rewrite length_zip_with_l_eq by done. done.
  - destruct (linked_shape fuel n ops g Hok Hg)
      as (slots & v & Hp & Hnd & Hlen & Hin & Hid & Hnx & Hv & Hal).
    exists v. split_and!; [done| | |].
    + apply (linked_str_positions g slots v Hp Hlen); [|done]. by intros x ?%Hin.
    + simpl. unfold LinkedListGenome.__len__, len.
      by rewrite <- Hlen, (Forall2_length _ _ _ Hal).
    + intros old.
      apply (linked_str_new_positions g slots v old Hp Hlen); [|done].
      by intros x ?%Hin.
Qed.

Lemma render_positions_witness :
  exists v,
    positions (I := linked_slots 4)
      (LinkedListGenome.mk ["-"; "-"; "A"; "A"]%char [2; 0; 3; 1] [0; 0; 1; 1] [1] 1)
    = Some v /\
    __str__ (G := state (linked_slots 4))
      (LinkedListGenome.mk ["-"; "-"; "A"; "A"]%char [2; 0; 3; 1] [0; 0; 1; 1] [1] 1)
    = Return (String.string_of_list_ascii v.*1)
        (LinkedListGenome.mk ["-"; "-"; "A"; "A"]%char [2; 0; 3; 1] [0; 0; 1; 1] [1] 1) /\
    __len__ (G := state (linked_slots 4))
      (LinkedListGenome.mk ["-"; "-"; "A"; "A"]%char [2; 0; 3; 1] [0; 0; 1; 1] [1] 1)
    = len v /\
    forall old,
      LinkedListGenome.__str__new
        (LinkedListGenome.with_new
           (LinkedListGenome.mk ["-"; "-"; "A"; "A"]%char [2; 0; 3; 1] [0; 0; 1; 1] [1] 1)
           old)
      = Return (String.string_of_list_ascii v.*1)
          (LinkedListGenome.with_new
             (LinkedListGenome.mk ["-"; "-"; "A"; "A"]%char [2; 0; 3; 1] [0; 0; 1; 1] [1] 1)
             v.*1).
Proof.
  apply (render_positions (linked_slots 4) 2 [InsertTe 1 2]).
  - apply Forall_cons. split; [simpl; lia|apply Forall_nil_2].
  - apply list_elem_of_lookup. exists 1%nat. reflexivity.
Defined.

(** X4. On every genome reached by calls that insert at least one position
    each, [disable_te] of an active id returns, every position owned by
    the id reads ["x"] afterwards, every other position is as before, the id
    is taken out of [active_tes()] and the other ids keep their order. *)
Theorem disable_te_active (I : impl) (n : Z) (ops : list op) (g : state I)
    (te : Z) (v : list (ascii * Z)) :
  Forall positive_length ops -> g ∈ run (new n) ops ->
  positions g = Some v -> te ∈ active_tes g ->
  exists g',
    disable_te te g = Return tt g' /\
    positions g' = Some (mark te <$> v) /\
    active_tes g' = filter (fun x => x <> te) (active_tes g) /\
    (te ∉ active_tes g') /\
    counter g' = counter g.
Proof.
  intros Hok Hg Hv Hte.
  destruct (tidy_reachable I n ops g Hg) as (_ & Hs & Hnd & _).
  apply Forall2_length in Hs.
  destruct (list_remove_Some te (active_tes g) Hte) as [a Hrm].
  pose proof (list_remove_filter _ _ _ Hnd Hrm) as Ha.
  destruct (list_remove_NoDup _ _ _ Hrm Hnd) as [_ Hout].
  destruct I as [|fuel]; simpl in *;
    unfold ListGenome.active_tes, LinkedListGenome.active_tes in *.
  - eexists. rewrite ListFacts.list_disable_te_lockstep, Hrm by done.
    split; [done|]. simpl.
    injection Hv as <-. by rewrite zip_relabel.
  - destruct (linked_shape fuel n ops g Hok Hg)
      as (slots & v' & Hp & _ & Hlen & Hin & Hid & _ & Hv' & Hal).
    simpl in Hv'. rewrite Hv in Hv'. injection Hv' as <-.
    eexists. rewrite LinkedFacts.linked_disable_te_lockstep, Hrm by done.
    split; [done|]. simpl.
    split; [|done].
    apply (linked_positions_along
             (LinkedListGenome.set_active_lst a (LinkedSteps.marked te g)) slots);
      simpl; rewrite ?relabel_length; try done.
    + intros x Hx%Hin. unfold len in *. by rewrite relabel_length.
    + by apply along_relabel.
Qed.

Lemma disable_te_active_witness :
  let g : state array_backed :=
    ListGenome.mk ["-"; "A"; "A"; "-"]%char [0; 1; 1; 0] [1] 1 in
  exists g',
    disable_te 1 g = Return tt g' /\
    positions g' =
      Some (mark 1 <$> [("-", 0); ("A", 1); ("A", 1); ("-", 0)]%char) /\
    active_tes g' = filter (fun x => x <> 1) (active_tes g) /\
    (1 ∉ active_tes g') /\
    counter g' = counter g.
Proof.
  apply (disable_te_active array_backed 2 [InsertTe 1 2]).
  - apply Forall_cons. split; [simpl; lia|apply Forall_nil_2].
  - apply list_elem_of_lookup. exists 1%nat. reflexivity.
  - reflexivity.
  - apply list_elem_of_singleton. reflexivity.
Defined.

Lemma list_remove_absent te a : te ∉ a -> list_remove te a = None.
Proof.
  intros Hout. destruct (list_remove te a) eqn:E; [|done].
  destruct Hout. by eapply list_remove_Some_inv.
Qed.

Lemma relabel_id te ids l :
  Forall2 (fun c o => o = te -> c = disabled_sym) l ids -> relabel te ids l = l.
Proof.
  intros Hs. apply list_eq. intros i. rewrite relabel_lookup.
  destruct (l !! i) as [c|] eqn:Hc; simpl; [|done].
  destruct (Forall2_lookup_l _ _ _ _ _ Hs Hc) as (o & Ho & Hx).
  rewrite Ho. case_bool_decide as E; [|done].
  injection E as ->. by rewrite Hx.
Qed.

(** X5. On every genome a program can hold, [disable_te] of an id other than
    0 that is not active (disabled before, or never handed out) raises
    [ValueError] and leaves the object exactly as it was. *)
Theorem disable_te_inactive (I : impl) (n : Z) (ops : list op) (g : state I) (te : Z) :
  g ∈ run (new n) ops -> te ∉ active_tes g -> te <> 0 ->
  disable_te te g = Raise ValueError g.
Proof.
  intros Hg Hte H0.
  destruct (tidy_reachable I n ops g Hg) as (_ & Hs & _).
  assert (relabel te (owners g) (symbols g) = symbols g) as Hid.
  { apply relabel_id. eapply Forall2_impl; [exact Hs|].
    intros c o (_ & _ & _ & Hdis) ->. by apply Hdis. }
  apply Forall2_length in Hs.
  destruct I as [|fuel]; simpl in *.
  - rewrite ListFacts.list_disable_te_lockstep by done.
    rewrite list_remove_absent by done. unfold ListSteps.marked. rewrite Hid.
    by destruct g.
  - rewrite LinkedFacts.linked_disable_te_lockstep by done.
    rewrite list_remove_absent by done. unfold LinkedSteps.marked. rewrite Hid.
    by destruct g.
Qed.

Lemma disable_te_inactive_witness :
  disable_te (G := state (linked_slots 4)) 1
    (LinkedListGenome.mk ["-"; "-"; "x"]%char [1; 2; 0] [0; 0; 1] [] 1)
  = Raise ValueError
      (LinkedListGenome.mk ["-"; "-"; "x"]%char [1; 2; 0] [0; 0; 1] [] 1).
Proof.
  apply (disable_te_inactive (linked_slots 4) 2 [InsertTe 2 1; DisableTe 1]).
  - apply list_elem_of_lookup. exists 2%nat. reflexivity.
  - apply not_elem_of_nil.
  - discriminate.
Defined.

(** X6. On every genome a program can hold, [disable_te(0)] raises
    [ValueError] only after it has rewritten the positions owned by id 0:
    afterwards no position reads ["-"], while the positions of the other
    owners, the owners, the active ids and the counter are as before. *)
Theorem disable_te_zero (I : impl) (n : Z) (ops : list op) (g : state I) :
  g ∈ run (new n) ops ->
  exists g',
    disable_te 0 g = Raise ValueError g' /\
    (empty_sym ∉ symbols g') /\
    length (symbols g') = length (symbols g) /\
    (forall i c o, symbols g !! i = Some c -> owners g !! i = Some o -> o <> 0 ->
                   symbols g' !! i = Some c) /\
    owners g' = owners g /\
    active_tes g' = active_tes g /\
    counter g' = counter g.
Proof.
  intros Hg.
  destruct (tidy_reachable I n ops g Hg) as (_ & Hs & _ & Ha).
  assert (0 ∉ active_tes g) as H0.
  { intros Hin. rewrite Forall_forall in Ha. specialize (Ha _ Hin). simpl in Ha. lia. }
  assert (empty_sym ∉ relabel 0 (owners g) (symbols g)) as Hno.
  { intros (i & Hi)%list_elem_of_lookup. rewrite relabel_lookup in Hi.
    destruct (symbols g !! i) as [c|] eqn:Hc; simpl in Hi; [|done].
    destruct (Forall2_lookup_l _ _ _ _ _ Hs Hc) as (o & Ho & _ & _ & Hact & Hdis).
    rewrite Ho in Hi. case_bool_decide as E; [done|]. injection Hi as ->.
    assert (o ∉ active_tes g) as Hout by (intros Hin; by apply Hact in Hin).
    assert (o <> 0) as Hne by congruence.
    by specialize (Hdis Hne Hout). }
  assert (forall i c o, symbols g !! i = Some c -> owners g !! i = Some o -> o <> 0 ->
                        relabel 0 (owners g) (symbols g) !! i = Some c) as Hkeep.
  { intros i c o Hc Ho Hne. rewrite relabel_lookup, Hc, Ho. simpl.
    rewrite bool_decide_eq_false_2; [done|congruence]. }
  apply Forall2_length in Hs.
  destruct I as [|fuel]; simpl in *.
  - rewrite ListFacts.list_disable_te_lockstep by done.
    rewrite list_remove_absent by done. eexists. split; [done|]. simpl.
    rewrite relabel_length. done.
  - rewrite LinkedFacts.linked_disable_te_lockstep by done.
    rewrite list_remove_absent by done. eexists. split; [done|]. simpl.
    rewrite relabel_length. done.
Qed.

Lemma disable_te_zero_witness :
  let g : state array_backed :=
    ListGenome.mk ["-"; "A"; "-"]%char [0; 1; 0] [1] 1 in
  exists g',
    disable_te 0 g = Raise ValueError g' /\
    (empty_sym ∉ symbols g') /\
    length (symbols g') = length (symbols g) /\
    (forall i c o, symbols g !! i = Some c -> owners g !! i = Some o -> o <> 0 ->
                   symbols g' !! i = Some c) /\
    owners g' = owners g /\
    active_tes g' = active_tes g /\
    counter g' = counter g.
Proof.
  apply (disable_te_zero array_backed 2 [InsertTe 1 1]).
  apply list_elem_of_lookup. exists 1%nat. reflexivity.
Defined.

(** ** Walking the ring *)

Lemma walk_add nx j : forall k a,
  LinkedListGenome.walk nx (j + k) a =
  LinkedListGenome.walk nx j a ≫= LinkedListGenome.walk nx k.
Proof.
  induction j as [|j IH]; intros k a; simpl; [done|].
  destruct (py_get nx a) as [b|]; simpl; [|done]. apply IH.
Qed.

Lemma walk_path nx l : forall a b k x,
  path nx a l b -> l !! k = Some x -> LinkedListGenome.walk nx k a = Some x.
Proof.
  induction l as [|y l IH]; intros a b k x Hp Hk; [done|].
  destruct Hp as (-> & z & Hz & Hp). destruct k as [|k]; simpl in *.
  - by injection Hk as ->.
  - rewrite Hz. simpl. by eapply IH.
Qed.

(** On a ring, [k] steps from slot 0 end at the slot of position
    [k mod N]. *)
Lemma walk_ring nx slots k x :
  path nx 0 slots 0 -> slots !! (k mod length slots)%nat = Some x ->
  LinkedListGenome.walk nx k 0 = Some x.
Proof.
  intros Hp Hx. pose proof (lookup_lt_Some _ _ _ Hx) as Hlt.
  assert (length slots <> 0)%nat as Hn by lia.
  rewrite (Nat.div_mod_eq k (length slots)).
  generalize (k / length slots)%nat as d. intros d.
  induction d as [|d IH].
  - rewrite Nat.mul_0_r. simpl. by apply (walk_path nx slots 0 0).
  - replace (length slots * S d + k mod length slots)%nat
      with (length slots + (length slots * d + k mod length slots))%nat by lia.
    rewrite walk_add. destruct (path_run _ _ _ _ Hp) as [_ ->]. simpl. exact IH.
Qed.

(** The ring after [m] new slots have been linked in after the slot [i] of
    position [length l1]: the new slots follow [i]. *)
Lemma path_splice nx l1 i l2 old (m : nat) :
  path nx 0 (l1 ++ i :: l2) 0 -> NoDup (l1 ++ i :: l2) ->
  (forall x, x ∈ l1 ++ i :: l2 <-> 0 <= x < len nx) ->
  py_get nx i = Some old -> (1 <= m)%nat ->
  path (LinkedListGenome.append_links (m - 1) (<[Z.to_nat i := len nx]> nx) ++ [old])
       0 (l1 ++ [i] ++ seqZ (len nx) (Z.of_nat m) ++ l2) 0.
Proof.
  intros Hp Hnd Hin Hold Hm.
  assert (0 <= i < len nx) as Hi by (apply Hin, elem_of_app; right; apply elem_of_cons; auto).
  set (N := len nx) in *.
  rewrite append_links_seqZ. unfold len at 1. rewrite length_insert. fold (len nx) N.
  set (nx' := (_ ++ _) ++ _).
  assert (length nx' = (length nx + m)%nat) as Hlen'.
  { unfold nx'. rewrite !length_app, length_insert, length_seqZ. simpl. lia. }
  assert (forall x, 0 <= x < N + Z.of_nat m -> 0 <= x < len nx') as Hrange.
  { intros x Hx. unfold len. rewrite Hlen'. unfold N, len in Hx. lia. }
  assert (forall x, 0 <= x < N -> 0 <= x < len nx) as HrangeN by done.
  assert (forall x, 0 <= x < N -> (Z.to_nat x < length nx)%nat) as Hnat.
  { intros x Hx. unfold N, len in Hx. lia. }
  assert (forall x, 0 <= x < N -> x <> i -> py_get nx' x = py_get nx x) as Hsame.
  { intros x Hx Hne.
    rewrite (py_get_in_range nx') by (apply Hrange; lia).
    rewrite (py_get_in_range nx) by auto.
    unfold nx'. rewrite <- app_assoc.
    rewrite lookup_app_l by (rewrite length_insert; auto).
    apply list_lookup_insert_ne. lia. }
  assert (py_get nx' i = Some N) as Hi'.
  { rewrite (py_get_in_range nx') by (apply Hrange; lia).
    unfold nx'. rewrite <- app_assoc.
    rewrite lookup_app_l by (rewrite length_insert; auto).
    apply list_lookup_insert_eq. auto. }
  assert (forall j, 0 <= j < Z.of_nat m - 1 -> py_get nx' (N + j) = Some (N + j + 1)) as Hnew.
  { intros j Hj. rewrite (py_get_in_range nx') by (apply Hrange; lia).
    unfold nx'. rewrite <- app_assoc.
    rewrite lookup_app_r by (rewrite length_insert; unfold N, len; lia).
    rewrite length_insert.
    rewrite lookup_app_l by (rewrite length_seqZ; unfold N, len; lia).
    rewrite lookup_seqZ_lt by (unfold N, len; lia).
    f_equal. unfold N, len. lia. }
  assert (py_get nx' (N + Z.of_nat m - 1) = Some old) as Hlast.
  { rewrite (py_get_in_range nx') by (apply Hrange; lia).
    unfold nx'. rewrite lookup_app_r
      by (rewrite length_app, length_insert, length_seqZ; unfold N, len; lia).
    rewrite length_app, length_insert, length_seqZ.
    replace (_ - _)%nat with 0%nat by (unfold N, len; lia). done. }
  apply path_app in Hp as (a & Hp1 & Hp2). simpl in Hp2.
  destruct Hp2 as (-> & y & Hy & Hp2). rewrite Hold in Hy. injection Hy as <-.
  apply NoDup_app in Hnd as (Hnd1 & Hdisj & Hnd2).
  apply NoDup_cons in Hnd2 as [Hi2 Hnd2].
  apply path_app. exists a. split.
  { apply (path_ext nx); [|done]. intros x Hx. apply Hsame.
    - apply Hin, elem_of_app; auto.
    - intros ->. apply (Hdisj a Hx), elem_of_cons; auto. }
  apply path_app. exists N. split; [simpl; eauto|].
  apply path_app. exists old. split; [by apply path_consecutive|].
  apply (path_ext nx); [|done]. intros x Hx. apply Hsame.
  - apply Hin, elem_of_app. right. apply elem_of_cons; auto.
  - by intros ->.
Qed.

(** ** LinkedListGenome: [insert_te] in terms of positions *)

Lemma along_old l ids l' ids' slots v :
  along l ids slots v -> along (l ++ l') (ids ++ ids') slots v.
Proof.
  intros Hal. eapply Forall2_impl; [exact Hal|].
  intros s p [Hc Ho]. split; by apply lookup_app_l_Some.
Qed.

Lemma along_new (l : list ascii) (ids : list Z) (m : nat) c o :
  length ids = length l ->
  along (l ++ replicate m c) (ids ++ replicate m o)
        (seqZ (len l) (Z.of_nat m)) (replicate m (c, o)).
Proof.
  intros Hlen. apply Forall2_same_length_lookup. split.
  - rewrite length_seqZ, length_replicate. lia.
  - intros j s p [-> Hj]%lookup_seqZ [-> _]%lookup_replicate. simpl.
    replace (Z.to_nat (len l + Z.of_nat j)) with (length l + j)%nat
      by (unfold len; lia).
    split.
    + rewrite lookup_app_r by lia.
      replace (length l + j - length l)%nat with j by lia.
      apply lookup_replicate_2. lia.
    + rewrite <- Hlen at 1. rewrite lookup_app_r by lia.
      replace (length ids + j - length ids)%nat with j by lia.
      apply lookup_replicate_2. lia.
Qed.

(** The end of [insert_te] on a ring: it returns, and the new positions come
    right after position [q], the position of slot [i]. *)
Lemma linked_finish_positions (g : LinkedListGenome.t) slots v q i length :
  path g.(LinkedListGenome.index_next) 0 slots 0 -> NoDup slots ->
  List.length slots = List.length g.(LinkedListGenome.lst) ->
  (forall x, x ∈ slots <-> 0 <= x < len g.(LinkedListGenome.lst)) ->
  List.length g.(LinkedListGenome.ID) = List.length g.(LinkedListGenome.lst) ->
  List.length g.(LinkedListGenome.index_next) = List.length g.(LinkedListGenome.lst) ->
  along g.(LinkedListGenome.lst) g.(LinkedListGenome.ID) slots v ->
  slots !! q = Some i -> 1 <= length ->
  exists g',
    LinkedSteps.finish i length g = Return g.(LinkedListGenome.count) g' /\
    positions (I := linked_slots 0) g' =
      Some (put_in v (S q) length g.(LinkedListGenome.count)) /\
    g'.(LinkedListGenome.active_lst) =
      g.(LinkedListGenome.active_lst) ++ [g.(LinkedListGenome.count)] /\
    g'.(LinkedListGenome.count) = g.(LinkedListGenome.count).
Proof.
  intros Hp Hnd Hls Hin Hid Hnx Hal Hq HL.
  assert (i ∈ slots) as Hi by eauto using list_elem_of_lookup_2.
  pose proof (proj1 (Hin i) Hi) as Hir.
  assert (len (LinkedListGenome.index_next g) = len (LinkedListGenome.lst g)) as HN
    by (unfold len; by rewrite Hnx).
  destruct (lookup_lt_is_Some_2 (LinkedListGenome.index_next g) (Z.to_nat i))
    as [old Hold]; [unfold len in *; lia|].
  assert (py_get (LinkedListGenome.index_next g) i = Some old) as Hold'
    by (rewrite py_get_in_range by lia; done).
  unfold LinkedSteps.finish, LinkedSteps.splice. rewrite Hold'. simpl.
  unfold py_set, norm_index.
  rewrite bool_decide_eq_true_2 by (unfold len in *; lia). simpl.
  eexists. split; [done|]. split; [|done].
  pose proof (take_drop_middle _ _ _ Hq) as Hsplit.
  pose proof (lookup_lt_Some _ _ _ Hq) as Hqlt.
  pose proof (Forall2_length _ _ _ Hal) as Hlv.
  set (l1 := take q slots) in *. set (l2 := drop (S q) slots) in *.
  assert (List.length l1 = q) as Hl1 by (unfold l1; rewrite length_take; lia).
  assert (List.length l2 = (List.length slots - S q)%nat) as Hl2
    by (unfold l2; by rewrite length_drop).
  set (m := Z.to_nat length).
  replace (Z.to_nat (length - 1)) with (m - 1)%nat by lia.
  rewrite <- HN.
  apply (linked_positions_along _ (l1 ++ [i] ++ seqZ (len (LinkedListGenome.index_next g))
                                            (Z.of_nat m) ++ l2)); simpl.
  - apply path_splice; rewrite ?Hsplit; try done; [|lia].
    intros x. rewrite Hin. by rewrite HN.
  - rewrite !length_app, length_replicate. simpl.
    rewrite length_app, length_seqZ. lia.
  - intros x. unfold len. rewrite length_app, length_replicate.
    rewrite elem_of_app, elem_of_cons, elem_of_app, elem_of_seqZ.
    intros [Hx|[->|[Hx|Hx]]].
    + assert (x ∈ slots) as Hx'%Hin
        by (rewrite <- Hsplit; apply elem_of_app; auto).
      unfold len in *. lia.
    + unfold len in *. lia.
    + unfold len in *. lia.
    + assert (x ∈ slots) as Hx'%Hin
        by (rewrite <- Hsplit; apply elem_of_app; right; apply elem_of_cons; auto).
      unfold len in *. lia.
  - rewrite !length_app, !length_replicate. lia.
  - unfold put_in. rewrite <- Hsplit in Hal.
    apply Forall2_app_inv_l in Hal as (v1 & v2 & Hal1 & Hal2 & Hv).
    apply Forall2_cons_inv_l in Hal2 as (p & v3 & Hpi & Hal3 & ->).
    pose proof (Forall2_length _ _ _ Hal1) as Hlv1.
    assert (take (S q) v = v1 ++ [p]) as ->.
    { rewrite Hv. replace (S q) with (List.length (v1 ++ [p]))
        by (rewrite length_app; simpl; lia).
      replace (v1 ++ p :: v3) with ((v1 ++ [p]) ++ v3) by (by rewrite <- app_assoc).
      apply take_app_length. }
    assert (drop (S q) v = v3) as ->.
    { rewrite Hv. replace (S q) with (List.length (v1 ++ [p]))
        by (rewrite length_app; simpl; lia).
      replace (v1 ++ p :: v3) with ((v1 ++ [p]) ++ v3) by (by rewrite <- app_assoc).
      apply drop_app_length. }
    rewrite <- app_assoc.
    apply Forall2_app; [by apply along_old|].
    apply Forall2_cons. split; [destruct Hpi; split; by apply lookup_app_l_Some|].
    apply Forall2_app; [|by apply along_old].
    rewrite HN. by apply along_new.
Qed.

Lemma linked_ready_run fuel (n : Z) (ops : list op) (g : state (linked_slots fuel)) v :
  Forall positive_length ops -> g ∈ run (new n) ops -> positions g = Some v ->
  linked_ready g v.
Proof.
  intros Hok Hg Hv.
  destruct (linked_shape fuel n ops g Hok Hg)
    as (slots & v' & Hp & Hnd & Hlen & Hin & Hid & Hnx & Hv' & Hal).
  rewrite Hv in Hv'. injection Hv' as <-.
  exists slots. split_and!; try done. apply (tidy_reachable _ n ops g Hg).
Qed.

Lemma linked_insert_te_ready (g : LinkedListGenome.t) (pos length : Z) v :
  linked_ready g v -> v <> [] -> 1 <= length ->
  let q := (Z.to_nat (pos - 1) mod List.length v)%nat in
  exists g',
    LinkedListGenome.insert_te pos length g = Return (g.(LinkedListGenome.count) + 1) g' /\
    positions (I := linked_slots 0) g' =
      Some (put_in (after_collision v g.(LinkedListGenome.active_lst) q).1 (S q) length
                   (g.(LinkedListGenome.count) + 1)) /\
    g'.(LinkedListGenome.active_lst) =
      (after_collision v g.(LinkedListGenome.active_lst) q).2
        ++ [g.(LinkedListGenome.count) + 1] /\
    g'.(LinkedListGenome.count) = g.(LinkedListGenome.count) + 1.
Proof.
  intros (slots & Hp & Hnd & Hlen & Hin & Hid & Hnx & Hal & (_ & Hs & Hnda & _)) Hne HL q.
  pose proof (Forall2_length _ _ _ Hal) as Hlv.
  assert (List.length v <> 0)%nat as Hv0 by (destruct v; simpl; [done|lia]).
  assert (q < List.length slots)%nat as Hq
    by (rewrite Hlv; apply Nat.mod_upper_bound; lia).
  destruct (lookup_lt_is_Some_2 slots q Hq) as [i Hi].
  destruct (Forall2_lookup_l _ _ _ _ _ Hal Hi) as ([c o] & Hvq & Hc & Ho).
  simpl in Hc, Ho.
  assert (0 <= i < len (LinkedListGenome.lst g)) as Hir
    by (apply Hin; eauto using list_elem_of_lookup_2).
  rewrite LinkedFacts.linked_insert_te_eq.
  rewrite (walk_ring _ slots _ i Hp) by (rewrite Hlv; exact Hi).
  rewrite !py_get_in_range by (unfold len in *; lia). rewrite Hc.
  unfold after_collision, struck. rewrite Hvq.
  case_bool_decide as HA.
  - rewrite Ho.
    destruct (Forall2_lookup_lr _ _ _ _ _ _ Hs Hc Ho) as (_ & _ & Hact & _).
    destruct (list_remove_Some o (LinkedListGenome.active_lst g)) as [a Hrm];
      [by apply Hact|].
    rewrite LinkedFacts.linked_disable_te_lockstep by done. simpl. rewrite Hrm.
    destruct (linked_finish_positions
                (LinkedListGenome.set_active_lst a
                   (LinkedSteps.marked o (LinkedSteps.bump g)))
                slots (mark o <$> v) q i length)
      as (g' & -> & Hpos & Hact' & Hc'); simpl; rewrite ?relabel_length; try done.
    + intros x. rewrite Hin. unfold len. by rewrite relabel_length.
    + by apply along_relabel.
    + exists g'. split_and!; try done.
      rewrite Hact'. simpl.
      by rewrite (list_remove_filter _ _ _ Hnda Hrm).
  - destruct (linked_finish_positions (LinkedSteps.bump g) slots v q i length)
      as (g' & -> & Hpos & Hact' & Hc'); simpl; try done.
    exists g'. split_and!; done.
Qed.

(** X7. [LinkedListGenome.insert_te] on a genome that is not empty, reached
    by calls that insert at least one position each, for any [pos] and any
    [length >= 1]: the call never raises and returns the counter plus one.
    The position it tests for a collision is [q = max(0, pos-1) mod N], not
    [pos mod N]: the owner of position [q] is disabled if that position
    reads ["A"], and the new positions are put in right after position [q],
    that is before position [q + 1]. *)
Theorem linked_insert_te_positions (fuel : nat) (n : Z) (ops : list op)
    (g : state (linked_slots fuel)) (pos length : Z) (v : list (ascii * Z)) :
  Forall positive_length ops -> g ∈ run (new n) ops ->
  positions g = Some v -> v <> [] -> 1 <= length ->
  let q := (Z.to_nat (pos - 1) mod List.length v)%nat in
  exists g',
    insert_te pos length g = Return (counter g + 1) g' /\
    positions g' =
      Some (put_in (after_collision v (active_tes g) q).1 (S q) length (counter g + 1)) /\
    active_tes g' = (after_collision v (active_tes g) q).2 ++ [counter g + 1] /\
    counter g' = counter g + 1.
Proof.
  intros Hok Hg Hv Hne HL.
  pose proof (linked_ready_run fuel n ops g v Hok Hg Hv) as Hready.
  exact (linked_insert_te_ready g pos length v Hready Hne HL).
Qed.

Lemma linked_insert_te_positions_witness :
  let g : state (linked_slots 4) :=
    LinkedListGenome.mk ["-"; "-"; "-"; "A"; "A"]%char [1; 3; 0; 4; 2]
                        [0; 0; 0; 1; 1] [1] 1 in
  let v := [("-", 0); ("-", 0); ("A", 1); ("A", 1); ("-", 0)]%char in
  let q := (Z.to_nat (3 - 1) mod 5)%nat in
  exists g',
    insert_te 3 1 g = Return (counter g + 1) g' /\
    positions g' =
      Some (put_in (after_collision v (active_tes g) q).1 (S q) 1 (counter g + 1)) /\
    active_tes g' = (after_collision v (active_tes g) q).2 ++ [counter g + 1] /\
    counter g' = counter g + 1.
Proof.
  apply (linked_insert_te_positions 4 3 [InsertTe 2 2]).
  - apply Forall_cons. split; [simpl; lia|apply Forall_nil_2].
  - apply list_elem_of_lookup. exists 1%nat. reflexivity.
  - reflexivity.
  - discriminate.
  - lia.
Defined.

(** ** ListGenome: [insert_te] in terms of positions *)

(** An index [-n <= i < n] and [i mod n] denote the same place of a list of
    [n] items, as an index and as the bound of a slice. *)
Lemma norm_index_mod (n : nat) i :
  - Z.of_nat n <= i < Z.of_nat n ->
  norm_index n i = Some (Z.to_nat (i mod Z.of_nat n)) /\
  slice_bound n i = Z.to_nat (i mod Z.of_nat n).
Proof.
  intros Hi. unfold norm_index, slice_bound.
  destruct (decide (0 <= i)) as [Hpos|Hneg].
  - rewrite bool_decide_eq_true_2 by lia.
    rewrite (bool_decide_eq_false_2 (i < 0)) by lia.
    rewrite Z.mod_small by lia. split; [done|lia].
  - rewrite bool_decide_eq_false_2 by lia.
    rewrite bool_decide_eq_true_2 by lia.
    rewrite (bool_decide_eq_true_2 (i < 0)) by lia.
    replace (i mod Z.of_nat n) with (Z.of_nat n + i).
    + split; [done|lia].
    + symmetry. rewrite <- (Z.mod_add i 1 (Z.of_nat n)) by lia.
      rewrite Z.mod_small; lia.
Qed.

Lemma zip_put_in (l : list ascii) (ids : list Z) (p : nat) (length id : Z) :
  List.length l = List.length ids ->
  zip ((take p l ++ replicate (Z.to_nat length) active_sym) ++ drop p l)
      ((take p ids ++ replicate (Z.to_nat length) id) ++ drop p ids)
  = put_in (zip l ids) p length id.
Proof.
  intros Hlen. unfold put_in.
  rewrite !zip_with_app, zip_with_take, zip_with_drop, zip_with_replicate.
  - by rewrite <- app_assoc.
  - rewrite !length_take. lia.
  - rewrite !length_app, !length_replicate, !length_take. lia.
Qed.

(** What [insert_te] does at a position it accepts, on any ListGenome whose
    lists are in step: the outcome is the one at [pos mod N]. *)
Lemma list_insert_te_mod (g : ListGenome.t) pos length :
  list_lockstep g ->
  (pos > len g.(ListGenome.lst) /\ g.(ListGenome.lst) <> [] \/
   - len g.(ListGenome.lst) <= pos < len g.(ListGenome.lst)) ->
  ListGenome.insert_te pos length g =
  ListGenome.insert_te (pos mod len g.(ListGenome.lst)) length g.
Proof.
  intros Hls Hpos. set (N := len (ListGenome.lst g)) in *.
  assert (0 < N) as HN.
  { destruct Hpos as [[_ Hne]|?]; [|lia].
    unfold N, len. destruct (ListGenome.lst g); simpl; [done|lia]. }
  assert (0 <= pos mod N < N) as Hm by (apply Z.mod_pos_bound; lia).
  destruct (decide (pos > N)) as [Hgt|Hle].
  - rewrite !ListFacts.list_insert_te_eq. unfold ListSteps.wrapped. fold N.
    rewrite (bool_decide_eq_true_2 (pos > N)) by done.
    rewrite (bool_decide_eq_false_2 (pos mod N > N)) by lia.
    rewrite !bool_decide_eq_false_2 by lia. done.
  - destruct Hpos as [[? _]|Hpos]; [lia|].
    destruct (decide (0 <= pos)) as [?|Hneg]; [by rewrite Z.mod_small by lia|].
    (* a negative index *)
    assert (forall {A} (l : list A), len l = N -> py_get l pos = py_get l (pos mod N)) as Hget.
    { intros A l Hl. unfold py_get.
      destruct (norm_index_mod (List.length l) pos) as [-> _]; [unfold len in Hl; lia|].
      destruct (norm_index_mod (List.length l) (pos mod N)) as [-> _];
        [unfold len in Hl; lia|].
      unfold len in Hl. rewrite Hl. by rewrite Z.mod_mod by lia. }
    assert (forall {A} (l : list A), len l = N ->
              slice_to l pos = slice_to l (pos mod N) /\
              slice_from l pos = slice_from l (pos mod N)) as Hsl.
    { intros A l Hl. unfold slice_to, slice_from.
      destruct (norm_index_mod (List.length l) pos) as [_ ->]; [unfold len in Hl; lia|].
      destruct (norm_index_mod (List.length l) (pos mod N)) as [_ ->];
        [unfold len in Hl; lia|].
      unfold len in Hl. rewrite Hl. by rewrite Z.mod_mod by lia. }
    assert (forall g2, len (ListGenome.lst g2) = N -> len (ListGenome.ID g2) = N ->
              ListSteps.splice pos length g2 = ListSteps.splice (pos mod N) length g2)
      as Hsp.
    { intros g2 H1 H2. unfold ListSteps.splice.
      destruct (Hsl _ (ListGenome.lst g2) H1) as [-> ->].
      destruct (Hsl _ (ListGenome.ID g2) H2) as [-> ->]. done. }
    assert (len (ListGenome.ID g) = N) as HID by (unfold N, len; by rewrite Hls).
    rewrite !ListFacts.list_insert_te_eq. unfold ListSteps.wrapped. fold N.
    rewrite (bool_decide_eq_false_2 (pos > N)) by done.
    rewrite (bool_decide_eq_false_2 (pos mod N > N)) by lia.
    rewrite !bool_decide_eq_false_2 by lia.
    rewrite <- (Hget _ (ListGenome.lst g)) by done.
    rewrite <- (Hget _ (ListGenome.ID g)) by done.
    destruct (py_get (ListGenome.lst g) pos) as [c|]; [|done].
    case_bool_decide; [|by rewrite Hsp].
    destruct (py_get (ListGenome.ID g) pos) as [o|]; [|done].
    rewrite ListFacts.list_disable_te_lockstep by (simpl; by rewrite Hls).
    simpl. destruct (list_remove o _); [|done].
    rewrite Hsp; [done|..]; simpl; unfold len; rewrite ?relabel_length; done.
Qed.

Lemma list_splice_positions (g : ListGenome.t) p length :
  list_lockstep g -> 0 <= p < len g.(ListGenome.lst) ->
  positions (I := array_backed) (ListSteps.splice p length g) =
  Some (put_in (zip g.(ListGenome.lst) g.(ListGenome.ID)) (Z.to_nat p) length
               g.(ListGenome.count)).
Proof.
  intros Hls Hp. simpl. unfold slice_to, slice_from.
  rewrite <- Hls. rewrite slice_bound_in_range by (unfold len in Hp; lia).
  by rewrite zip_put_in.
Qed.

Lemma list_ready_run (n : Z) (ops : list op) (g : state array_backed) :
  g ∈ run (new n) ops -> list_ready g.
Proof.
  intros Hg. split; [by apply (list_wf_run n ops)|].
  apply (tidy_reachable array_backed n ops g Hg).
Qed.

Lemma list_insert_te_ready (g : ListGenome.t) (pos length : Z) :
  list_ready g -> g.(ListGenome.lst) <> [] ->
  - len g.(ListGenome.lst) <= pos -> pos <> len g.(ListGenome.lst) ->
  let v := zip g.(ListGenome.lst) g.(ListGenome.ID) in
  let q := Z.to_nat (pos mod len g.(ListGenome.lst)) in
  exists g',
    ListGenome.insert_te pos length g = Return (g.(ListGenome.count) + 1) g' /\
    positions (I := array_backed) g' =
      Some (put_in (after_collision v g.(ListGenome.active_lst) q).1 q length
                   (g.(ListGenome.count) + 1)) /\
    g'.(ListGenome.active_lst) =
      (after_collision v g.(ListGenome.active_lst) q).2 ++ [g.(ListGenome.count) + 1] /\
    g'.(ListGenome.count) = g.(ListGenome.count) + 1.
Proof.
  intros [Hwf (_ & _ & Hnda & _)] Hne Hlo Hhi v q.
  pose proof (list_wf_lockstep _ _ Hwf) as Hls.
  set (N := len (ListGenome.lst g)) in *.
  assert (0 < N) as HNpos.
  { unfold N, len. destruct (ListGenome.lst g); simpl; [done|lia]. }
  rewrite list_insert_te_mod.
  2:{ done. }
  2:{ fold N. destruct (decide (pos > N)); [left|right; lia]. done. }
  fold N. set (p := pos mod N) in *.
  assert (0 <= p < N) as Hp by (apply Z.mod_pos_bound; lia).
  destruct (lookup_lt_is_Some_2 (ListGenome.lst g) (Z.to_nat p)) as [c Hc];
    [unfold N, len in Hp; lia|].
  destruct (lookup_lt_is_Some_2 (ListGenome.ID g) (Z.to_nat p)) as [o Ho];
    [unfold N, len in Hp; rewrite <- Hls; lia|].
  assert (v !! q = Some (c, o)) as Hvq
    by (unfold v, q; rewrite lookup_zip_with, Hc, Ho; done).
  unfold after_collision, struck. rewrite Hvq.
  case_bool_decide as HA.
  - subst c.
    destruct (list_insert_te_collide g p length Hwf Hp) as (o' & a & Ho' & Hrm & ->).
    { by rewrite py_get_in_range. }
    assert (0 <= p < len (ListGenome.ID g)) as HpI
      by (unfold N, len in *; rewrite <- Hls; lia).
    rewrite py_get_in_range, Ho in Ho' by done.
    injection Ho' as <-. eexists. split; [done|]. split_and!.
    + etrans; [apply (list_splice_positions _ p length)|].
      * unfold list_lockstep; simpl. by rewrite relabel_length.
      * simpl. unfold len. by rewrite relabel_length.
      * simpl. by rewrite zip_relabel.
    + simpl. by rewrite (list_remove_filter _ _ _ Hnda Hrm).
    + done.
  - rewrite list_insert_te_plain; [|done|].
    2:{ rewrite py_get_in_range, Hc by done. congruence. }
    eexists. split; [done|]. split_and!; [|done..].
    by etrans; [apply (list_splice_positions _ p length)|].
Qed.

(** X8. [ListGenome.insert_te] on a reachable genome that is not empty, for
    any [length] and any [pos] with [-N <= pos] and [pos <> N]: the call
    returns the counter plus one; the position it tests is [pos mod N]; the
    owner of that position is disabled if it reads ["A"], and the new
    positions are put in before position [pos mod N]. *)
Theorem list_insert_te_positions (n : Z) (ops : list op) (g : state array_backed)
    (pos length : Z) (v : list (ascii * Z)) :
  g ∈ run (new n) ops -> positions g = Some v -> v <> [] ->
  - len v <= pos -> pos <> len v ->
  let q := Z.to_nat (pos mod len v) in
  exists g',
    insert_te pos length g = Return (counter g + 1) g' /\
    positions g' =
      Some (put_in (after_collision v (active_tes g) q).1 q length (counter g + 1)) /\
    active_tes g' = (after_collision v (active_tes g) q).2 ++ [counter g + 1] /\
    counter g' = counter g + 1.
Proof.
  intros Hg Hv Hne Hlo Hhi. simpl in Hv. injection Hv as <-.
  pose proof (list_ready_run n ops g Hg) as Hready.
  pose proof (list_wf_lockstep _ _ (proj1 Hready)) as Hls.
  assert (len (zip (ListGenome.lst g) (ListGenome.ID g)) = len (ListGenome.lst g)) as HN
    by (unfold len; by rewrite length_zip_with_l_eq).
  rewrite HN in *.
  apply (list_insert_te_ready g pos length Hready); [|done..].
  intros E. rewrite E in Hne. done.
Qed.

Lemma list_insert_te_positions_witness :
  let g : state array_backed :=
    ListGenome.mk ["-"; "A"; "A"; "-"]%char [0; 1; 1; 0] [1] 1 in
  let v := [("-", 0); ("A", 1); ("A", 1); ("-", 0)]%char in
  let q := Z.to_nat (6 mod len v) in
  exists g',
    insert_te 6 3 g = Return (counter g + 1) g' /\
    positions g' =
      Some (put_in (after_collision v (active_tes g) q).1 q 3 (counter g + 1)) /\
    active_tes g' = (after_collision v (active_tes g) q).2 ++ [counter g + 1] /\
    counter g' = counter g + 1.
Proof.
  apply (list_insert_te_positions 2 [InsertTe 1 2]).
  - apply list_elem_of_lookup. exists 1%nat. reflexivity.
  - reflexivity.
  - discriminate.
  - vm_compute. discriminate.
  - vm_compute. discriminate.
Defined.

(** [insert_te] outside the positions the ListGenome accepts. *)
Lemma list_insert_te_out (g : ListGenome.t) (pos length : Z) :
  pos = ListGenome.__len__ g \/ pos < - ListGenome.__len__ g \/
  (ListGenome.__len__ g = 0 /\ pos > 0) ->
  ListGenome.insert_te pos length g =
  if bool_decide (ListGenome.__len__ g = 0 /\ pos > 0)
  then Raise ZeroDivisionError g
  else Raise IndexError (ListGenome.mk g.(ListGenome.lst) g.(ListGenome.ID)
                                       g.(ListGenome.active_lst)
                                       (g.(ListGenome.count) + 1)).
Proof.
  unfold ListGenome.__len__. intros Hpos.
  assert (0 <= len (ListGenome.lst g)) by (unfold len; lia).
  rewrite ListFacts.list_insert_te_eq. unfold ListSteps.wrapped.
  case_bool_decide as Hz.
  - by rewrite bool_decide_eq_true_2 by lia.
  - rewrite !bool_decide_eq_false_2 by lia.
    unfold py_get, norm_index.
    rewrite !bool_decide_eq_false_2 by (unfold len in *; lia). done.
Qed.

(** X9. [ListGenome.insert_te] outside the positions it accepts, on any
    object: on an empty genome with [pos > 0] it raises [ZeroDivisionError]
    and changes nothing; otherwise, at [pos = N] and at [pos < -N], it
    raises [IndexError], having incremented the counter and nothing else. *)
Theorem list_insert_te_rejects (g : ListGenome.t) (pos length : Z) :
  pos = ListGenome.__len__ g \/ pos < - ListGenome.__len__ g \/
  (ListGenome.__len__ g = 0 /\ pos > 0) ->
  ListGenome.insert_te pos length g =
  if bool_decide (ListGenome.__len__ g = 0 /\ pos > 0)
  then Raise ZeroDivisionError g
  else Raise IndexError (ListGenome.mk g.(ListGenome.lst) g.(ListGenome.ID)
                                       g.(ListGenome.active_lst)
                                       (g.(ListGenome.count) + 1)).
Proof. exact (list_insert_te_out g pos length). Qed.

Lemma list_insert_te_rejects_witness :
  ListGenome.insert_te 3 2 (ListGenome.init 3) =
  if bool_decide (ListGenome.__len__ (ListGenome.init 3) = 0 /\ 3 > 0)
  then Raise ZeroDivisionError (ListGenome.init 3)
  else Raise IndexError (ListGenome.mk ["-"; "-"; "-"]%char [0; 0; 0] [] 1).
Proof.
  apply (list_insert_te_rejects (ListGenome.init 3) 3 2).
  left. reflexivity.
Defined.

(** ** Where the two classes agree on [insert_te] *)

(** X10. Take a ListGenome and a LinkedListGenome, each reached from its
    constructor (the linked one by calls that insert at least one position
    each), that show the same positions, the same active ids and the same
    counter. For [pos >= 1] not a multiple of the length [N] and
    [length >= 1], if the positions [pos mod N] and [pos mod N - 1] are
    struck alike (neither reads ["A"], or both do with the same owner), then
    [insert_te(pos, length)] returns the same id in both classes and leaves
    them with the same positions, active ids and counter again. *)
Theorem insert_te_agreement (fuel : nat) (nL nK : Z) (opsL opsK : list op)
    (gL : state array_backed) (gK : state (linked_slots fuel))
    (pos length : Z) (v : list (ascii * Z)) :
  gL ∈ run (new nL) opsL ->
  Forall positive_length opsK -> gK ∈ run (new nK) opsK ->
  positions gL = Some v -> positions gK = Some v ->
  active_tes gL = active_tes gK -> counter gL = counter gK ->
  v <> [] -> 1 <= pos -> pos mod len v <> 0 -> 1 <= length ->
  struck v (Z.to_nat (pos mod len v)) = struck v (Z.to_nat (pos mod len v) - 1) ->
  exists id gL' gK',
    insert_te pos length gL = Return id gL' /\
    insert_te pos length gK = Return id gK' /\
    positions gL' = positions gK' /\
    active_tes gL' = active_tes gK' /\
    counter gL' = counter gK'.
Proof.
  intros HgL Hok HgK HvL HvK Hact Hcnt Hne Hpos Hmod HL Hstruck.
  pose proof (list_ready_run nL opsL gL HgL) as HrL.
  pose proof (linked_ready_run fuel nK opsK gK v Hok HgK HvK) as HrK.
  simpl in HvL. injection HvL as HvL.
  pose proof (list_wf_lockstep _ _ (proj1 HrL)) as Hls.
  assert (len v = len (ListGenome.lst gL)) as HN
    by (rewrite <- HvL; unfold len; by rewrite length_zip_with_l_eq).
  assert (0 < len v) as HNpos by (unfold len; destruct v; simpl; [done|lia]).
  assert (0 <= pos mod len v < len v) as Hm by (apply Z.mod_pos_bound; lia).
  destruct (list_insert_te_ready gL pos length HrL) as (gL' & EL & HpL & HaL & HcL).
  { intros E. rewrite E in HN. unfold len in *. simpl in *. lia. }
  { lia. }
  { intros ->. rewrite <- HN, Z.mod_same in Hmod by lia. done. }
  destruct (linked_insert_te_ready gK pos length v HrK Hne HL)
    as (gK' & EK & HpK & HaK & HcK).
  cbv zeta in *. rewrite HvL, <- HN in *.
  assert ((Z.to_nat (pos - 1) mod List.length v)%nat
          = (Z.to_nat (pos mod len v) - 1)%nat) as Hq.
  { assert ((pos - 1) mod len v = pos mod len v - 1) as E.
    { rewrite (Z.div_mod pos (len v)) at 1 by lia.
      replace (len v * (pos / len v) + pos mod len v - 1)
        with (pos mod len v - 1 + (pos / len v) * len v) by lia.
      rewrite Z.mod_add by lia. apply Z.mod_small. lia. }
    apply Nat2Z.inj. rewrite Nat2Z.inj_mod, Z2Nat.id by lia.
    fold (len v). rewrite E. lia. }
  rewrite Hq in *.
  replace (S (Z.to_nat (pos mod len v) - 1)) with (Z.to_nat (pos mod len v)) in HpK by lia.
  assert (after_collision v (ListGenome.active_lst gL) (Z.to_nat (pos mod len v))
          = after_collision v (LinkedListGenome.active_lst gK)
              (Z.to_nat (pos mod len v) - 1)) as Hsame.
  { unfold after_collision. rewrite Hstruck. simpl in Hact.
    unfold ListGenome.active_tes, LinkedListGenome.active_tes in Hact.
    by rewrite Hact. }
  simpl in Hcnt.
  exists (ListGenome.count gL + 1), gL', gK'. split_and!.
  - exact EL.
  - simpl. by rewrite Hcnt.
  - rewrite Hsame, Hcnt in HpL. exact (eq_trans HpL (eq_sym HpK)).
  - simpl. unfold ListGenome.active_tes, LinkedListGenome.active_tes.
    by rewrite HaL, HaK, Hsame, Hcnt.
  - simpl. by rewrite HcL, HcK, Hcnt.
Qed.

Lemma insert_te_agreement_witness :
  let gL : state array_backed :=
    ListGenome.mk ["-"; "-"; "A"; "A"; "-"]%char [0; 0; 1; 1; 0] [1] 1 in
  let gK : state (linked_slots 4) :=
    LinkedListGenome.mk ["-"; "-"; "-"; "A"; "A"]%char [1; 3; 0; 4; 2]
                        [0; 0; 0; 1; 1] [1] 1 in
  exists id gL' gK',
    insert_te 3 1 gL = Return id gL' /\
    insert_te 3 1 gK = Return id gK' /\
    positions gL' = positions gK' /\
    active_tes gL' = active_tes gK' /\
    counter gL' = counter gK'.
Proof.
  apply (insert_te_agreement 4 3 3 [InsertTe 2 2] [InsertTe 2 2] _ _ 3 1
           [("-", 0); ("-", 0); ("A", 1); ("A", 1); ("-", 0)]%char).
  - apply list_elem_of_lookup. exists 1%nat. reflexivity.
  - apply Forall_cons. split; [simpl; lia|apply Forall_nil_2].
  - apply list_elem_of_lookup. exists 1%nat. reflexivity.
  - reflexivity.
  - reflexivity.
  - reflexivity.
  - reflexivity.
  - discriminate.
  - lia.
  - vm_compute. discriminate.
  - lia.
  - reflexivity.
Defined.

(** ** LinkedListGenome: what [copy_te] copies, and where to *)

Lemma stretch_le te v : (stretch te v <= List.length v)%nat.
Proof.
  induction v as [|p v IH]; simpl; [lia|]. case_bool_decide; lia.
Qed.

(** A position of another owner ends the stretch. *)
Lemma stretch_app_stop te v1 p v2 :
  p.2 <> te -> stretch te (v1 ++ p :: v2) = stretch te v1.
Proof.
  intros Hp. induction v1 as [|x v1 IH]; simpl.
  - by rewrite bool_decide_eq_false_2.
  - case_bool_decide; [by rewrite IH|done].
Qed.

Lemma first_of_Some te v k :
  first_of te v = Some k <->
  exists p, v !! k = Some p /\ p.2 = te /\
            forall j y, v !! j = Some y -> (j < k)%nat -> y.2 <> te.
Proof.
  unfold first_of. split.
  - destruct (list_find _ v) as [[i p]|] eqn:E; simpl; [|done].
    intros [= ->]. apply list_find_Some in E. eauto.
  - intros (p & Hp). apply (list_find_Some (fun p : ascii * Z => p.2 = te)) in Hp.
    by rewrite Hp.
Qed.

Lemma first_of_elem te v p :
  p ∈ v -> p.2 = te -> exists k, first_of te v = Some k.
Proof.
  intros Hin Hp. unfold first_of.
  destruct (list_find (fun p : ascii * Z => p.2 = te) v) as [[i x]|] eqn:E; simpl; [eauto|].
  apply list_find_None in E. rewrite Forall_forall in E. by destruct (E p Hin).
Qed.

(** The first loop of [copy_te] stops at the first position that [te]
    owns, having counted the positions before it. *)
Lemma linked_seek_along te (g : LinkedListGenome.t) : forall l v fuel a b n k,
  path g.(LinkedListGenome.index_next) a l b ->
  Forall (fun x => 0 <= x) l ->
  along g.(LinkedListGenome.lst) g.(LinkedListGenome.ID) l v ->
  first_of te v = Some k -> (k < fuel)%nat ->
  exists j, l !! k = Some j /\
    LinkedListGenome.seek fuel te a n g = Return (j, n + Z.of_nat k) g.
Proof.
  induction l as [|x l IH]; intros v fuel a b n k Hp Hpos Hal Hk Hfuel.
  - apply Forall2_nil_inv_l in Hal as ->. done.
  - apply Forall2_cons_inv_l in Hal as (p & v' & [_ Ho] & Hal & ->).
    destruct Hp as (-> & y & Hy & Hp).
    apply Forall_cons in Hpos as [Ha Hpos].
    destruct fuel as [|fuel]; [lia|].
    assert (py_get (LinkedListGenome.ID g) a = Some p.2) as Hoa.
    { rewrite <- (Z2Nat.id a) by lia. by rewrite py_get_nat. }
    simpl. unfold mbind, M_bind, get; simpl. rewrite Hoa. simpl.
    apply first_of_Some in Hk as (p' & Hk & Hp' & Hmin).
    destruct k as [|k].
    + simpl in Hk. injection Hk as ->.
      rewrite bool_decide_eq_false_2 by tauto. simpl.
      exists a. split; [done|]. do 2 f_equal. lia.
    + rewrite bool_decide_eq_true_2 by (apply (Hmin 0%nat); [done|lia]).
      simpl. rewrite Hy. simpl.
      destruct (IH v' fuel y b (n + 1) k Hp Hpos Hal) as (j & Hj & E); [|lia|].
      * apply first_of_Some. exists p'. split_and!; [done..|].
        intros j y' Hj Hlt. apply (Hmin (S j)); [done|lia].
      * exists j. split; [done|]. rewrite E. do 2 f_equal. lia.
Qed.

(** The second loop counts the positions that [te] owns from there on, up
    to the first one of another owner. *)
Lemma linked_span_along te (g : LinkedListGenome.t) : forall l v fuel a b n,
  path g.(LinkedListGenome.index_next) a l b ->
  Forall (fun x => 0 <= x) l ->
  along g.(LinkedListGenome.lst) g.(LinkedListGenome.ID) l v ->
  (stretch te v < List.length v)%nat -> (stretch te v < fuel)%nat ->
  exists j,
    LinkedListGenome.span fuel te a n g = Return (j, n + Z.of_nat (stretch te v)) g.
Proof.
  induction l as [|x l IH]; intros v fuel a b n Hp Hpos Hal Hlt Hfuel.
  - apply Forall2_nil_inv_l in Hal as ->. simpl in Hlt. lia.
  - apply Forall2_cons_inv_l in Hal as (p & v' & [_ Ho] & Hal & ->).
    destruct Hp as (-> & y & Hy & Hp).
    apply Forall_cons in Hpos as [Ha Hpos].
    destruct fuel as [|fuel]; [lia|].
    assert (py_get (LinkedListGenome.ID g) a = Some p.2) as Hoa.
    { rewrite <- (Z2Nat.id a) by lia. by rewrite py_get_nat. }
    simpl in *. unfold mbind, M_bind, get; simpl. rewrite Hoa. simpl.
    case_bool_decide as He; simpl.
    + rewrite Hy. simpl.
      destruct (IH v' fuel y b (n + 1) Hp Hpos Hal) as (j & E); [lia..|].
      exists j. rewrite E. do 2 f_equal. lia.
    + exists a. do 2 f_equal. lia.
Qed.

(** On a LinkedListGenome in order, with more turns than positions,
    [copy_te] of an active id is a call of [insert_te]: the loops neither
    raise nor run out of turns, the first counts the positions before the
    element and the second counts its positions. *)
Lemma linked_copy_te_ready fuel te offset (g : LinkedListGenome.t) v :
  linked_ready g v -> linked_owned g ->
  te ∈ g.(LinkedListGenome.active_lst) -> (List.length v <= fuel)%nat ->
  exists k, first_of te v = Some k /\ (1 <= stretch te (drop k v))%nat /\
    LinkedListGenome.copy_te fuel te offset g =
    (Some <$> LinkedListGenome.insert_te (len v + (Z.of_nat k + offset))
                (Z.of_nat (stretch te (drop k v)))) g.
Proof.
  intros (slots & Hp & Hnd & Hlen & Hin & Hid & Hnx & Hal & Htidy)
         (_ & Hc & Ha & H0) Hte Hfuel.
  pose proof (Forall2_length _ _ _ Hal) as Hlv.
  destruct (Ha te Hte) as [Hte1 (idx & Hidx)%list_elem_of_lookup].
  pose proof (lookup_lt_Some _ _ _ Hidx) as Hidxlt.
  assert (Z.of_nat idx ∈ slots) as (j0 & Hj0)%list_elem_of_lookup
    by (apply Hin; unfold len; lia).
  destruct (Forall2_lookup_l _ _ _ _ _ Hal Hj0) as (p0 & Hv0 & _ & Ho0).
  rewrite Nat2Z.id in Ho0.
  destruct (first_of_elem te v p0) as [k Hk];
    [by eapply list_elem_of_lookup_2|congruence|].
  pose proof Hk as (p & Hvk & Hpte & Hmin)%first_of_Some.
  pose proof (lookup_lt_Some _ _ _ Hvk) as Hklt.
  assert (Forall (fun x => 0 <= x) slots) as Hpos.
  { apply Forall_forall. intros x Hx%Hin. lia. }
  (* position 0 is slot 0, which no element owns *)
  destruct slots as [|s0 slots']; [simpl in Hlv; lia|].
  destruct v as [|z v']; [done|].
  pose proof Hp as (-> & _).
  pose proof Hal as ([_ Hz] & _)%Forall2_cons.
  simpl in Hz. apply H0 in Hz.
  destruct k as [|k]; [simpl in Hvk; injection Hvk as ->; lia|].
  set (slots := 0 :: slots') in *. set (v := z :: v') in *.
  (* the first loop *)
  destruct (linked_seek_along te g slots v fuel 0 0 0 (S k) Hp Hpos Hal Hk)
    as (j & Hj & E); [lia|].
  (* the ring, read from the element on *)
  pose proof Hp as Hp'. rewrite <- (take_drop (S k) slots) in Hp'.
  apply path_app in Hp' as (m & Hp1 & Hp2).
  rewrite (drop_S _ _ _ Hj) in Hp2. pose proof Hp2 as (<- & _).
  rewrite <- (drop_S _ _ _ Hj) in Hp2.
  assert (path (LinkedListGenome.index_next g) j
               (drop (S k) slots ++ take (S k) slots) j) as Hrot
    by (apply path_app; eauto).
  assert (along (LinkedListGenome.lst g) (LinkedListGenome.ID g)
                (drop (S k) slots ++ take (S k) slots)
                (drop (S k) v ++ take (S k) v)) as Halr.
  { apply Forall2_app; [by apply Forall2_drop|by apply Forall2_take]. }
  assert (stretch te (drop (S k) v ++ take (S k) v) = stretch te (drop (S k) v)) as Hst.
  { unfold v at 2. simpl. apply stretch_app_stop. lia. }
  pose proof (stretch_le te (drop (S k) v)) as Hsle.
  rewrite length_drop in Hsle.
  destruct (linked_span_along te g (drop (S k) slots ++ take (S k) slots)
              (drop (S k) v ++ take (S k) v) fuel j j 0 Hrot) as (j' & E2);
    [| exact Halr | | |].
  - apply Forall_app. split; [by apply Forall_drop|by apply Forall_take].
  - rewrite Hst, length_app, length_drop, length_take. lia.
  - rewrite Hst. lia.
  - exists (S k). split; [done|]. split.
    + rewrite (drop_S _ _ _ Hvk). simpl. rewrite bool_decide_eq_true_2 by done. lia.
    + rewrite LinkedFacts.linked_copy_te_eq.
      rewrite bool_decide_eq_false_2 by (intros Hn; by apply Hn).
      rewrite E, E2, Hst.
      replace (len (LinkedListGenome.index_next g)) with (len v)
        by (unfold len; lia).
      done.
Qed.

(** X11. [LinkedListGenome.copy_te] of an active id, on a genome reached by
    calls that insert at least one position each, followed for at least as
    many turns of its loops as the genome has positions: the loops end and
    nothing raises. With [k] the first position the element owns and [m]
    the number of positions it owns from there on, the call is
    [insert_te(N + k + offset, m)]: it returns the counter plus one, tests
    position [q = max(0, N + k + offset - 1) mod N] for a collision and puts
    [m] new positions in right after it. *)
Theorem linked_copy_te_positions (fuel : nat) (n : Z) (ops : list op)
    (g : state (linked_slots fuel)) (te offset : Z) (v : list (ascii * Z)) :
  Forall positive_length ops -> g ∈ run (new n) ops ->
  positions g = Some v -> te ∈ active_tes g -> (List.length v <= fuel)%nat ->
  exists k g',
    first_of te v = Some k /\
    let m := Z.of_nat (stretch te (drop k v)) in
    let q := (Z.to_nat (len v + (Z.of_nat k + offset) - 1) mod List.length v)%nat in
    1 <= m /\
    copy_te te offset g = Return (Some (counter g + 1)) g' /\
    positions g' =
      Some (put_in (after_collision v (active_tes g) q).1 (S q) m (counter g + 1)) /\
    active_tes g' = (after_collision v (active_tes g) q).2 ++ [counter g + 1] /\
    counter g' = counter g + 1.
Proof.
  intros Hok Hg Hv Hte Hfuel.
  pose proof (linked_ready_run fuel n ops g v Hok Hg Hv) as Hready.
  pose proof (linked_owned_run fuel n ops g Hok Hg) as Hown.
  destruct (linked_copy_te_ready fuel te offset g v Hready Hown Hte Hfuel)
    as (k & Hk & Hm & E).
  assert (v <> []) as Hne.
  { apply first_of_Some in Hk as (p & Hp & _). by destruct v. }
  destruct (linked_insert_te_ready g (len v + (Z.of_nat k + offset))
              (Z.of_nat (stretch te (drop k v))) v Hready Hne)
    as (g' & E' & Hp' & Ha' & Hc'); [lia|].
  exists k, g'. split; [done|]. cbv zeta. split; [lia|]. split; [|done].
  simpl. rewrite E. unfold fmap, M_fmap. by rewrite E'.
Qed.

Lemma linked_copy_te_positions_witness :
  let g : state (linked_slots 5) :=
    LinkedListGenome.mk ["-"; "-"; "-"; "A"; "A"]%char [1; 3; 0; 4; 2]
                        [0; 0; 0; 1; 1] [1] 1 in
  let v := [("-", 0); ("-", 0); ("A", 1); ("A", 1); ("-", 0)]%char in
  exists k g',
    first_of 1 v = Some k /\
    let m := Z.of_nat (stretch 1 (drop k v)) in
    let q := (Z.to_nat (len v + (Z.of_nat k + 3) - 1) mod List.length v)%nat in
    1 <= m /\
    copy_te 1 3 g = Return (Some (counter g + 1)) g' /\
    positions g' =
      Some (put_in (after_collision v (active_tes g) q).1 (S q) m (counter g + 1)) /\
    active_tes g' = (after_collision v (active_tes g) q).2 ++ [counter g + 1] /\
    counter g' = counter g + 1.
Proof.
  apply (linked_copy_te_positions 5 3 [InsertTe 2 2]).
  - apply Forall_cons. split; [simpl; lia|apply Forall_nil_2].
  - apply list_elem_of_lookup. exists 1%nat. reflexivity.
  - reflexivity.
  - apply list_elem_of_singleton. reflexivity.
  - simpl. lia.
Defined.

(** ** ListGenome: what [copy_te] copies, and where to *)

Lemma list_find_owner te : forall (l : list ascii) (ids : list Z),
  List.length l = List.length ids ->
  list_find (fun o => o = te) ids =
  prod_map id snd <$> list_find (fun p : ascii * Z => p.2 = te) (zip l ids).
Proof.
  induction l as [|c l IH]; intros [|o ids] Hlen; simpl in *; try done.
  case_decide; [done|].
  rewrite (IH ids) by lia.
  by destruct (list_find _ (zip l ids)) as [[i p]|].
Qed.

Lemma filter_owner te : forall (l : list ascii) (ids : list Z),
  List.length l = List.length ids ->
  List.length (filter (fun o => o = te) ids) =
  List.length (filter (fun p : ascii * Z => p.2 = te) (zip l ids)).
Proof.
  induction l as [|c l IH]; intros [|o ids] Hlen; simpl in *; try done.
  rewrite !filter_cons. simpl. case_decide; simpl; rewrite (IH ids) by lia; done.
Qed.

(** [copy_te] on a ListGenome in order: the symbol read tells whether the
    id is active. *)
Lemma list_copy_te_ready (g : ListGenome.t) (te offset : Z) :
  list_ready g -> te <> 0 ->
  ListGenome.copy_te te offset g =
  match first_of te (zip g.(ListGenome.lst) g.(ListGenome.ID)) with
  | None => Raise UnboundLocalError g
  | Some k =>
      if bool_decide (te ∈ g.(ListGenome.active_lst))
      then (Some <$> ListGenome.insert_te (Z.of_nat k + offset)
                       (len (filter (fun p : ascii * Z => p.2 = te)
                               (zip g.(ListGenome.lst) g.(ListGenome.ID))))) g
      else Return None g
  end.
Proof.
  intros [Hwf (_ & Hs & _)] Hte0.
  pose proof (list_wf_lockstep _ _ Hwf) as Hls.
  rewrite ListFacts.list_copy_te_eq.
  unfold first_of, len. rewrite (list_find_owner te _ _ Hls), (filter_owner te _ _ Hls).
  destruct (list_find _ (zip _ _)) as [[k [c o]]|] eqn:E; simpl; [|done].
  apply list_find_Some in E as (Hk & Ho & _). simpl in Ho. subst o.
  apply lookup_zip_with_Some in Hk as (c' & o' & [= <- <-] & Hc & Ho).
  rewrite Hc.
  destruct (Forall2_lookup_lr _ _ _ _ _ _ Hs Hc Ho) as (_ & _ & Hact & Hdis).
  destruct (decide (te ∈ ListGenome.active_lst g)) as [Hin|Hout].
  - rewrite (bool_decide_eq_true_2 (te ∈ _)) by done.
    rewrite bool_decide_eq_false_2; [done|].
    apply Hact in Hin. rewrite Hin. discriminate.
  - rewrite (bool_decide_eq_false_2 (te ∈ _)) by done.
    by rewrite bool_decide_eq_true_2 by auto.
Qed.

(** X12. [ListGenome.copy_te] of an id other than 0 on a reachable genome.
    An id that owns no position (never issued, or inserted with no
    position) makes it raise [UnboundLocalError]; an id that is disabled
    gives [None]; both leave the object as it was. For an active id that
    first shows at position [k], the call is [insert_te(k + offset, m)]
    with [m] the number of positions the id owns. *)
Theorem list_copy_te_positions (n : Z) (ops : list op) (g : state array_backed)
    (te offset : Z) (v : list (ascii * Z)) :
  g ∈ run (new n) ops -> positions g = Some v -> te <> 0 ->
  copy_te te offset g =
  match first_of te v with
  | None => Raise UnboundLocalError g
  | Some k =>
      if bool_decide (te ∈ active_tes g)
      then (Some <$> insert_te (Z.of_nat k + offset)
                       (len (filter (fun p : ascii * Z => p.2 = te) v))) g
      else Return None g
  end.
Proof.
  intros Hg Hv Hte0. simpl in Hv. injection Hv as <-.
  exact (list_copy_te_ready g te offset (list_ready_run n ops g Hg) Hte0).
Qed.

Lemma list_copy_te_positions_witness :
  let g : state array_backed :=
    ListGenome.mk ["-"; "A"; "A"; "-"]%char [0; 1; 1; 0] [1] 1 in
  let v := [("-", 0); ("A", 1); ("A", 1); ("-", 0)]%char in
  copy_te 1 2 g =
  match first_of 1 v with
  | None => Raise UnboundLocalError g
  | Some k =>
      if bool_decide (1 ∈ active_tes g)
      then (Some <$> insert_te (Z.of_nat k + 2)
                       (len (filter (fun p : ascii * Z => p.2 = 1) v))) g
      else Return None g
  end.
Proof.
  apply (list_copy_te_positions 2 [InsertTe 1 2]).
  - apply list_elem_of_lookup. exists 1%nat. reflexivity.
  - reflexivity.
  - discriminate.
Defined.

(** ** A genome created without positions *)

Lemma barren_new (I : impl) n : n <= 0 -> barren (new (G := state I) n).
Proof.
  intros Hn. assert (Z.to_nat n = 0%nat) as E by lia.
  destruct I; simpl; unfold range; rewrite ?E; done.
Qed.

Lemma list_barren_insert_te (g : ListGenome.t) pos length :
  barren (I := array_backed) g ->
  ListGenome.insert_te pos length g =
  if bool_decide (pos > 0) then Raise ZeroDivisionError g
  else Raise IndexError (ListSteps.bump g).
Proof.
  intros (Hl & Hi & Ha). rewrite ListFacts.list_insert_te_eq.
  unfold ListSteps.wrapped. rewrite Hl. change (len (@nil ascii)) with 0.
  destruct (decide (pos > 0)) as [H1|H1].
  - by rewrite !bool_decide_eq_true_2 by lia.
  - rewrite !bool_decide_eq_false_2 by lia. by destruct pos.
Qed.

Lemma linked_barren_insert_te (g : LinkedListGenome.t) pos length :
  barren (I := linked_slots 0) g ->
  LinkedListGenome.insert_te pos length g = Raise IndexError (LinkedSteps.bump g).
Proof.
  intros (Hl & Hn & Hi & Ha). rewrite LinkedFacts.linked_insert_te_eq.
  rewrite Hl, Hn. by destruct (Z.to_nat (pos - 1)).
Qed.

Lemma barren_disable_te (I : impl) (g : state I) te :
  barren g -> disable_te te g = Raise ValueError g.
Proof.
  destruct I as [|fuel]; simpl in *.
  - destruct g as [l i a c]; simpl. intros (-> & -> & ->).
    by rewrite ListFacts.list_disable_te_lockstep.
  - destruct g as [l nx i a c]; simpl. intros (-> & -> & -> & ->).
    by rewrite LinkedFacts.linked_disable_te_lockstep.
Qed.

Lemma barren_copy_te (I : impl) (g : state I) te offset :
  barren g ->
  copy_te te offset g =
  match I with
  | array_backed => Raise UnboundLocalError g
  | linked_slots _ => Return None g
  end.
Proof.
  destruct I as [|fuel]; simpl.
  - intros (Hl & Hi & Ha). rewrite ListFacts.list_copy_te_eq, Hi. done.
  - intros (Hl & Hn & Hi & Ha).
    by rewrite LinkedFacts.linked_copy_te_inactive
      by (rewrite Ha; apply not_elem_of_nil).
Qed.

Lemma barren_step (I : impl) (o : op) (g g' : state I) :
  barren g -> state_after (step o g) = Some g' -> barren g'.
Proof.
  intros Hg. destruct o as [pos length|te offset|te]; simpl;
    rewrite ?state_after_seq.
  - destruct I as [|fuel]; simpl.
    + rewrite (list_barren_insert_te g pos length Hg).
      case_bool_decide; intros [= <-]; done.
    + rewrite (linked_barren_insert_te g pos length Hg). by intros [= <-].
  - rewrite (barren_copy_te I g te offset Hg). destruct I; by intros [= <-].
  - rewrite (barren_disable_te I g te Hg). by intros [= <-].
Qed.

Lemma barren_run (I : impl) n ops (g : state I) :
  n <= 0 -> g ∈ run (new n) ops -> barren g.
Proof.
  intros Hn Hg.
  assert (Forall barren (run (G := state I) (new n) ops)) as Hall.
  { apply (run_invariant (G := state I) barren (fun _ => True)).
    - intros o g1 g2 _. apply barren_step.
    - by apply Forall_true.
    - by apply barren_new. }
  rewrite Forall_forall in Hall. by apply Hall.
Qed.

(** X13. A genome of either class created with [n <= 0] never gets a
    position, whatever is called on it: it has no position and no active
    id, [insert_te] raises for every argument ([ZeroDivisionError] in the
    ListGenome for [pos > 0], [IndexError] otherwise), [disable_te] raises
    [ValueError], and [copy_te] raises [UnboundLocalError] in the ListGenome
    and returns [None] in the LinkedListGenome; the last two leave the
    object as it was. *)
Theorem empty_genome (I : impl) (n : Z) (ops : list op) (g : state I) :
  n <= 0 -> g ∈ run (new n) ops ->
  positions g = Some [] /\ __len__ g = 0 /\ active_tes g = [] /\
  (forall pos length, exists g',
     insert_te pos length g =
     Raise (match I with
            | array_backed =>
                if bool_decide (pos > 0) then ZeroDivisionError else IndexError
            | linked_slots _ => IndexError
            end) g') /\
  (forall te, disable_te te g = Raise ValueError g) /\
  (forall te offset,
     copy_te te offset g =
     match I with
     | array_backed => Raise UnboundLocalError g
     | linked_slots _ => Return None g
     end).
Proof.
  intros Hn Hg. pose proof (barren_run I n ops g Hn Hg) as Hb.
  split_and!.
  - destruct I; simpl in *.
    + destruct Hb as (-> & -> & _). done.
    + destruct Hb as (-> & -> & -> & _). done.
  - destruct I; simpl in *.
    + destruct Hb as (Hl & _). unfold ListGenome.__len__. by rewrite Hl.
    + destruct Hb as (Hl & _). unfold LinkedListGenome.__len__. by rewrite Hl.
  - destruct I; simpl in *; tauto.
  - intros pos length. destruct I as [|fuel]; simpl.
    + rewrite (list_barren_insert_te g pos length Hb).
      case_bool_decide; eauto.
    + rewrite (linked_barren_insert_te g pos length Hb). eauto.
  - intros te. by apply barren_disable_te.
  - intros te offset. by apply barren_copy_te.
Qed.

Lemma empty_genome_witness :
  let g : state array_backed := ListGenome.mk [] [] [] 1 in
  positions g = Some [] /\ __len__ g = 0 /\ active_tes g = [] /\
  (forall pos length, exists g',
     insert_te pos length g =
     Raise (if bool_decide (pos > 0) then ZeroDivisionError else IndexError) g') /\
  (forall te, disable_te te g = Raise ValueError g) /\
  (forall te offset, copy_te te offset g = Raise UnboundLocalError g).
Proof.
  apply (empty_genome array_backed 0 [InsertTe 0 2]).
  - lia.
  - apply list_elem_of_lookup. exists 1%nat. reflexivity.
Defined.

(** ** Active elements stay in one piece *)

Lemma owner_lookup (v v' : list (ascii * Z)) i p :
  v'.*2 = v.*2 -> v' !! i = Some p -> exists q, v !! i = Some q /\ q.2 = p.2.
Proof.
  intros E H. assert (v.*2 !! i = Some p.2) as H'
    by (by rewrite <- E, list_lookup_fmap, H).
  rewrite list_lookup_fmap in H'.
  destruct (v !! i) as [q|]; simplify_eq/=; eauto.
Qed.

Lemma block_mono a a' (v v' : list (ascii * Z)) :
  (forall te, te ∈ a' -> te ∈ a) -> v'.*2 = v.*2 -> block a v -> block a' v'.
Proof.
  intros Ha Hv Hb te i j k pi pj pk Hte Hijk Hi Hj Hk Ei Ek.
  destruct (owner_lookup v v' i pi Hv Hi) as (qi & Hqi & Eqi).
  destruct (owner_lookup v v' j pj Hv Hj) as (qj & Hqj & Eqj).
  destruct (owner_lookup v v' k pk Hv Hk) as (qk & Hqk & Eqk).
  rewrite <- Eqj.
  apply (Hb te i j k qi qj qk); auto; congruence.
Qed.

Lemma lookup_put_in (v : list (ascii * Z)) p m id i :
  (p <= List.length v)%nat ->
  put_in v p m id !! i =
  if decide (i < p)%nat then v !! i
  else if decide (i < p + Z.to_nat m)%nat then Some (active_sym, id)
  else v !! (i - Z.to_nat m)%nat.
Proof.
  intros Hp. unfold put_in.
  assert (List.length (take p v) = p) as Ht by (rewrite length_take; lia).
  destruct (decide (i < p)%nat).
  - rewrite lookup_app_l by lia. by rewrite lookup_take_lt by lia.
  - rewrite lookup_app_r by lia. rewrite Ht.
    destruct (decide (i < p + Z.to_nat m)%nat).
    + rewrite lookup_app_l by (rewrite length_replicate; lia).
      apply lookup_replicate_2. lia.
    + rewrite lookup_app_r by (rewrite length_replicate; lia).
      rewrite length_replicate, lookup_drop. f_equal. lia.
Qed.

(** New positions put in where no active element is cut in two leave
    every active element in one piece. *)
Lemma block_put_in a (v : list (ascii * Z)) p m id :
  block a v -> (p <= List.length v)%nat ->
  (forall x y, (1 <= p)%nat -> v !! (p - 1)%nat = Some x -> v !! p = Some y ->
               x.2 = y.2 -> x.2 ∉ a) ->
  (forall y, y ∈ v -> y.2 <> id) ->
  block (a ++ [id]) (put_in v p m id).
Proof.
  intros Hb Hp Hcut Hfresh te i j k pi pj pk Hte Hijk Hi Hj Hk Ei Ek.
  rewrite lookup_put_in in Hi, Hj, Hk by done.
  assert (forall i p', v !! i = Some p' -> p'.2 <> id) as Hold
    by (intros ? ? ?%list_elem_of_lookup_2; auto).
  destruct (decide (te = id)) as [->|Hne].
  - (* the new element *)
    repeat case_decide; simplify_eq/=; try done;
      try (by destruct (Hold _ _ Hi)); try (by destruct (Hold _ _ Hk)); lia.
  - apply elem_of_app in Hte as [Hte|Hte%list_elem_of_singleton]; [|done].
    destruct (decide (j < p)%nat) as [Hjp|Hjp].
    { rewrite decide_True in Hi by lia.
      destruct (decide (k < p)%nat).
      - apply (Hb te i j k pi pj pk); auto.
      - destruct (decide (k < p + Z.to_nat m)%nat); [by simplify_eq/=|].
        apply (Hb te i j (k - Z.to_nat m)%nat pi pj pk); auto. lia. }
    destruct (decide (j < p + Z.to_nat m)%nat) as [Hjm|Hjm].
    { (* a new position between two positions of [te] *)
      exfalso.
      destruct (decide (i < p)%nat);
        [|destruct (decide (i < p + Z.to_nat m)%nat); [by simplify_eq/=|lia]].
      destruct (decide (k < p)%nat); [lia|].
      destruct (decide (k < p + Z.to_nat m)%nat); [by simplify_eq/=|].
      destruct (lookup_lt_is_Some_2 v (p - 1)) as [x Hx];
        [apply lookup_lt_Some in Hk; lia|].
      destruct (lookup_lt_is_Some_2 v p) as [y Hy];
        [apply lookup_lt_Some in Hk; lia|].
      assert (x.2 = te) as Ex
        by (apply (Hb te i (p - 1)%nat (k - Z.to_nat m)%nat pi x pk); auto; lia).
      assert (y.2 = te) as Ey
        by (apply (Hb te i p (k - Z.to_nat m)%nat pi y pk); auto; lia).
      apply (Hcut x y); [lia|done..|congruence|by rewrite Ex]. }
    rewrite decide_False in Hk by lia. rewrite decide_False in Hk by lia.
    destruct (decide (i < p)%nat).
    + apply (Hb te i (j - Z.to_nat m)%nat (k - Z.to_nat m)%nat pi pj pk); auto. lia.
    + destruct (decide (i < p + Z.to_nat m)%nat); [by simplify_eq/=|].
      apply (Hb te (i - Z.to_nat m)%nat (j - Z.to_nat m)%nat (k - Z.to_nat m)%nat
               pi pj pk); auto. lia.
Qed.

Lemma after_collision_owners (v : list (ascii * Z)) a q :
  (after_collision v a q).1.*2 = v.*2.
Proof.
  unfold after_collision. destruct (struck v q); simpl; [|done].
  rewrite <- list_fmap_compose. by apply list_fmap_ext.
Qed.

Lemma after_collision_active (v : list (ascii * Z)) a q te :
  te ∈ (after_collision v a q).2 -> te ∈ a.
Proof.
  unfold after_collision. destruct (struck v q); simpl; [|done].
  by intros [_ ?]%list_elem_of_filter.
Qed.

(** The owner of the position tested is not active afterwards. *)
Lemma after_collision_struck (v : list (ascii * Z)) a q y :
  Forall (fun p : ascii * Z => p.2 ∈ a -> p.1 = active_sym) v ->
  v !! q = Some y -> y.2 ∉ (after_collision v a q).2.
Proof.
  intros Hv Hq. unfold after_collision, struck. rewrite Hq.
  destruct y as [c o]. simpl. case_bool_decide as Hc; simpl.
  - intros [? _]%list_elem_of_filter. done.
  - intros Ho. rewrite Forall_lookup in Hv. by apply (Hv q (c, o)) in Ho.
Qed.

(** What [insert_te] does to the positions keeps the active elements in
    one piece, whether the new positions go in before the position tested
    or after it. *)
Lemma block_insert a b (v : list (ascii * Z)) q p m :
  block a v ->
  Forall (fun y : ascii * Z => y.2 <= b /\ (y.2 ∈ a -> y.1 = active_sym)) v ->
  (q < List.length v)%nat -> p = q \/ p = S q ->
  block ((after_collision v a q).2 ++ [b + 1])
        (put_in (after_collision v a q).1 p m (b + 1)).
Proof.
  intros Hb Hv Hq Hp.
  pose proof (after_collision_owners v a q) as Hown.
  assert (List.length (after_collision v a q).1 = List.length v) as Hlen
    by (rewrite <- (length_fmap snd), Hown; apply length_fmap).
  assert (forall y, (after_collision v a q).1 !! q = Some y ->
                    y.2 ∉ (after_collision v a q).2) as Hstruck.
  { intros y Hy. destruct (owner_lookup _ _ _ _ Hown Hy) as (y0 & Hy0 & <-).
    apply after_collision_struck; [|done].
    eapply Forall_impl; [exact Hv|]. simpl. tauto. }
  apply block_put_in.
  - eapply block_mono; [|exact Hown|exact Hb]. apply after_collision_active.
  - lia.
  - intros x y Hp1 Hx Hy Exy. destruct Hp as [->| ->].
    + rewrite Exy. by apply Hstruck.
    + apply Hstruck. rewrite <- Hx. f_equal. lia.
  - intros y (i & Hy)%list_elem_of_lookup.
    destruct (owner_lookup _ _ _ _ Hown Hy) as (y0 & Hy0 & <-).
    rewrite Forall_lookup in Hv. destruct (Hv i y0 Hy0) as [? _]. lia.
Qed.

Lemma tidy_zip a b (l : list ascii) (ids : list Z) :
  Forall2 (slot_tidy a b) l ids ->
  Forall (fun y : ascii * Z => y.2 <= b /\ (y.2 ∈ a -> y.1 = active_sym)) (zip l ids).
Proof.
  induction 1 as [|c o l ids (Ho & _ & Hact & _) _ IH]; simpl; constructor; [|done].
  simpl. split; [lia|]. apply Hact.
Qed.

Lemma tidy_along a b (l : list ascii) (ids : list Z) slots v :
  Forall2 (slot_tidy a b) l ids -> along l ids slots v ->
  Forall (fun y : ascii * Z => y.2 <= b /\ (y.2 ∈ a -> y.1 = active_sym)) v.
Proof.
  intros Hs Hal. apply Forall_lookup. intros i y Hy.
  destruct (Forall2_lookup_r _ _ _ _ _ Hal Hy) as (s & _ & Hc & Ho).
  destruct (Forall2_lookup_lr _ _ _ _ _ _ Hs Hc Ho) as (Hb & _ & Hact & _).
  split; [lia|]. apply Hact.
Qed.

Lemma mark_owners te (v : list (ascii * Z)) : (mark te <$> v).*2 = v.*2.
Proof. rewrite <- list_fmap_compose. by apply list_fmap_ext. Qed.

(** *** ListGenome *)

Lemma list_block_insert pos length (g g' : ListGenome.t) :
  list_ready g ->
  block g.(ListGenome.active_lst) (zip g.(ListGenome.lst) g.(ListGenome.ID)) ->
  state_after (ListGenome.insert_te pos length g) = Some g' ->
  block g'.(ListGenome.active_lst) (zip g'.(ListGenome.lst) g'.(ListGenome.ID)).
Proof.
  intros Hready Hb.
  pose proof Hready as [Hwf (_ & Hs & _)].
  pose proof (list_wf_lockstep _ _ Hwf) as Hls.
  set (N := len (ListGenome.lst g)).
  destruct (decide (pos = N \/ pos < - N \/ (N = 0 /\ pos > 0))) as [Hout|Hin].
  - rewrite (list_insert_te_out g pos length Hout).
    case_bool_decide; intros [= <-]; done.
  - assert (0 <= N) by (unfold N, len; lia).
    destruct (list_insert_te_ready g pos length Hready) as (g2 & E & Hp & Ha & _).
    { intros E. unfold N in *. rewrite E in *. simpl in *.
      change (len []) with 0 in Hin. lia. }
    { fold N. lia. }
    { fold N. lia. }
    rewrite E. intros [= <-]. simpl in Hp. injection Hp as Hp.
    cbv zeta in Ha. rewrite Hp, Ha.
    apply block_insert; [done|by apply tidy_zip| |by left].
    rewrite length_zip_with_l_eq by done.
    assert (0 <= pos mod N < N) by (apply Z.mod_pos_bound; lia).
    fold N. unfold N, len in *. lia.
Qed.

Lemma list_block_step (o : op) (g g' : ListGenome.t) :
  list_ready g ->
  block g.(ListGenome.active_lst) (zip g.(ListGenome.lst) g.(ListGenome.ID)) ->
  state_after (step o g) = Some g' ->
  block g'.(ListGenome.active_lst) (zip g'.(ListGenome.lst) g'.(ListGenome.ID)).
Proof.
  intros Hready Hb.
  destruct o as [pos length|te offset|te]; simpl; rewrite ?state_after_seq.
  - by apply list_block_insert.
  - rewrite ListFacts.list_copy_te_eq.
    destruct (list_find _ _) as [[i o]|]; [|by intros [= <-]].
    destruct (_ !! i) as [c|]; [|by intros [= <-]].
    case_bool_decide; [by intros [= <-]|].
    rewrite state_after_fmap. by apply list_block_insert.
  - pose proof Hready as [Hwf _].
    rewrite ListFacts.list_disable_te_lockstep
      by (symmetry; apply (list_wf_lockstep _ _ Hwf)).
    destruct (list_remove te _) as [a|] eqn:Hrm; intros [= <-]; simpl;
      rewrite zip_relabel.
    + eapply block_mono; [|apply mark_owners|exact Hb].
      intros x. by apply (list_remove_elem te).
    + eapply block_mono; [|apply mark_owners|exact Hb]. done.
Qed.

(** *** LinkedListGenome *)

Lemma linked_ready_of (g : LinkedListGenome.t) :
  linked_lockstep g ->
  tidy g.(LinkedListGenome.count) g.(LinkedListGenome.active_lst)
       g.(LinkedListGenome.lst) g.(LinkedListGenome.ID) ->
  exists v, positions (I := linked_slots 0) g = Some v /\ linked_ready g v.
Proof.
  intros (Hid & Hnx & slots & Hp & Hnd & Hlen & Hin) Htidy.
  assert (forall x, x ∈ slots <-> 0 <= x < len (LinkedListGenome.lst g)) as Hin'.
  { intros x. rewrite Hin. unfold len. by rewrite Hnx. }
  destruct (linked_positions_ring g slots) as (v & Hv & Hal);
    [done|congruence|by intros x ?%Hin'|done|].
  exists v. split; [done|]. exists slots. split_and!; try done; congruence.
Qed.

Lemma linked_insert_te_bare (g : LinkedListGenome.t) pos length :
  g.(LinkedListGenome.lst) = [] -> g.(LinkedListGenome.index_next) = [] ->
  LinkedListGenome.insert_te pos length g = Raise IndexError (LinkedSteps.bump g).
Proof.
  intros Hl Hn. rewrite LinkedFacts.linked_insert_te_eq.
  rewrite Hl, Hn. by destruct (Z.to_nat (pos - 1)).
Qed.

Lemma linked_block_insert pos length (g g' : LinkedListGenome.t) :
  linked_lockstep g ->
  tidy g.(LinkedListGenome.count) g.(LinkedListGenome.active_lst)
       g.(LinkedListGenome.lst) g.(LinkedListGenome.ID) ->
  (forall v, positions (I := linked_slots 0) g = Some v ->
             block g.(LinkedListGenome.active_lst) v) ->
  1 <= length ->
  state_after (LinkedListGenome.insert_te pos length g) = Some g' ->
  forall v', positions (I := linked_slots 0) g' = Some v' ->
             block g'.(LinkedListGenome.active_lst) v'.
Proof.
  intros Hls Htidy Hb HL.
  destruct (linked_ready_of g Hls Htidy) as (v & Hv & Hready).
  specialize (Hb v Hv).
  destruct (decide (v = [])) as [->|Hne].
  - destruct Hready as (slots & _ & _ & Hlen & _ & _ & Hnx & Hal & _).
    apply Forall2_length in Hal. simpl in Hal.
    rewrite linked_insert_te_bare.
    + intros [= <-] v' Hv'.
      pose proof (eq_trans (eq_sym Hv') Hv) as [= ->]. exact Hb.
    + apply length_zero_iff_nil. lia.
    + apply length_zero_iff_nil. lia.
  - destruct (linked_insert_te_ready g pos length v Hready Hne HL)
      as (g2 & E & Hp & Ha & _).
    rewrite E. intros [= <-] v' Hv'. cbv zeta in *.
    rewrite Hp in Hv'. injection Hv' as <-. rewrite Ha.
    destruct Hready as (slots & _ & _ & _ & _ & _ & _ & Hal & (_ & Hs & _)).
    apply block_insert; [done|by eapply tidy_along| |by right].
    apply Nat.mod_upper_bound. by destruct v.
Qed.

Lemma linked_block_disable te (g g' : LinkedListGenome.t) :
  linked_lockstep g ->
  tidy g.(LinkedListGenome.count) g.(LinkedListGenome.active_lst)
       g.(LinkedListGenome.lst) g.(LinkedListGenome.ID) ->
  (forall v, positions (I := linked_slots 0) g = Some v ->
             block g.(LinkedListGenome.active_lst) v) ->
  state_after (LinkedListGenome.disable_te te g) = Some g' ->
  forall v', positions (I := linked_slots 0) g' = Some v' ->
             block g'.(LinkedListGenome.active_lst) v'.
Proof.
  intros Hls Htidy Hb.
  destruct (linked_ready_of g Hls Htidy) as (v & Hv & Hready).
  specialize (Hb v Hv).
  destruct Hready as (slots & Hp & _ & Hlen & Hin & Hid & _ & Hal & _).
  rewrite LinkedFacts.linked_disable_te_lockstep by done.
  assert (forall a,
            positions (I := linked_slots 0)
              (LinkedListGenome.set_active_lst a (LinkedSteps.marked te g))
            = Some (mark te <$> v)) as Hpos.
  { intros a. apply (linked_positions_along _ slots);
      simpl; rewrite ?relabel_length; try done.
    - intros x Hx%Hin. unfold len in *. by rewrite relabel_length.
    - by apply along_relabel. }
  destruct (list_remove te _) as [a|] eqn:Hrm; intros [= <-] v' Hv'.
  - rewrite Hpos in Hv'. injection Hv' as <-. simpl.
    eapply block_mono; [|apply mark_owners|exact Hb].
    intros x. by apply (list_remove_elem te).
  - specialize (Hpos (LinkedListGenome.active_lst g)).
    change (positions (I := linked_slots 0) (LinkedSteps.marked te g)
            = Some (mark te <$> v)) in Hpos.
    rewrite Hpos in Hv'. injection Hv' as <-. simpl.
    eapply block_mono; [|apply mark_owners|exact Hb]. done.
Qed.

Lemma linked_block_step fuel (o : op) (g g' : state (linked_slots fuel)) :
  positive_length o -> linked_lockstep g -> tidy_state g ->
  (forall v, positions g = Some v -> block (active_tes g) v) ->
  state_after (step o g) = Some g' ->
  forall v', positions g' = Some v' -> block (active_tes g') v'.
Proof.
  intros Ho Hls Htidy Hb.
  destruct o as [pos length|te offset|te]; simpl in *; rewrite ?state_after_seq.
  - by apply linked_block_insert.
  - destruct (LinkedFacts.linked_copy_te_cases fuel te offset g)
      as [[_ E]|[_ [E|[E|(p & n & Hn & E)]]]]; rewrite E; try (by intros [= <-]).
    rewrite state_after_fmap. by apply linked_block_insert.
  - by apply linked_block_disable.
Qed.

(** Every reachable ListGenome has its active elements in one piece. *)
Lemma list_block_reachable (n : Z) (ops : list op) (g : state array_backed) :
  g ∈ run (new n) ops ->
  block (active_tes g) (zip g.(ListGenome.lst) g.(ListGenome.ID)).
Proof.
  intros Hg.
  assert (Forall (fun g : state array_backed =>
                    list_ready g /\
                    block (active_tes g) (zip g.(ListGenome.lst) g.(ListGenome.ID)))
                 (run (G := state array_backed) (new n) ops)) as Hall.
  { apply (run_invariant (G := state array_backed) _ (fun _ => True)).
    - intros o g1 g2 _ [[Hwf Ht] Hb] Hs. split; [split|].
      + by apply (list_wf_step o g1).
      + by apply (tidy_step array_backed o g1).
      + by apply (list_block_step o g1).
    - by apply Forall_true.
    - split; [apply (list_ready_run n [])|]; [apply list_elem_of_singleton; done|].
      by intros te i j k pi pj pk ?%elem_of_nil. }
  rewrite Forall_forall in Hall. by destruct (Hall g Hg) as [_ Hb].
Qed.

(** So has every reachable genome of either class. *)
Lemma block_reachable (I : impl) (n : Z) (ops : list op) (g : state I) v :
  Forall positive_length ops -> g ∈ run (new n) ops ->
  positions g = Some v -> block (active_tes g) v.
Proof.
  intros Hok Hg.
  destruct I as [|fuel].
  - simpl. intros [= <-]. by apply (list_block_reachable n ops).
  - assert (Forall (fun g : state (linked_slots fuel) =>
                      linked_owned g /\ tidy_state g /\
                      forall v, positions g = Some v -> block (active_tes g) v)
                   (run (G := state (linked_slots fuel)) (new n) ops)) as Hall.
    { apply (run_invariant (G := state (linked_slots fuel)) _ positive_length); [|done|].
      - intros o g1 g2 Ho (Hown & Ht & Hb) Hs. split_and!.
        + by apply (linked_owned_step fuel o g1).
        + by apply (tidy_step (linked_slots fuel) o g1).
        + destruct Hown as [Hls _]. by apply (linked_block_step fuel o g1).
      - split_and!.
        + apply linked_owned_new.
        + apply (tidy_new (linked_slots fuel)).
        + by intros v0 _ te i j k pi pj pk ?%elem_of_nil. }
    rewrite Forall_forall in Hall. destruct (Hall g Hg) as (_ & _ & Hb). apply Hb.
Qed.

(** ** Active elements show in the genome *)

Lemma put_in_owners (v : list (ascii * Z)) p m id :
  (put_in v p m id).*2 = take p v.*2 ++ replicate (Z.to_nat m) id ++ drop p v.*2.
Proof.
  unfold put_in. by rewrite !fmap_app, fmap_take, fmap_drop, fmap_replicate.
Qed.

(** After [insert_te] of at least one position every active id owns one. *)
Lemma shows_insert a (v : list (ascii * Z)) q p m id :
  (forall te, te ∈ a -> te ∈ v.*2) -> 1 <= m ->
  forall te, te ∈ (after_collision v a q).2 ++ [id] ->
             te ∈ (put_in (after_collision v a q).1 p m id).*2.
Proof.
  intros Ha Hm te Hte. rewrite put_in_owners, after_collision_owners.
  apply elem_of_app in Hte as [Hte%after_collision_active|Hte%list_elem_of_singleton].
  - apply Ha in Hte. rewrite <- (take_drop p v.*2) in Hte.
    rewrite !elem_of_app in *. tauto.
  - subst te. rewrite !elem_of_app. right; left.
    apply elem_of_replicate. split; [done|]. lia.
Qed.

Lemma list_shows_insert pos length (g g' : ListGenome.t) :
  list_ready g ->
  (forall te, te ∈ g.(ListGenome.active_lst) -> te ∈ g.(ListGenome.ID)) ->
  1 <= length ->
  state_after (ListGenome.insert_te pos length g) = Some g' ->
  forall te, te ∈ g'.(ListGenome.active_lst) -> te ∈ g'.(ListGenome.ID).
Proof.
  intros Hready Ha HL Hs.
  pose proof Hready as [Hwf _].
  pose proof (list_wf_lockstep _ _ Hwf) as Hls.
  pose proof (list_wf_lockstep _ _ (list_insert_wf pos length g g' Hwf Hs)) as Hls'.
  revert Hs.
  set (N := len (ListGenome.lst g)).
  destruct (decide (pos = N \/ pos < - N \/ (N = 0 /\ pos > 0))) as [Hout|Hin].
  - rewrite (list_insert_te_out g pos length Hout).
    case_bool_decide; intros [= <-]; done.
  - assert (0 <= N) by (unfold N, len; lia).
    destruct (list_insert_te_ready g pos length Hready) as (g2 & E & Hp & Ha2 & _).
    { intros E. unfold N in *. rewrite E in *. simpl in *.
      change (len []) with 0 in Hin. lia. }
    { fold N. lia. }
    { fold N. lia. }
    rewrite E. intros [= <-]. simpl in Hp. injection Hp as Hp.
    cbv zeta in Ha2. intros te Hte. rewrite Ha2 in Hte.
    unfold list_lockstep in *.
    rewrite <- (snd_zip (ListGenome.lst g2) (ListGenome.ID g2)) by lia.
    rewrite Hp. apply shows_insert; [|done..].
    intros x Hx. rewrite snd_zip by lia. by apply Ha.
Qed.

Lemma list_shows_step (o : op) (g g' : ListGenome.t) :
  positive_length o -> list_ready g ->
  (forall te, te ∈ g.(ListGenome.active_lst) -> te ∈ g.(ListGenome.ID)) ->
  state_after (step o g) = Some g' ->
  forall te, te ∈ g'.(ListGenome.active_lst) -> te ∈ g'.(ListGenome.ID).
Proof.
  intros Ho Hready Ha.
  destruct o as [pos length|te offset|te]; simpl in *; rewrite ?state_after_seq.
  - by apply list_shows_insert.
  - rewrite ListFacts.list_copy_te_eq.
    destruct (list_find _ _) as [[i o]|] eqn:Hf; [|by intros [= <-]].
    destruct (_ !! i) as [c|]; [|by intros [= <-]].
    case_bool_decide; [by intros [= <-]|].
    rewrite state_after_fmap. apply list_shows_insert; [done..|].
    apply list_find_Some in Hf as (Hi & -> & _).
    assert (te ∈ filter (fun o => o = te) (ListGenome.ID g)) as Hin
      by (apply list_elem_of_filter; split; [done|by eapply list_elem_of_lookup_2]).
    unfold len. destruct (filter _ _); [by apply elem_of_nil in Hin|simpl; lia].
  - pose proof Hready as [Hwf _].
    rewrite ListFacts.list_disable_te_lockstep
      by (symmetry; apply (list_wf_lockstep _ _ Hwf)).
    destruct (list_remove te _) as [a|] eqn:Hrm; intros [= <-]; simpl; [|done].
    intros x Hx. apply Ha. by apply (list_remove_elem te _ a).
Qed.

(** What is known of the positions of a reachable genome. *)
Lemma positions_tidy (I : impl) (n : Z) (ops : list op) (g : state I) v :
  Forall positive_length ops -> g ∈ run (new n) ops -> positions g = Some v ->
  Forall (fun y : ascii * Z =>
            y.2 <= counter g /\ (y.2 ∈ active_tes g -> y.1 = active_sym)) v.
Proof.
  intros Hok Hg Hv. destruct I as [|fuel].
  - destruct (tidy_reachable array_backed n ops g Hg) as (_ & Hs & _).
    simpl in Hv. injection Hv as <-. by apply tidy_zip.
  - destruct (linked_ready_run fuel n ops g v Hok Hg Hv)
      as (slots & _ & _ & _ & _ & _ & _ & Hal & (_ & Hs & _)).
    by eapply tidy_along.
Qed.

(** Every active id of a reachable genome has a first position. *)
Lemma shows_reachable (I : impl) (n : Z) (ops : list op) (g : state I) v te :
  Forall positive_length ops -> g ∈ run (new n) ops ->
  positions g = Some v -> te ∈ active_tes g ->
  exists k, first_of te v = Some k.
Proof.
  intros Hok Hg Hv Hte. destruct I as [|fuel].
  - assert (Forall (fun g : state array_backed =>
                      list_ready g /\
                      forall te, te ∈ g.(ListGenome.active_lst) -> te ∈ g.(ListGenome.ID))
                   (run (G := state array_backed) (new n) ops)) as Hall.
    { apply (run_invariant (G := state array_backed) _ positive_length); [|done|].
      - intros o g1 g2 Ho [[Hwf Ht] Ha] Hs. split; [split|].
        + by apply (list_wf_step o g1).
        + by apply (tidy_step array_backed o g1).
        + by apply (list_shows_step o g1).
      - split; [apply (list_ready_run n [])|]; [apply list_elem_of_singleton; done|].
        by intros x ?%elem_of_nil. }
    rewrite Forall_forall in Hall. destruct (Hall g Hg) as [[Hwf _] Ha].
    apply Ha in Hte. simpl in Hv. injection Hv as <-.
    pose proof (list_wf_lockstep _ _ Hwf) as Hls. unfold list_lockstep in Hls.
    rewrite <- (snd_zip (ListGenome.lst g) (ListGenome.ID g)) in Hte by lia.
    apply list_elem_of_fmap in Hte as (p & -> & Hp).
    by apply (first_of_elem _ _ p).
  - pose proof (linked_ready_run fuel n ops g v Hok Hg Hv) as Hready.
    pose proof (linked_owned_run fuel n ops g Hok Hg) as Hown.
    destruct (linked_copy_te_ready (List.length v) te 0 g v Hready Hown Hte)
      as (k & Hk & _); [done|eauto].
Qed.

(** ** The shape of an active element *)

Lemma stretch_owned te : forall (w : list (ascii * Z)) i,
  (i < stretch te w)%nat -> exists p, w !! i = Some p /\ p.2 = te.
Proof.
  induction w as [|x w IH]; intros i; simpl; [lia|].
  case_bool_decide; [|lia]. destruct i as [|i]; simpl; [eauto|].
  intros Hi. apply IH. lia.
Qed.

Lemma stretch_reach te : forall (w : list (ascii * Z)) d,
  (forall i, (i <= d)%nat -> exists p, w !! i = Some p /\ p.2 = te) ->
  (d < stretch te w)%nat.
Proof.
  induction w as [|x w IH]; intros d Hall; simpl.
  - destruct (Hall 0%nat) as (p & Hp & _); [lia|done].
  - destruct (Hall 0%nat) as (p & [= ->] & Hp); [lia|].
    rewrite bool_decide_eq_true_2 by done.
    destruct d as [|d]; [lia|]. apply ->Nat.succ_lt_mono. apply IH.
    intros i Hi. apply (Hall (S i)). lia.
Qed.

Lemma filter_interval (P : ascii * Z -> Prop) `{!forall p, Decision (P p)} :
  forall (v : list (ascii * Z)) (k m : nat),
  (forall j p, v !! j = Some p -> (P p <-> (k <= j < k + m)%nat)) ->
  (k + m <= List.length v)%nat ->
  List.length (filter P v) = m.
Proof.
  induction v as [|x v IH]; intros k m Hiff Hlen; simpl in *; [lia|].
  rewrite filter_cons. destruct k as [|k], m as [|m].
  - rewrite decide_False by (intros HP; apply (Hiff 0%nat x) in HP; [lia|done]).
    apply (IH 0%nat 0%nat); [|lia].
    intros j p Hj. rewrite (Hiff (S j) p Hj). lia.
  - rewrite decide_True by (apply (Hiff 0%nat x); [done|lia]).
    simpl. f_equal. apply (IH 0%nat m); [|lia].
    intros j p Hj. rewrite (Hiff (S j) p Hj). lia.
  - rewrite decide_False by (intros HP; apply (Hiff 0%nat x) in HP; [lia|done]).
    apply (IH k 0%nat); [|lia].
    intros j p Hj. rewrite (Hiff (S j) p Hj). lia.
  - rewrite decide_False by (intros HP; apply (Hiff 0%nat x) in HP; [lia|done]).
    apply (IH k (S m)); [|lia].
    intros j p Hj. rewrite (Hiff (S j) p Hj). lia.
Qed.

(** An element in one piece that first shows at position [k] owns the
    stretch from [k] on and nothing else. *)
Lemma block_shape a (v : list (ascii * Z)) te k :
  block a v -> te ∈ a -> first_of te v = Some k ->
  (1 <= stretch te (drop k v))%nat /\
  (forall j p, v !! j = Some p ->
     (p.2 = te <-> (k <= j < k + stretch te (drop k v))%nat)) /\
  List.length (filter (fun p : ascii * Z => p.2 = te) v) = stretch te (drop k v).
Proof.
  intros Hb Hte Hk.
  apply first_of_Some in Hk as (p0 & Hp0 & Ep0 & Hmin).
  assert (forall j p, v !! j = Some p ->
            (p.2 = te <-> (k <= j < k + stretch te (drop k v))%nat)) as Hiff.
  { intros j p Hj. split.
    - intros Ep.
      assert (k <= j)%nat as Hkj.
      { destruct (decide (k <= j)%nat); [done|]. destruct (Hmin j p Hj); [lia|done]. }
      split; [done|].
      assert (j - k < stretch te (drop k v))%nat; [|lia].
      apply stretch_reach. intros i Hi.
      destruct (lookup_lt_is_Some_2 v (k + i)) as [x Hx];
        [apply lookup_lt_Some in Hj; lia|].
      exists x. rewrite lookup_drop. split; [done|].
      apply (Hb te k (k + i)%nat j p0 x p); auto. lia.
    - intros [Hkj Hlt].
      destruct (stretch_owned te (drop k v) (j - k)) as (x & Hx & Ex); [lia|].
      rewrite lookup_drop in Hx. replace (k + (j - k))%nat with j in Hx by lia.
      congruence. }
  split_and!; [|done|].
  - apply (Hiff k p0 Hp0) in Ep0. lia.
  - apply (filter_interval _ v k); [done|].
    pose proof (stretch_le te (drop k v)) as Hle. rewrite length_drop in Hle.
    apply lookup_lt_Some in Hp0. lia.
Qed.

(** X14. In every genome of either class reached by calls that insert at
    least one position each, an active element is there and in one piece:
    it has a first position [k], the positions it owns are exactly those
    from [k] on that [copy_te] of the LinkedListGenome counts, at least
    one, and their number is the one [copy_te] of the ListGenome counts.
    So a copy has as many positions as the element, in both classes. *)
Theorem active_element_block (I : impl) (n : Z) (ops : list op) (g : state I)
    (v : list (ascii * Z)) (te : Z) :
  Forall positive_length ops -> g ∈ run (new n) ops ->
  positions g = Some v -> te ∈ active_tes g ->
  exists k, first_of te v = Some k /\
    let m := stretch te (drop k v) in
    (1 <= m)%nat /\
    (forall j p, v !! j = Some p -> (p.2 = te <-> (k <= j < k + m)%nat)) /\
    List.length (filter (fun p : ascii * Z => p.2 = te) v) = m.
Proof.
  intros Hok Hg Hv Hte.
  pose proof (block_reachable I n ops g v Hok Hg Hv) as Hb.
  destruct (shows_reachable I n ops g v te Hok Hg Hv Hte) as [k Hk].
  exists k. split; [done|]. cbv zeta. by apply (block_shape (active_tes g)).
Qed.

Lemma active_element_block_witness :
  let v := [("-", 0); ("-", 0); ("A", 1); ("A", 1); ("-", 0)]%char in
  exists k, first_of 1 v = Some k /\
    let m := stretch 1 (drop k v) in
    (1 <= m)%nat /\
    (forall j p, v !! j = Some p -> (p.2 = 1 <-> (k <= j < k + m)%nat)) /\
    List.length (filter (fun p : ascii * Z => p.2 = 1) v) = m.
Proof.
  apply (active_element_block (linked_slots 4) 3 [InsertTe 2 2]
           (LinkedListGenome.mk ["-"; "-"; "-"; "A"; "A"]%char [1; 3; 0; 4; 2]
                                [0; 0; 0; 1; 1] [1] 1)).
  - apply Forall_cons. split; [simpl; lia|apply Forall_nil_2].
  - apply list_elem_of_lookup. exists 1%nat. reflexivity.
  - reflexivity.
  - apply list_elem_of_singleton. reflexivity.
Defined.

(** ** Copying an element into itself *)

(** A collision with an active element. *)
Lemma after_collision_hit (v : list (ascii * Z)) a q te :
  v !! q = Some (active_sym, te) ->
  after_collision v a q = (mark te <$> v, filter (fun x => x <> te) a).
Proof.
  intros Hq. unfold after_collision, struck. rewrite Hq.
  by rewrite bool_decide_eq_true_2.
Qed.

(** The positions of the stretch of an active element read ["A"]. *)
Lemma stretch_active (a : list Z) b (v : list (ascii * Z)) te k i :
  Forall (fun y : ascii * Z => y.2 <= b /\ (y.2 ∈ a -> y.1 = active_sym)) v ->
  te ∈ a -> (i < stretch te (drop k v))%nat ->
  v !! (k + i)%nat = Some (active_sym, te).
Proof.
  intros Hv Hte Hi.
  destruct (stretch_owned te (drop k v) i Hi) as ([c o] & Hx & Ex).
  rewrite lookup_drop in Hx. simpl in Ex. subst o.
  rewrite Forall_lookup in Hv. destruct (Hv _ _ Hx) as [_ Hc].
  simpl in Hc. by rewrite Hc in Hx.
Qed.

(** X15. [ListGenome.copy_te] of an active element onto itself. With [k]
    the first position of the element and [m] the number of its positions,
    an offset [0 <= offset < m] makes the copy collide with the element it
    copies: the element is disabled, and the copy, a new element of [m]
    positions, is put in before position [k + offset]. *)
Theorem list_copy_te_into_itself (n : Z) (ops : list op) (g : state array_backed)
    (v : list (ascii * Z)) (te offset : Z) (k : nat) :
  g ∈ run (new n) ops -> positions g = Some v ->
  te ∈ active_tes g -> first_of te v = Some k ->
  0 <= offset < Z.of_nat (stretch te (drop k v)) ->
  exists g',
    copy_te te offset g = Return (Some (counter g + 1)) g' /\
    positions g' =
      Some (put_in (mark te <$> v) (k + Z.to_nat offset)
                   (Z.of_nat (stretch te (drop k v))) (counter g + 1)) /\
    active_tes g' = filter (fun x => x <> te) (active_tes g) ++ [counter g + 1] /\
    te ∉ active_tes g'.
Proof.
  intros Hg Hv Hte Hk Hoff. simpl in Hv. injection Hv as Hv.
  pose proof (list_ready_run n ops g Hg) as Hready.
  pose proof Hready as [Hwf (_ & Hs & _ & Hact)].
  pose proof (list_wf_lockstep _ _ Hwf) as Hls.
  pose proof (list_block_reachable n ops g Hg) as Hb. rewrite Hv in Hb.
  destruct (block_shape _ v te k Hb Hte Hk) as (Hm & _ & Hcount).
  rewrite Forall_forall in Hact. pose proof (Hact te Hte) as Hte1.
  assert (len v = len (ListGenome.lst g)) as HN
    by (rewrite <- Hv; unfold len; by rewrite length_zip_with_l_eq).
  pose proof (stretch_le te (drop k v)) as Hle. rewrite length_drop in Hle.
  pose proof Hk as (p0 & Hp0%lookup_lt_Some & _)%first_of_Some.
  assert (v !! (k + Z.to_nat offset)%nat = Some (active_sym, te)) as Hq.
  { apply (stretch_active (ListGenome.active_lst g) (ListGenome.count g));
      [|done|lia].
    rewrite <- Hv. by apply tidy_zip. }
  change (exists g',
    ListGenome.copy_te te offset g = Return (Some (ListGenome.count g + 1)) g' /\
    Some (zip (ListGenome.lst g') (ListGenome.ID g')) =
      Some (put_in (mark te <$> v) (k + Z.to_nat offset)
                   (Z.of_nat (stretch te (drop k v))) (ListGenome.count g + 1)) /\
    ListGenome.active_lst g' =
      filter (fun x => x <> te) (ListGenome.active_lst g) ++ [ListGenome.count g + 1] /\
    te ∉ ListGenome.active_lst g').
  rewrite (list_copy_te_ready g te offset Hready) by lia.
  rewrite Hv, Hk, bool_decide_eq_true_2 by done.
  unfold len at 1. rewrite Hcount.
  destruct (list_insert_te_ready g (Z.of_nat k + offset)
              (Z.of_nat (stretch te (drop k v))) Hready)
    as (g' & E & Hp & Ha & Hc).
  { intros El. rewrite El in HN. unfold len in HN. simpl in HN. lia. }
  { unfold len. lia. }
  { unfold len in *. lia. }
  cbv zeta in Hp, Ha.
  rewrite <- HN, Hv in Hp, Ha.
  replace (Z.to_nat ((Z.of_nat k + offset) mod len v))
    with (k + Z.to_nat offset)%nat in Hp, Ha
    by (rewrite Z.mod_small by (unfold len; lia); lia).
  rewrite (after_collision_hit v _ _ te Hq) in Hp, Ha. simpl in Hp, Ha.
  exists g'. unfold fmap, M_fmap. rewrite E. split_and!; try done.
  rewrite Ha. intros [[? _]%list_elem_of_filter|?%list_elem_of_singleton]%elem_of_app;
    [done|lia].
Qed.

Lemma list_copy_te_into_itself_witness :
  let g : state array_backed :=
    ListGenome.mk ["-"; "A"; "A"; "-"]%char [0; 1; 1; 0] [1] 1 in
  let v := [("-", 0); ("A", 1); ("A", 1); ("-", 0)]%char in
  exists g',
    copy_te 1 1 g = Return (Some (counter g + 1)) g' /\
    positions g' =
      Some (put_in (mark 1 <$> v) (1 + Z.to_nat 1)
                   (Z.of_nat (stretch 1 (drop 1 v))) (counter g + 1)) /\
    active_tes g' = filter (fun x => x <> 1) (active_tes g) ++ [counter g + 1] /\
    1 ∉ active_tes g'.
Proof.
  apply (list_copy_te_into_itself 2 [InsertTe 1 2]).
  - apply list_elem_of_lookup. exists 1%nat. reflexivity.
  - reflexivity.
  - apply list_elem_of_singleton. reflexivity.
  - reflexivity.
  - simpl. lia.
Defined.

(** X16. [LinkedListGenome.copy_te] of an active element onto itself. The
    class tests the position before the one it inserts at, so every offset
    [1 <= offset <= m] makes the copy collide with the element it copies:
    the element is disabled, and the copy, a new element of [m] positions,
    is put in before position [k + offset]. Only this direction is
    stated: an offset outside this range is not said to miss the element. *)
Theorem linked_copy_te_into_itself (fuel : nat) (n : Z) (ops : list op)
    (g : state (linked_slots fuel)) (v : list (ascii * Z)) (te offset : Z) (k : nat) :
  Forall positive_length ops -> g ∈ run (new n) ops -> positions g = Some v ->
  te ∈ active_tes g -> (List.length v <= fuel)%nat -> first_of te v = Some k ->
  1 <= offset <= Z.of_nat (stretch te (drop k v)) ->
  exists g',
    copy_te te offset g = Return (Some (counter g + 1)) g' /\
    positions g' =
      Some (put_in (mark te <$> v) (k + Z.to_nat offset)
                   (Z.of_nat (stretch te (drop k v))) (counter g + 1)) /\
    active_tes g' = filter (fun x => x <> te) (active_tes g) ++ [counter g + 1] /\
    te ∉ active_tes g'.
Proof.
  intros Hok Hg Hv Hte Hfuel Hk Hoff.
  pose proof (linked_ready_run fuel n ops g v Hok Hg Hv) as Hready.
  pose proof (linked_owned_run fuel n ops g Hok Hg) as Hown.
  destruct (linked_copy_te_ready fuel te offset g v Hready Hown Hte Hfuel)
    as (k' & Hk' & Hm & E).
  rewrite Hk in Hk'. injection Hk' as <-.
  pose proof (stretch_le te (drop k v)) as Hle. rewrite length_drop in Hle.
  pose proof Hk as (p0 & Hp0%lookup_lt_Some & _)%first_of_Some.
  assert (v <> []) as Hne by (destruct v; [simpl in Hp0; lia|done]).
  pose proof Hready as (slots & _ & _ & _ & _ & _ & _ & Hal & (_ & Hs & _ & Hact)).
  rewrite Forall_forall in Hact. pose proof (Hact te Hte) as Hte1.
  destruct (linked_insert_te_ready g (len v + (Z.of_nat k + offset))
              (Z.of_nat (stretch te (drop k v))) v Hready Hne)
    as (g' & E' & Hp & Ha & Hc); [lia|].
  cbv zeta in Hp, Ha.
  assert ((Z.to_nat (len v + (Z.of_nat k + offset) - 1) mod List.length v)%nat
          = (k + (Z.to_nat offset - 1))%nat) as Hq.
  { apply Nat2Z.inj. rewrite Nat2Z.inj_mod, Z2Nat.id by (unfold len; lia).
    fold (len v).
    replace (len v + (Z.of_nat k + offset) - 1)
      with (Z.of_nat k + offset - 1 + 1 * len v) by lia.
    rewrite Z.mod_add by (unfold len; lia).
    rewrite Z.mod_small by (unfold len; lia). lia. }
  rewrite Hq in Hp, Ha.
  assert (v !! (k + (Z.to_nat offset - 1))%nat = Some (active_sym, te)) as Hhit.
  { apply (stretch_active (LinkedListGenome.active_lst g) (LinkedListGenome.count g));
      [by eapply tidy_along|done|lia]. }
  rewrite (after_collision_hit v _ _ te Hhit) in Hp, Ha. simpl in Hp, Ha.
  replace (S (k + (Z.to_nat offset - 1))) with (k + Z.to_nat offset)%nat in Hp by lia.
  exists g'. split_and!.
  - simpl. rewrite E. unfold fmap, M_fmap. by rewrite E'.
  - exact Hp.
  - exact Ha.
  - simpl. unfold LinkedListGenome.active_tes. rewrite Ha.
    intros [[? _]%list_elem_of_filter|?%list_elem_of_singleton]%elem_of_app;
      [done|lia].
Qed.

Lemma linked_copy_te_into_itself_witness :
  let g : state (linked_slots 5) :=
    LinkedListGenome.mk ["-"; "-"; "-"; "A"; "A"]%char [1; 3; 0; 4; 2]
                        [0; 0; 0; 1; 1] [1] 1 in
  let v := [("-", 0); ("-", 0); ("A", 1); ("A", 1); ("-", 0)]%char in
  exists g',
    copy_te 1 2 g = Return (Some (counter g + 1)) g' /\
    positions g' =
      Some (put_in (mark 1 <$> v) (2 + Z.to_nat 2)
                   (Z.of_nat (stretch 1 (drop 2 v))) (counter g + 1)) /\
    active_tes g' = filter (fun x => x <> 1) (active_tes g) ++ [counter g + 1] /\
    1 ∉ active_tes g'.
Proof.
  apply (linked_copy_te_into_itself 5 3 [InsertTe 2 2]).
  - apply Forall_cons. split; [simpl; lia|apply Forall_nil_2].
  - apply list_elem_of_lookup. exists 1%nat. reflexivity.
  - reflexivity.
  - apply list_elem_of_singleton. reflexivity.
  - simpl. lia.
  - reflexivity.
  - simpl. lia.
Defined.

(** ** The ids handed out *)

(** A call of [insert_te] that returns has raised the counter by one,
    returns it and has put it last in [self.active_lst]. *)
Lemma list_insert_te_returns pos length (g g' : ListGenome.t) id :
  ListGenome.insert_te pos length g = Return id g' ->
  id = g.(ListGenome.count) + 1 /\ g'.(ListGenome.count) = id /\
  exists a, g'.(ListGenome.active_lst) = a ++ [id].
Proof.
  rewrite ListFacts.list_insert_te_eq.
  case_bool_decide; [done|].
  destruct (py_get (ListGenome.lst g) _) as [c|]; [|done].
  case_bool_decide; [|intros [= <- <-]; simpl; eauto].
  destruct (py_get (ListGenome.ID g) _) as [o|]; [|done].
  destruct (ListFacts.list_disable_te_cases o (ListSteps.bump g))
    as [E|[[_ E]|(a & Ha & E)]]; rewrite E; [done..|].
  intros [= <- <-]; simpl; eauto.
Qed.

Lemma linked_insert_te_returns pos length (g g' : LinkedListGenome.t) id :
  LinkedListGenome.insert_te pos length g = Return id g' ->
  id = g.(LinkedListGenome.count) + 1 /\ g'.(LinkedListGenome.count) = id /\
  exists a, g'.(LinkedListGenome.active_lst) = a ++ [id].
Proof.
  assert (forall i g2, g2.(LinkedListGenome.count) = g.(LinkedListGenome.count) + 1 ->
            LinkedSteps.finish i length g2 = Return id g' ->
            id = g.(LinkedListGenome.count) + 1 /\ g'.(LinkedListGenome.count) = id /\
            exists a, g'.(LinkedListGenome.active_lst) = a ++ [id]) as Hfin.
  { intros i g2 Hc. unfold LinkedSteps.finish, LinkedSteps.splice.
    destruct (py_get _ _); simpl; [|done].
    destruct (py_set _ _ _); simpl; [|done].
    intros [= <- <-]; simpl; eauto. }
  rewrite LinkedFacts.linked_insert_te_eq.
  destruct (LinkedListGenome.walk _ _ _) as [i|]; [|done].
  destruct (py_get (LinkedListGenome.lst g) _) as [c|]; [|done].
  case_bool_decide; [|by apply Hfin].
  destruct (py_get (LinkedListGenome.ID g) _) as [o|]; [|done].
  destruct (LinkedFacts.linked_disable_te_cases o (LinkedSteps.bump g))
    as [E|[[_ E]|(a & Ha & E)]]; rewrite E; [done..|].
  by apply Hfin.
Qed.

Lemma insert_te_returns (I : impl) pos length (g g' : state I) id :
  insert_te pos length g = Return id g' ->
  id = counter g + 1 /\ counter g' = id /\ exists a, active_tes g' = a ++ [id].
Proof.
  destruct I; [apply list_insert_te_returns|apply linked_insert_te_returns].
Qed.

Lemma fmap_returns {S A B} (f : A -> B) (m : M S A) s y s' :
  (f <$> m) s = Return y s' -> exists x, m s = Return x s' /\ y = f x.
Proof.
  unfold fmap, M_fmap. destruct (m s) as [x s1| |]; [|done..].
  intros [= <- <-]. eauto.
Qed.

(** A call of [copy_te] that returns an id has it from [insert_te]. *)
Lemma copy_te_returns (I : impl) te offset (g g' : state I) id :
  copy_te te offset g = Return (Some id) g' ->
  exists pos length, insert_te pos length g = Return id g'.
Proof.
  destruct I as [|fuel]; simpl.
  - rewrite ListFacts.list_copy_te_eq.
    destruct (list_find _ _) as [[i o]|]; [|done].
    destruct (_ !! i) as [c|]; [|done].
    case_bool_decide; [done|].
    intros (x & E & [= ->])%fmap_returns. eauto.
  - destruct (LinkedFacts.linked_copy_te_cases fuel te offset g)
      as [[_ E]|[_ [E|[E|(p & m & Hm & E)]]]]; rewrite E; [done..|].
    intros (x & E' & [= ->])%fmap_returns. eauto.
Qed.

(** X17. The id that [insert_te] or [copy_te] returns on a reachable genome
    of either class is new: it is the counter plus one, above every id
    that is active or owns a position, and it is the new counter and the
    last of the active ids afterwards. *)
Theorem returned_id_is_new (I : impl) (n : Z) (ops : list op) (g g' : state I)
    (pos length te offset id : Z) :
  g ∈ run (new n) ops ->
  insert_te pos length g = Return id g' \/
  copy_te te offset g = Return (Some id) g' ->
  id = counter g + 1 /\ counter g' = id /\
  (forall x, x ∈ active_tes g \/ x ∈ owners g -> x < id) /\
  last (active_tes g') = Some id.
Proof.
  intros Hg Hret.
  assert (exists pos length, insert_te pos length g = Return id g')
    as (pos' & length' & E).
  { destruct Hret as [E|E]; [eauto|by eapply copy_te_returns]. }
  destruct (insert_te_returns I pos' length' g g' id E) as (-> & Hc & a & Ha).
  destruct (tidy_reachable I n ops g Hg) as (_ & Hs & _ & Hact).
  split_and!; [done..| |].
  - intros x [Hx|Hx].
    + rewrite Forall_forall in Hact. apply Hact in Hx. lia.
    + apply list_elem_of_lookup in Hx as [i Hi].
      destruct (Forall2_lookup_r _ _ _ _ _ Hs Hi) as (c & _ & Hb & _). lia.
  - rewrite Ha. apply last_snoc.
Qed.

Lemma returned_id_is_new_witness :
  let g : state (linked_slots 5) :=
    LinkedListGenome.mk ["-"; "-"; "-"; "A"; "A"]%char [1; 3; 0; 4; 2]
                        [0; 0; 0; 1; 1] [1] 1 in
  let g' : state (linked_slots 5) :=
    LinkedListGenome.mk ["-"; "-"; "-"; "A"; "A"; "A"; "A"]%char [1; 3; 5; 4; 2; 6; 0]
                        [0; 0; 0; 1; 1; 2; 2] [1; 2] 2 in
  2 = counter g + 1 /\ counter g' = 2 /\
  (forall x, x ∈ active_tes g \/ x ∈ owners g -> x < 2) /\
  last (active_tes g') = Some 2.
Proof.
  apply (returned_id_is_new (linked_slots 5) 3 [InsertTe 2 2] _ _ 0 0 1 3 2).
  - apply list_elem_of_lookup. exists 1%nat. reflexivity.
  - right. reflexivity.
Defined.
